(** * speed_reader: the word tokenisation and ORP-index pipeline

    A shallow embedding of the sample-document module of the frontend: the
    text normalisers, the tokenizer, the word decomposer built on
    [WORD_CORE_RE], the ORP calculator and the assembler [processTokens].

    JavaScript strings are sequences of UTF-16 code units, and the regular
    expressions of the program carry no [u] flag, so they work on code
    units too.  A string is therefore a list of code units, and the regular
    expressions are run by a small backtracking matcher that follows the
    continuation-passing matcher of the ECMAScript specification. *)

From Stdlib Require Import Ascii String.
From Stdlib Require Import List Bool Arith NArith ZArith Lia.
Import ListNotations.

Set Implicit Arguments.

(** ** Strings *)

Definition code_unit := N.
Definition jsstring := list code_unit.

(** A Rocq string literal read as a JavaScript string (ASCII text only). *)
Definition js (s : String.string) : jsstring :=
  map Ascii.N_of_ascii (String.list_ascii_of_string s).

Arguments js s%_string.

Definition in_range (lo hi c : code_unit) : bool :=
  N.leb lo c && N.leb c hi.

Definition is_unit (a c : code_unit) : bool := N.eqb c a.

Arguments in_range (lo hi c)%_N.
Arguments is_unit (a c)%_N.

(** [A-Za-z0-9] *)
Definition cls_alnum (c : code_unit) : bool :=
  in_range 65 90 c || in_range 97 122 c || in_range 48 57 c.

(** [^A-Za-z0-9] *)
Definition cls_not_alnum (c : code_unit) : bool := negb (cls_alnum c).

(** ['-] *)
Definition cls_apos_hyphen (c : code_unit) : bool :=
  is_unit 39 c || is_unit 45 c.

(** [ \t] *)
Definition cls_space_tab (c : code_unit) : bool :=
  is_unit 32 c || is_unit 9 c.

Definition CR : code_unit := 13%N.
Definition LF : code_unit := 10%N.
Definition SP : code_unit := 32%N.
Definition TAB : code_unit := 9%N.

(** [\s], and the characters [String.prototype.trim] strips: ECMAScript's
    WhiteSpace and LineTerminator code points. *)
Definition cls_space (c : code_unit) : bool :=
  in_range 9 13 c || is_unit 32 c || is_unit 160 c || is_unit 5760 c
  || in_range 8192 8202 c || is_unit 8232 c || is_unit 8233 c
  || is_unit 8239 c || is_unit 8287 c || is_unit 12288 c || is_unit 65279 c.

(** [\S] *)
Definition cls_not_space (c : code_unit) : bool := negb (cls_space c).

Fixpoint drop_while (p : code_unit -> bool) (s : jsstring) : jsstring :=
  match s with
  | [] => []
  | c :: s' => if p c then drop_while p s' else s
  end.

(** [String.prototype.trim] *)
Definition trim (s : jsstring) : jsstring :=
  rev (drop_while cls_space (rev (drop_while cls_space s))).

(** ** Regular expressions *)

Inductive regex : Type :=
| Chr (p : code_unit -> bool)      (* a character or a character class *)
| Cat (r1 r2 : regex)              (* r1r2 *)
| Rep (min : nat) (r : regex)      (* greedy r{min,}: r* r+ r{3,} *)
| Cap (i : nat) (r : regex)        (* the i-th capturing group (r) *)
| Bol                              (* ^ without the m flag *)
| Eol.                             (* $ without the m flag *)

Definition Star := Rep 0.
Definition Plus := Rep 1.
Definition Lit (c : code_unit) : regex := Chr (is_unit c).

Declare Scope regex_scope.
Delimit Scope regex_scope with re.
Bind Scope regex_scope with regex.
Infix ";;" := Cat (at level 61, right associativity) : regex_scope.

(** The state of a match: the index reached, the input from there on, and
    the captures recorded so far (latest first).  No pattern of the program
    has a capturing group under a quantifier, so the reset of such groups at
    each iteration is left out. *)
Record mstate : Type := MState {
  pos : nat;
  rest : jsstring;
  caps : list (nat * jsstring)
}.

Definition cont := mstate -> option mstate.

(** RepeatMatcher of the ECMAScript specification for a greedy quantifier
    without an upper bound.  An iteration that consumes nothing once [min]
    is reached is refused, so [fuel] above [min + length (rest x)] is never
    used up. *)
Fixpoint repeat_matcher (m : cont -> cont) (k : cont) (fuel min : nat)
    (x : mstate) : option mstate :=
  match fuel with
  | O => None
  | S fuel' =>
      let d := fun y =>
        if (min =? 0) && (pos y =? pos x) then None
        else repeat_matcher m k fuel' (Nat.pred min) y in
      match min with
      | O => match m d x with
             | Some z => Some z
             | None => k x
             end
      | S _ => m d x
      end
  end.

Fixpoint rmatch (r : regex) (k : cont) (x : mstate) {struct r} : option mstate :=
  match r with
  | Chr p =>
      match rest x with
      | c :: s => if p c then k (MState (S (pos x)) s (caps x)) else None
      | [] => None
      end
  | Cat r1 r2 => rmatch r1 (rmatch r2 k) x
  | Rep min r1 =>
      repeat_matcher (rmatch r1) k (S (min + length (rest x))) min x
  | Cap i r1 =>
      rmatch r1
        (fun y => k (MState (pos y) (rest y)
                       ((i, firstn (pos y - pos x) (rest x)) :: caps y))) x
  | Bol => if pos x =? 0 then k x else None
  | Eol => match rest x with [] => k x | _ :: _ => None end
  end.

(** One attempt at index [i], where [s] is the input from [i] on. *)
Definition match_at (r : regex) (i : nat) (s : jsstring) : option mstate :=
  rmatch r Some (MState i s []).

(** RegExpBuiltinExec: the first index from [i] on at which the pattern
    matches, with the state the match ends in. *)
Fixpoint search (r : regex) (i : nat) (s : jsstring) : option (nat * mstate) :=
  match match_at r i s with
  | Some y => Some (i, y)
  | None =>
      match s with
      | [] => None
      | _ :: s' => search r (S i) s'
      end
  end.

(** The value of capturing group [i] ([match[i]]). *)
Fixpoint capture (i : nat) (cs : list (nat * jsstring)) : jsstring :=
  match cs with
  | [] => []
  | (j, v) :: cs' => if i =? j then v else capture i cs'
  end.

(** [re.exec(s)] for a pattern without the g and y flags: the captures of
    the first match, [None] for [null]. *)
Definition exec (r : regex) (s : jsstring) : option (list (nat * jsstring)) :=
  match search r 0 s with
  | Some (_, y) => Some (caps y)
  | None => None
  end.

(** [s.replace(re, by)] for a global pattern and a replacement string without
    [$] patterns: each match, found from where the last one ended, is
    replaced; after an empty match the search resumes one code unit on. *)
Fixpoint replace_loop (fuel : nat) (r : regex) (by_ : jsstring) (i : nat)
    (s : jsstring) : jsstring :=
  match fuel with
  | O => s
  | S fuel' =>
      match search r i s with
      | None => s
      | Some (start, y) =>
          firstn (start - i) s ++ by_ ++
          (if pos y =? start then
             match rest y with
             | [] => []
             | c :: s' => c :: replace_loop fuel' r by_ (S (pos y)) s'
             end
           else replace_loop fuel' r by_ (pos y) (rest y))
      end
  end.

Definition replace_all (r : regex) (by_ : jsstring) (s : jsstring) : jsstring :=
  replace_loop (S (length s)) r by_ 0 s.

(** [s.match(re)] for a global pattern: the matched substrings in order,
    [None] for [null] when there is none. *)
Fixpoint match_loop (fuel : nat) (r : regex) (i : nat) (s : jsstring)
    : list jsstring :=
  match fuel with
  | O => []
  | S fuel' =>
      match search r i s with
      | None => []
      | Some (start, y) =>
          firstn (pos y - start) (skipn (start - i) s) ::
          (if pos y =? start then
             match rest y with
             | [] => []
             | _ :: s' => match_loop fuel' r (S (pos y)) s'
             end
           else match_loop fuel' r (pos y) (rest y))
      end
  end.

Definition match_all (r : regex) (s : jsstring) : option (list jsstring) :=
  match match_loop (S (length s)) r 0 s with
  | [] => None
  | ms => Some ms
  end.

(** ** The program *)

(** The pattern of the source, group by group (spaces added):
    ^ ( [^A-Za-z0-9]* ) ( [A-Za-z0-9]+ (?: ['-] [A-Za-z0-9]+ )* ) ( [^A-Za-z0-9]* ) $ *)
Definition WORD_CORE_RE : regex :=
  (Bol ;;
   Cap 1 (Star (Chr cls_not_alnum)) ;;
   Cap 2 (Plus (Chr cls_alnum) ;;
          Star (Chr cls_apos_hyphen ;; Plus (Chr cls_alnum))) ;;
   Cap 3 (Star (Chr cls_not_alnum)) ;;
   Eol)%re.

Definition calculateOrpCore (core : jsstring) : Z :=
  let trimmed := trim core in
  match trimmed with
  | [] => 0
  | _ :: _ =>
      let length := Z.of_nat (length trimmed) in
      if length <=? 1 then 0
      else if length <=? 5 then 1
      else if length <=? 9 then 2
      else if length <=? 13 then 3
      else 4
  end%Z.

Record Parts : Type := mkParts {
  leading : jsstring;
  core : jsstring;
  trailing : jsstring
}.

Definition splitLeadingCoreTrailing (token : jsstring) : Parts :=
  match exec WORD_CORE_RE token with
  | None => mkParts [] token []
  | Some m => mkParts (capture 1 m) (capture 2 m) (capture 3 m)
  end.

Definition normalizePreserveParagraphs (text : jsstring) : jsstring :=
  let normalized :=
    replace_all (Lit CR) [LF] (replace_all (Lit CR ;; Lit LF) [LF] text) in
  let normalized := replace_all (Plus (Chr cls_space_tab)) [SP] normalized in
  let normalized := replace_all (Rep 3 (Lit LF)) [LF; LF] normalized in
  trim normalized.

Definition normalizeForWords (text : jsstring) : jsstring :=
  trim (replace_all (Plus (Chr cls_space)) [SP] text).

Definition tokensFromText (text : jsstring) : list jsstring :=
  match match_all (Plus (Chr cls_not_space)) text with
  | Some ms => ms
  | None => []
  end.

(** [WordData] of [types.ts]. *)
Record WordData : Type := mkWordData {
  word : jsstring;
  orpIndex : Z
}.

Definition len (s : jsstring) : Z := Z.of_nat (length s).

Definition processToken (raw : jsstring) : WordData :=
  let p := splitLeadingCoreTrailing raw in
  let orpCore := calculateOrpCore (core p) in
  let display := leading p ++ core p ++ trailing p in
  let orpDisplay := (len (leading p) + orpCore)%Z in
  let orpDisplay :=
    match display with
    | [] => 0%Z
    | _ :: _ => Z.max 0 (Z.min orpDisplay (len display - 1))
    end in
  mkWordData display orpDisplay.

Definition processTokens (tokens : list jsstring) : list WordData :=
  map processToken tokens.

(** The pipeline of [getSampleDocument]: the word view of the text,
    tokenised and assembled. *)
Definition buildWordUnits (text : jsstring) : list WordData :=
  processTokens (tokensFromText (normalizeForWords text)).

(** ** The reader

    The state of the [Reader] component and its handlers, each a function on
    the state; [n] is [words.length].  The refs that only drive timers are
    left out, except [wpmHoldRef], kept as the step of the running interval. *)

Local Open Scope Z_scope.

Definition WPM_MIN : Z := 100.
Definition WPM_MAX : Z := 2000.
Definition WPM_STEP : Z := 10.
Definition WPM_HOLD_STEP : Z := 5.
Definition WORDS_PER_PAGE : Z := 300.

Definition clampValue (value min max : Z) : Z := Z.min max (Z.max min value).

Record ReaderState : Type := mkReader {
  currentIndex : Z;
  isPlaying : bool;
  wpm : Z;
  hasStarted : bool;
  isMinimal : bool;
  showSettings : bool;
  wpmHold : option Z
}.

(** [useState(0)], [useState(false)], [useState(300)], ... *)
Definition initialReader : ReaderState :=
  mkReader 0 false 300 false false false None.

Definition togglePlay (s : ReaderState) : ReaderState :=
  mkReader (currentIndex s) (negb (isPlaying s)) (wpm s) true (isMinimal s)
    false (wpmHold s).

Definition openContextPanel (s : ReaderState) : ReaderState :=
  mkReader (currentIndex s) false (wpm s) true false false (wpmHold s).

Definition refocusFromContext (s : ReaderState) : ReaderState :=
  mkReader (currentIndex s) true (wpm s) true (isMinimal s) (showSettings s)
    (wpmHold s).

Definition jumpToIndex (index : Z) (s : ReaderState) : ReaderState :=
  mkReader index false (wpm s) true (isMinimal s) (showSettings s) (wpmHold s).

Definition toggleSettings (s : ReaderState) : ReaderState :=
  mkReader (currentIndex s) (isPlaying s) (wpm s) (hasStarted s) (isMinimal s)
    (negb (showSettings s)) (wpmHold s).

Definition adjustWpm (delta : Z) (s : ReaderState) : ReaderState :=
  mkReader (currentIndex s) (isPlaying s)
    (clampValue (wpm s + delta) WPM_MIN WPM_MAX)
    (hasStarted s) (isMinimal s) (showSettings s) (wpmHold s).

Definition increaseWPM : ReaderState -> ReaderState := adjustWpm WPM_STEP.
Definition decreaseWPM : ReaderState -> ReaderState := adjustWpm (- WPM_STEP).

Definition startWpmAdjust (delta : Z) (s : ReaderState) : ReaderState :=
  match wpmHold s with
  | Some _ => s
  | None =>
      let s' := adjustWpm delta s in
      mkReader (currentIndex s') (isPlaying s') (wpm s') (hasStarted s')
        (isMinimal s') (showSettings s') (Some delta)
  end.

(** The interval that [startWpmAdjust] sets fires. *)
Definition holdTick (s : ReaderState) : ReaderState :=
  match wpmHold s with
  | Some delta => adjustWpm delta s
  | None => s
  end.

Definition stopWpmAdjust (s : ReaderState) : ReaderState :=
  match wpmHold s with
  | None => s
  | Some _ =>
      mkReader (currentIndex s) (isPlaying s) (wpm s) (hasStarted s)
        (isMinimal s) (showSettings s) None
  end.

Definition stepBackward (s : ReaderState) : ReaderState :=
  mkReader (Z.max 0 (currentIndex s - 1)) false (wpm s) true (isMinimal s)
    (showSettings s) (wpmHold s).

Definition stepForward (n : Z) (s : ReaderState) : ReaderState :=
  mkReader (Z.min (n - 1) (currentIndex s + 1)) false (wpm s) true
    (isMinimal s) (showSettings s) (wpmHold s).

Definition reset (s : ReaderState) : ReaderState :=
  mkReader 0 false (wpm s) (hasStarted s) (isMinimal s) (showSettings s)
    (wpmHold s).

Definition setIsMinimal (b : bool) (s : ReaderState) : ReaderState :=
  mkReader (currentIndex s) (isPlaying s) (wpm s) (hasStarted s) b
    (showSettings s) (wpmHold s).

Definition toggleMinimal (s : ReaderState) : ReaderState :=
  setIsMinimal (negb (isMinimal s)) s.

(** The update of the RSVP engine when [steps] intervals have elapsed: the
    function given to [setCurrentIndex], with the [setIsPlaying(false)] it
    calls. *)
Definition advance (n steps : Z) (s : ReaderState) : ReaderState :=
  let prev := currentIndex s in
  if n - 1 <=? prev then
    mkReader prev false (wpm s) (hasStarted s) (isMinimal s) (showSettings s)
      (wpmHold s)
  else
    let next := Z.min (prev + steps) (n - 1) in
    mkReader next (if n - 1 <=? next then false else isPlaying s) (wpm s)
      (hasStarted s) (isMinimal s) (showSettings s) (wpmHold s).

(** An animation frame of the engine, which runs while the reader plays and
    has words. *)
Definition frame (n steps : Z) (s : ReaderState) : ReaderState :=
  if isPlaying s && negb (n =? 0) then advance n steps s else s.

(** [words[currentIndex]]: [None] for [undefined]. *)
Definition wordAt (words : list WordData) (i : Z) : option WordData :=
  if i <? 0 then None else nth_error words (Z.to_nat i).

Definition safeWord (words : list WordData) (i : Z) : jsstring :=
  match wordAt words i with
  | Some w => word w
  | None => []
  end.

Definition safeOrpIndex (words : list WordData) (i : Z) : Z :=
  if 0 <? len (safeWord words i) then
    Z.min
      (Z.max (match wordAt words i with Some w => orpIndex w | None => 0 end) 0)
      (len (safeWord words i) - 1)
  else 0.

(** [Math.floor(currentIndex / WORDS_PER_PAGE) + 1]; on the integers that
    indices are, the division of the source is exact enough for its floor to
    be the integer quotient. *)
Definition pageOf (index : Z) : Z := index / WORDS_PER_PAGE + 1.

(** [Math.max(1, Math.ceil(totalWords / WORDS_PER_PAGE))] *)
Definition totalPages (totalWords : Z) : Z :=
  Z.max 1 (- ((- totalWords) / WORDS_PER_PAGE)).

(** ** The keyboard shortcuts *)

Record KeyEvent : Type := mkKey {
  key : string;
  key_repeat : bool;
  defaultPrevented : bool;
  target_is_field : bool
}.

Record ShortcutHandlers (S : Type) : Type := mkHandlers {
  onTogglePlay : S -> S;
  onIncreaseWPM : S -> S;
  onDecreaseWPM : S -> S;
  onStartIncreaseWPM : option (S -> S);
  onStartDecreaseWPM : option (S -> S);
  onStopAdjustWPM : option (S -> S);
  onStepBackward : S -> S;
  onStepForward : S -> S;
  onReset : S -> S;
  onToggleFullText : option (S -> S);
  onToggleMinimal : option (S -> S)
}.

(** [handler?.()] *)
Definition call_if_given (S : Type) (h : option (S -> S)) (s : S) : S :=
  match h with
  | Some f => f s
  | None => s
  end.

Definition handleKeyDown (S : Type) (handlers : ShortcutHandlers S)
    (e : KeyEvent) (s : S) : S :=
  if defaultPrevented e then s
  else if target_is_field e then s
  else if String.eqb (key e) " " then onTogglePlay handlers s
  else if String.eqb (key e) "ArrowUp" then
    match onStartIncreaseWPM handlers with
    | Some start => if key_repeat e then s else start s
    | None => onIncreaseWPM handlers s
    end
  else if String.eqb (key e) "ArrowDown" then
    match onStartDecreaseWPM handlers with
    | Some start => if key_repeat e then s else start s
    | None => onDecreaseWPM handlers s
    end
  else if String.eqb (key e) "ArrowLeft" then onStepBackward handlers s
  else if String.eqb (key e) "ArrowRight" then onStepForward handlers s
  else if String.eqb (key e) "r" || String.eqb (key e) "R" then
    onReset handlers s
  else if String.eqb (key e) "f" || String.eqb (key e) "F" then
    call_if_given (onToggleFullText handlers) s
  else if String.eqb (key e) "m" || String.eqb (key e) "M" then
    call_if_given (onToggleMinimal handlers) s
  else s.

Definition handleKeyUp (S : Type) (handlers : ShortcutHandlers S)
    (e : KeyEvent) (s : S) : S :=
  if defaultPrevented e then s
  else if target_is_field e then s
  else if String.eqb (key e) "ArrowUp" || String.eqb (key e) "ArrowDown" then
    call_if_given (onStopAdjustWPM handlers) s
  else s.

(** The handlers the reader gives to [useShortcuts]. *)
Definition shortcutHandlers (n : Z) : ShortcutHandlers ReaderState :=
  mkHandlers togglePlay increaseWPM decreaseWPM
    (Some (startWpmAdjust WPM_HOLD_STEP))
    (Some (startWpmAdjust (- WPM_HOLD_STEP)))
    (Some stopWpmAdjust)
    stepBackward (stepForward n) reset
    (Some openContextPanel) (Some toggleMinimal).

(** ** The full text view: pages *)

(** [goToPage]: the index it hands to [onJumpToIndex]. *)
Definition pageTarget (totalWords page : Z) : Z :=
  let targetPage := Z.max 1 (Z.min page (totalPages totalWords)) in
  (targetPage - 1) * WORDS_PER_PAGE.

Definition goToPage (totalWords page : Z) (s : ReaderState) : ReaderState :=
  jumpToIndex (pageTarget totalWords page) s.

(** [!isPlaying && hasStarted], which the reader hands to the view as
    [isOpen]. *)
Definition showContextPanel (s : ReaderState) : bool :=
  negb (isPlaying s) && hasStarted s.

(** The props of [FullTextView] that its page buttons read, as they were at
    the view's last render. *)
Record ViewProps : Type := mkView {
  view_isOpen : bool;
  view_currentIndex : Z
}.

(** The props the reader hands to the view. *)
Definition viewProps (s : ReaderState) : ViewProps :=
  mkView (showContextPanel s) (currentIndex s).

(** [memo(FullTextView, ...)]: the view is not rendered again when it was
    closed at its last render and is closed now, so it keeps the props, and
    the closures, of that render. *)
Definition rerender (prev next : ViewProps) : ViewProps :=
  if negb (view_isOpen prev) && negb (view_isOpen next) then prev else next.

(** [currentPage] of the view: the page of the index it was rendered with. *)
Definition currentPage (view : ViewProps) : Z :=
  pageOf (view_currentIndex view).

(** The page buttons are closures of the view: they read [currentPage] of
    its last render, not the index of the reader. *)
Definition goToPreviousPage (totalWords : Z) (view : ViewProps)
    (s : ReaderState) : ReaderState :=
  if 1 <? currentPage view
  then goToPage totalWords (currentPage view - 1) s
  else s.

Definition goToNextPage (totalWords : Z) (view : ViewProps)
    (s : ReaderState) : ReaderState :=
  if currentPage view <? totalPages totalWords
  then goToPage totalWords (currentPage view + 1) s
  else s.

(** A click on the word with [data-word-index] [index]. *)
Definition clickWord (totalWords index : Z) (s : ReaderState) : ReaderState :=
  if (0 <=? index) && (index <? totalWords) then jumpToIndex index s else s.

(** ** What can happen to a reader *)

Inductive Button : Type :=
| BtnStepBackward | BtnTogglePlay | BtnStepForward | BtnDecreaseWPM
| BtnIncreaseWPM | BtnReset | BtnFullText | BtnFocus | BtnSettings
| BtnContextPlay | BtnPreviousPage | BtnNextPage.

Inductive Event : Type :=
| KeyDown (e : KeyEvent)
| KeyUp (e : KeyEvent)
| Frame (steps : Z)
| HoldTick
| Press (b : Button)
| FocusBox (checked : bool)
| WordClick (index : Z).

Definition press (n : Z) (view : ViewProps) (b : Button)
    : ReaderState -> ReaderState :=
  match b with
  | BtnStepBackward => stepBackward
  | BtnTogglePlay => togglePlay
  | BtnStepForward => stepForward n
  | BtnDecreaseWPM => decreaseWPM
  | BtnIncreaseWPM => increaseWPM
  | BtnReset => reset
  | BtnFullText => openContextPanel
  | BtnFocus => toggleMinimal
  | BtnSettings => toggleSettings
  | BtnContextPlay => refocusFromContext
  | BtnPreviousPage => goToPreviousPage n view
  | BtnNextPage => goToNextPage n view
  end.

Definition handle (n : Z) (view : ViewProps) (ev : Event)
    : ReaderState -> ReaderState :=
  match ev with
  | KeyDown e => handleKeyDown (shortcutHandlers n) e
  | KeyUp e => handleKeyUp (shortcutHandlers n) e
  | Frame steps => frame n steps
  | HoldTick => holdTick
  | Press b => press n view b
  | FocusBox checked => setIsMinimal checked
  | WordClick index => clickWord n index
  end.

(** One event: the handler runs on the reader, with the view as it was last
    rendered, and the reader hands its new props to the memoised view. *)
Definition step (n : Z) (ev : Event) (a : ReaderState * ViewProps)
    : ReaderState * ViewProps :=
  (handle n (snd a) ev (fst a),
   rerender (snd a) (viewProps (handle n (snd a) ev (fst a)))).

Definition runView (n : Z) (evs : list Event) (a : ReaderState * ViewProps)
    : ReaderState * ViewProps :=
  fold_left (fun a ev => step n ev a) evs a.

(** The first render: the view gets the props of the reader as it is. *)
Definition mount (s : ReaderState) : ReaderState * ViewProps :=
  (s, viewProps s).

Definition run (n : Z) (evs : list Event) (s : ReaderState) : ReaderState :=
  fst (runView n evs (mount s)).

(** An engine frame changes the index only after a whole interval: one step
    or more. *)
Definition event_ok (ev : Event) : Prop :=
  match ev with
  | Frame steps => (1 <= steps)%Z
  | _ => True
  end.

(** The bounds the reader keeps. *)
Definition reader_ok (n : Z) (s : ReaderState) : Prop :=
  (0 <= currentIndex s <= n - 1)%Z /\
  (WPM_MIN <= wpm s <= WPM_MAX)%Z /\
  (wpm s mod 5 = 0)%Z.

(** [f] keeps the property [P] of the state. *)
Definition keeps (S : Type) (P : S -> Prop) (f : S -> S) : Prop :=
  forall s, P s -> P (f s).

Definition keeps_if_given (S : Type) (P : S -> Prop) (h : option (S -> S))
    : Prop :=
  match h with
  | Some f => keeps P f
  | None => True
  end.

Definition handlers_keep (S : Type) (P : S -> Prop) (h : ShortcutHandlers S)
    : Prop :=
  keeps P (onTogglePlay h) /\ keeps P (onIncreaseWPM h) /\
  keeps P (onDecreaseWPM h) /\ keeps_if_given P (onStartIncreaseWPM h) /\
  keeps_if_given P (onStartDecreaseWPM h) /\
  keeps_if_given P (onStopAdjustWPM h) /\ keeps P (onStepBackward h) /\
  keeps P (onStepForward h) /\ keeps P (onReset h) /\
  keeps_if_given P (onToggleFullText h) /\ keeps_if_given P (onToggleMinimal h).

(** The steps the interval can have are those [startWpmAdjust] is called
    with. *)
Definition hold_ok (s : ReaderState) : Prop :=
  match wpmHold s with
  | Some delta => delta mod 5 = 0
  | None => True
  end.

Definition reader_inv (n : Z) (s : ReaderState) : Prop :=
  reader_ok n s /\ hold_ok s.


Local Close Scope Z_scope.

(** ** The full text view: words, sentences and paragraphs *)

(** [re.test(s)] for a pattern without the g and y flags. *)
Definition test (r : regex) (s : jsstring) : bool :=
  match exec r s with
  | Some _ => true
  | None => false
  end.

Definition isWordToken (token : jsstring) : bool := test (Chr cls_alnum) token.

Definition countWords (text : jsstring) : Z :=
  let tokens :=
    match match_all (Plus (Chr cls_not_space)) text with
    | Some ms => ms
    | None => []
    end in
  fold_left (fun count token => if isWordToken token then (count + 1)%Z else count)
    tokens 0%Z.

(** [.!?] *)
Definition cls_stop (c : code_unit) : bool :=
  is_unit 46 c || is_unit 33 c || is_unit 63 c.

(** The closing marks that may follow the stop: double quote, apostrophe,
    closing parenthesis and closing bracket. *)
Definition cls_closer (c : code_unit) : bool :=
  is_unit 34 c || is_unit 39 c || is_unit 41 c || is_unit 93 c.

Definition SENTENCE_END_RE : regex :=
  (Chr cls_stop ;; Star (Chr cls_closer) ;; Eol)%re.

Definition isSentenceEnd (token : jsstring) : bool := test SENTENCE_END_RE token.

(** [l[i]], [None] for [undefined]. *)
Definition item (A : Type) (l : list A) (i : Z) : option A :=
  if (i <? 0)%Z then None else nth_error l (Z.to_nat i).

Definition SLASH : code_unit := 47%N.
Definition DOT : code_unit := 46%N.

(** Neither a slash nor a dot. *)
Definition cls_not_slash_dot (c : code_unit) : bool :=
  negb (is_unit SLASH c || is_unit DOT c).

(** A dot, one or more code units that are neither a slash nor a dot, the
    end of the input. *)
Definition EXTENSION_RE : regex :=
  (Lit DOT ;; Plus (Chr cls_not_slash_dot) ;; Eol)%re.

(** [s.split(sep)] for a separator of one code unit: the pieces between the
    separators, at least one piece; [cur] is the piece being read. *)
Fixpoint split_at (sep : code_unit) (cur s : jsstring) : list jsstring :=
  match s with
  | [] => [cur]
  | c :: s' =>
      if is_unit sep c then cur :: split_at sep [] s'
      else split_at sep (cur ++ [c]) s'
  end.

(** [l.pop()], [None] for [undefined]. *)
Definition pop (A : Type) (l : list A) : option A :=
  match rev l with
  | [] => None
  | a :: _ => Some a
  end.

(** [s.replace(re, by)] for a pattern without the g flag and a replacement
    string without [$] patterns: the first match is replaced. *)
Definition replace_first (r : regex) (by_ s : jsstring) : jsstring :=
  match search r 0 s with
  | None => s
  | Some (start, y) => firstn start s ++ by_ ++ rest y
  end.

(** [fileName] is an optional property; the empty string counts as not
    given. *)
Definition fallbackTitle (fileName : option jsstring) : jsstring :=
  match fileName with
  | Some (c :: name) =>
      match pop (split_at SLASH [] (c :: name)) with
      | Some piece => replace_first EXTENSION_RE [] piece
      | None => c :: name
      end
  | _ => js "Untitled"
  end.

(** [s.split(re)] without a limit, for a pattern without capturing groups
    (the loop of the ECMAScript specification, which tries the pattern at
    index [q] only): [p] is where the piece being read starts, [cur] holds
    the code units from [p] to [q], and [s] is the input from [q] on.  A
    match at [q] that ends at [p] is passed over.  An iteration moves [q]
    forward or, after an empty match, moves [p] up to [q], so [fuel] above
    twice the length of [s] is never used up. *)
Fixpoint split_loop (fuel : nat) (r : regex) (p q : nat) (cur s : jsstring)
    : list jsstring :=
  match fuel with
  | O => [cur ++ s]
  | S fuel' =>
      match s with
      | [] => [cur]
      | c :: s' =>
          match match_at r q s with
          | None => split_loop fuel' r p (S q) (cur ++ [c]) s'
          | Some y =>
              if pos y =? p then split_loop fuel' r p (S q) (cur ++ [c]) s'
              else cur :: split_loop fuel' r (pos y) (pos y) [] (rest y)
          end
      end
  end.

Definition split_re (r : regex) (s : jsstring) : list jsstring :=
  match s with
  | [] => match match_at r 0 [] with Some _ => [] | None => [[]] end
  | _ :: _ => split_loop (S (2 * length s)) r 0 0 [] s
  end.

(** A line feed, any white space, a line feed. *)
Definition PARAGRAPH_RE : regex :=
  (Lit LF ;; Star (Chr cls_space) ;; Lit LF)%re.

(** [fullText] is an optional property: [None] when it is not given. *)
Definition formattedText (isOpen isReady : bool) (fullText : option jsstring)
    : jsstring :=
  if isOpen && isReady then
    match fullText with
    | Some t => trim t
    | None => []
    end
  else [].

Definition paragraphs (formattedText : jsstring) : list jsstring :=
  match formattedText with
  | [] => []
  | _ :: _ => split_re PARAGRAPH_RE formattedText
  end.

Record ParagraphMeta : Type := mkMeta {
  starts : list Z;
  counts : list Z;
  total : Z
}.

Definition paragraphMeta (paragraphs : list jsstring) : ParagraphMeta :=
  fold_left
    (fun m paragraph =>
       let count := countWords paragraph in
       mkMeta (starts m ++ [total m]) (counts m ++ [count]) (total m + count)%Z)
    paragraphs (mkMeta [] [] 0%Z).

Definition MAX_SAFE_INTEGER : Z := 9007199254740991%Z.

Local Open Scope Z_scope.

(** The loop of [activeParagraphIndex]; a comparison with [undefined] is
    false.  The loop ends before [fuel] does when [fuel] is above
    [high - low + 1]. *)
Fixpoint findParagraph (fuel : nat) (starts : list Z) (currentIndex low high : Z)
    : Z :=
  match fuel with
  | O => 0
  | S fuel' =>
      if low <=? high then
        let mid := (low + high) / 2 in
        let next :=
          if mid + 1 <? Z.of_nat (length starts) then item starts (mid + 1)
          else Some MAX_SAFE_INTEGER in
        let here :=
          match item starts mid, next with
          | Some start, Some next =>
              (start <=? currentIndex) && (currentIndex <? next)
          | _, _ => false
          end in
        let before :=
          match item starts mid with
          | Some start => currentIndex <? start
          | None => false
          end in
        if here then mid
        else if before then findParagraph fuel' starts currentIndex low (mid - 1)
        else findParagraph fuel' starts currentIndex (mid + 1) high
      else 0
  end.

Definition activeParagraphIndex (isOpen isReady : bool)
    (paragraphs : list jsstring) (currentIndex : Z) : Z :=
  if negb isOpen || negb isReady || (length paragraphs =? 0)%nat then 0
  else
    let starts := starts (paragraphMeta paragraphs) in
    findParagraph (S (length starts)) starts currentIndex 0
      (Z.of_nat (length starts) - 1).

Definition visibleParagraphs (isOpen isReady : bool)
    (paragraphs : list jsstring) (currentPage totalWords : Z) : list Z :=
  if negb isOpen || negb isReady || (length paragraphs =? 0)%nat then []
  else
    let pageStartWord := (currentPage - 1) * WORDS_PER_PAGE in
    let pageEndWord := Z.min (currentPage * WORDS_PER_PAGE) totalWords in
    let m := paragraphMeta paragraphs in
    filter
      (fun i =>
         match item (starts m) i, item (counts m) i with
         | Some paraStart, Some count =>
             (paraStart <? pageEndWord) && (pageStartWord <? paraStart + count)
         | _, _ => false
         end)
      (map Z.of_nat (seq 0 (length paragraphs))).

Local Close Scope Z_scope.

(** ** Direct readings of the patterns

    What each pattern of the program does to its input, written as plain
    recursion on the input; the theorems below show that the matcher
    computes exactly these. *)

Fixpoint take_while (p : code_unit -> bool) (s : jsstring) : jsstring :=
  match s with
  | [] => []
  | c :: s' => if p c then c :: take_while p s' else []
  end.

Definition starts_with (p : code_unit -> bool) (s : jsstring) : bool :=
  match s with
  | [] => false
  | c :: _ => p c
  end.

(** The state [n] code units further on. *)
Definition adv (n : nat) (x : mstate) : mstate :=
  MState (pos x + n) (skipn n (rest x)) (caps x).

(** A greedy [p{min,}] for a class [p]: the longest run first, then one
    code unit less each time the continuation refuses. *)
Fixpoint greedy_cls (p : code_unit -> bool) (k : cont) (min i : nat)
    (s : jsstring) (cs : list (nat * jsstring)) : option mstate :=
  let stop := if min =? 0 then k (MState i s cs) else None in
  match s with
  | [] => stop
  | c :: s' =>
      if p c then
        match greedy_cls p k (Nat.pred min) (S i) s' cs with
        | Some z => Some z
        | None => stop
        end
      else stop
  end.

(** The length of the longest prefix of [s] made of alphanumeric code units
    and of apostrophes or hyphens that an alphanumeric code unit follows:
    where the core that starts at the head of [s] ends. *)
Fixpoint core_end (s : jsstring) : nat :=
  match s with
  | [] => 0
  | c :: s' =>
      if cls_alnum c then S (core_end s')
      else if cls_apos_hyphen c && starts_with cls_alnum s' then S (core_end s')
      else 0
  end.

(** [WORD_CORE_RE] read from left to right without backtracking: the run of
    non-alphanumerics, the core, and what is left, which has to be free of
    alphanumerics. *)
Definition split_direct (token : jsstring)
    : option (jsstring * jsstring * jsstring) :=
  let r := drop_while cls_not_alnum token in
  let n := core_end r in
  if starts_with cls_alnum r && forallb cls_not_alnum (skipn n r)
  then Some (take_while cls_not_alnum token, firstn n r, skipn n r)
  else None.

(** The captures a match of [WORD_CORE_RE] leaves, latest first. *)
Definition word_caps (lct : jsstring * jsstring * jsstring)
    : list (nat * jsstring) :=
  let '(l, c, t) := lct in [(3, t); (2, c); (1, l)].

(** A core in the words of the specification: a run of alphanumerics,
    extended by groups of an apostrophe or hyphen and a run of
    alphanumerics. *)
Inductive core_form : jsstring -> Prop :=
| core_run (a : jsstring) :
    a <> [] -> forallb cls_alnum a = true -> core_form a
| core_group (w : jsstring) (j : code_unit) (a : jsstring) :
    core_form w -> cls_apos_hyphen j = true ->
    a <> [] -> forallb cls_alnum a = true ->
    core_form (w ++ j :: a).

(** A token the pattern matches: non-alphanumerics, a core,
    non-alphanumerics. *)
Definition word_shape (token : jsstring) : Prop :=
  exists l c t,
    token = l ++ c ++ t /\ forallb cls_not_alnum l = true /\
    core_form c /\ forallb cls_not_alnum t = true.

(** The longest run of [p] at the end of [s]. *)
Definition take_while_end (p : code_unit -> bool) (s : jsstring) : jsstring :=
  rev (take_while p (rev s)).

Definition fallback (token : jsstring) : Parts := mkParts [] token [].

(** The band table of the specification, by the length [L] of the trimmed
    core. *)
Definition orp_band (L : nat) : Z :=
  match L with
  | 0 | 1 => 0%Z
  | 2 | 3 | 4 | 5 => 1%Z
  | 6 | 7 | 8 | 9 => 2%Z
  | 10 | 11 | 12 | 13 => 3%Z
  | _ => 4%Z
  end.

(** The bounds every [WordData] has to keep. *)
Definition wordunit_ok (w : WordData) : Prop :=
  match word w with
  | [] => orpIndex w = 0%Z
  | _ :: _ => (0 <= orpIndex w <= len (word w) - 1)%Z
  end.

(** [processTokens] without its clamp and without its branch for the empty
    display. *)
Definition processToken_unclamped (raw : jsstring) : WordData :=
  let p := splitLeadingCoreTrailing raw in
  let orpCore := calculateOrpCore (core p) in
  let display := leading p ++ core p ++ trailing p in
  mkWordData display (len (leading p) + orpCore)%Z.

Definition processTokens_unclamped (tokens : list jsstring) : list WordData :=
  map processToken_unclamped tokens.

(** Every maximal run of [p] replaced by [by_]; [in_run] tells that the
    code unit before was in a run. *)
Fixpoint squeeze (p : code_unit -> bool) (by_ : jsstring) (in_run : bool)
    (s : jsstring) : jsstring :=
  match s with
  | [] => []
  | c :: s' =>
      if p c then
        if in_run then squeeze p by_ true s' else by_ ++ squeeze p by_ true s'
      else c :: squeeze p by_ false s'
  end.

(** CR LF pairs turned into LF. *)
Fixpoint crlf_to_lf (s : jsstring) : jsstring :=
  match s with
  | [] => []
  | c :: s' =>
      match s' with
      | d :: s'' =>
          if is_unit CR c && is_unit LF d then LF :: crlf_to_lf s''
          else c :: crlf_to_lf s'
      | [] => [c]
      end
  end.

Definition cr_to_lf (c : code_unit) : code_unit :=
  if is_unit CR c then LF else c.

(** Every line ending, CR LF, CR or LF, as one LF. *)
Fixpoint unify_line_endings (s : jsstring) : jsstring :=
  match s with
  | [] => []
  | c :: s' =>
      if is_unit CR c then
        LF :: match s' with
              | d :: s'' =>
                  if is_unit LF d then unify_line_endings s''
                  else unify_line_endings s'
              | [] => []
              end
      else c :: unify_line_endings s'
  end.

(** Runs of three or more LF cut down to two; [n] counts the LF of the run
    the scan is in. *)
Fixpoint squeeze_newlines_from (n : nat) (s : jsstring) : jsstring :=
  match s with
  | [] => repeat LF (Nat.min n 2)
  | c :: s' =>
      if is_unit LF c then squeeze_newlines_from (S n) s'
      else repeat LF (Nat.min n 2) ++ c :: squeeze_newlines_from 0 s'
  end.

Definition squeeze_newlines (s : jsstring) : jsstring :=
  squeeze_newlines_from 0 s.

(** The maximal substrings of [s] free of [p], in order; [cur] is the
    substring being read. *)
Fixpoint split_on (p : code_unit -> bool) (cur : jsstring) (s : jsstring)
    : list jsstring :=
  match s with
  | [] => match cur with [] => [] | _ :: _ => [cur] end
  | c :: s' =>
      if p c then
        match cur with
        | [] => split_on p [] s'
        | _ :: _ => cur :: split_on p [] s'
        end
      else split_on p (cur ++ [c]) s'
  end.

(** The whitespace-delimited maximal non-whitespace substrings. *)
Definition whitespace_tokens (s : jsstring) : list jsstring :=
  split_on cls_space [] s.

(** No two neighbours both in [q]. *)
Fixpoint no_adjacent (q : code_unit -> bool) (s : jsstring) : bool :=
  match s with
  | [] => true
  | c :: s' => negb (q c && starts_with q s') && no_adjacent q s'
  end.

(** No three LF in a row. *)
Fixpoint no_three_newlines (s : jsstring) : bool :=
  match s with
  | [] => true
  | c1 :: s' =>
      match s' with
      | c2 :: c3 :: _ => negb (is_unit LF c1 && is_unit LF c2 && is_unit LF c3)
      | _ => true
      end && no_three_newlines s'
  end.

(** The last code unit is in [q]. *)
Fixpoint ends_with (q : code_unit -> bool) (s : jsstring) : bool :=
  match s with
  | [] => false
  | c :: s' =>
      match s' with
      | [] => q c
      | _ :: _ => ends_with q s'
      end
  end.

(** CR or LF. *)
Definition is_break (c : code_unit) : bool := is_unit CR c || is_unit LF c.

(** Neither the first nor the last code unit is whitespace. *)
Definition trimmed (s : jsstring) : Prop :=
  starts_with cls_space s = false /\ starts_with cls_space (rev s) = false.

(** The strings of [l] with [sep] between them. *)
Fixpoint join (sep : jsstring) (l : list jsstring) : jsstring :=
  match l with
  | [] => []
  | a :: l' =>
      match l' with
      | [] => a
      | _ :: _ => a ++ sep ++ join sep l'
      end
  end.

(** Whether some suffix of [s] is a stop followed by closing marks only. *)
Fixpoint ends_sentence (s : jsstring) : bool :=
  match s with
  | [] => false
  | c :: s' => (cls_stop c && forallb cls_closer s') || ends_sentence s'
  end.

(** The running sums of [cs], from [a]. *)
Fixpoint prefix_sums (a : Z) (cs : list Z) : list Z :=
  match cs with
  | [] => []
  | c :: cs' => a :: prefix_sums (a + c)%Z cs'
  end.

Definition sum (cs : list Z) : Z := fold_right Z.add 0%Z cs.

(** Never going down from one index to a later one. *)
Definition ascending (l : list Z) : Prop :=
  forall i j a b,
    (i <= j)%Z -> item l i = Some a -> item l j = Some b -> (a <= b)%Z.

Definition not_slash (c : code_unit) : bool := negb (is_unit SLASH c).

(** A path up to its last piece: nothing, or something that ends in a
    slash. *)
Definition is_directory (s : jsstring) : Prop :=
  s = [] \/ exists d, s = d ++ [SLASH].

(** A break of blank lines: a line feed, then one line or more that holds
    nothing, or spaces and tabs only, each closed by its line feed. *)
Definition blank_lines (sep : jsstring) : bool :=
  starts_with (is_unit LF) sep && ends_with (is_unit LF) sep &&
  forallb (fun c => is_unit LF c || cls_space_tab c) sep &&
  (2 <=? length (filter (is_unit LF) sep)).

(** The code units of ASCII. *)
Definition cls_ascii (c : code_unit) : bool := N.ltb c 128.

(** ** Notions the proofs use *)

(** What the tokenizer emits when a token ends. *)
Definition flush (cur : jsstring) : list jsstring :=
  match cur with
  | [] => []
  | _ :: _ => [cur]
  end.

(** Every state the continuation is called on lies further on in the same
    input. *)
Definition reaches (x y : mstate) : Prop :=
  exists a, rest x = a ++ rest y /\ pos y = pos x + length a.

(** A matcher calls its continuation further on only. *)
Definition forward (m : cont -> cont) : Prop :=
  forall k x z, m k x = Some z -> exists y, reaches x y /\ k y = Some z.

(** A matcher sees its continuation only at the states it can reach. *)
Definition local (m : cont -> cont) : Prop :=
  forall k1 k2 x,
    (forall y, reaches x y -> k1 y = k2 y) -> m k1 x = m k2 x.

(** What follows the core: group 3 and the end of the input. *)
Definition after_core : cont :=
  rmatch (Cap 3 (Star (Chr cls_not_alnum))) (rmatch Eol Some).

(** [(?:['-][A-Za-z0-9]+)] *)
Definition join_group : regex := (Chr cls_apos_hyphen ;; Plus (Chr cls_alnum))%re.

(** A continuation that refuses whatever still holds an alphanumeric. *)
Definition needs_no_alnum (k : cont) : Prop :=
  forall y, existsb cls_alnum (rest y) = true -> k y = None.

(** Group 2: a run of alphanumerics and any number of join groups. *)
Definition core_re : regex :=
  Cap 2 (Plus (Chr cls_alnum) ;; Star join_group)%re.

(** ** The matcher *)

Lemma adv_0 (x : mstate) : adv 0 x = x.
Proof. destruct x; unfold adv; simpl. now rewrite Nat.add_0_r. Qed.

Lemma rest_adv (n : nat) (x : mstate) : rest (adv n x) = skipn n (rest x).
Proof. reflexivity. Qed.

Lemma adv_adv (a b : nat) (x : mstate) : adv a (adv b x) = adv (b + a) x.
Proof.
  destruct x as [i s cs]; unfold adv; simpl.
  now rewrite skipn_skipn, Nat.add_assoc, (Nat.add_comm a b).
Qed.

Lemma take_drop (p : code_unit -> bool) (s : jsstring) :
  take_while p s ++ drop_while p s = s.
Proof. induction s as [|c s IH]; simpl; [|destruct (p c); simpl; rewrite ?IH]; reflexivity. Qed.

Lemma take_while_all (p : code_unit -> bool) (s : jsstring) :
  forallb p (take_while p s) = true.
Proof. induction s as [|c s IH]; simpl; [|destruct (p c) eqn:E; simpl; rewrite ?E, ?IH]; reflexivity. Qed.

Lemma drop_while_start (p : code_unit -> bool) (s : jsstring) :
  starts_with p (drop_while p s) = false.
Proof. induction s as [|c s IH]; simpl; [|destruct (p c) eqn:E; simpl; rewrite ?E]; auto. Qed.

Lemma skipn_take_while (p : code_unit -> bool) (s : jsstring) :
  skipn (length (take_while p s)) s = drop_while p s.
Proof. induction s as [|c s IH]; simpl; [|destruct (p c); simpl]; auto. Qed.

Lemma firstn_take_while (p : code_unit -> bool) (s : jsstring) :
  firstn (length (take_while p s)) s = take_while p s.
Proof. induction s as [|c s IH]; simpl; [|destruct (p c); simpl; rewrite ?IH]; auto. Qed.

(** The repeat matcher on a character class does not depend on its fuel. *)
Lemma repeat_cls (p : code_unit -> bool) (k : cont) (s : jsstring) :
  forall fuel min i cs,
    min + length s < fuel ->
    repeat_matcher (rmatch (Chr p)) k fuel min (MState i s cs)
    = greedy_cls p k min i s cs.
Proof.
  induction s as [|c s IH]; intros fuel min i cs Hf;
    (destruct fuel as [|fuel]; [lia|]); cbn -[Nat.eqb].
  - destruct min; reflexivity.
  - destruct (p c) eqn:Ep.
    + destruct min as [|min]; cbn -[Nat.eqb].
      * rewrite (proj2 (Nat.eqb_neq (S i) i)) by lia.
        rewrite IH by (simpl in Hf; lia). reflexivity.
      * rewrite IH by (simpl in Hf; lia).
        now destruct (greedy_cls p k min (S i) s cs).
    + destruct min; reflexivity.
Qed.

Lemma rmatch_rep_cls (p : code_unit -> bool) (k : cont) (min : nat) (x : mstate) :
  rmatch (Rep min (Chr p)) k x = greedy_cls p k min (pos x) (rest x) (caps x).
Proof.
  destruct x as [i s cs].
  change (rmatch (Rep min (Chr p)) k (MState i s cs))
    with (repeat_matcher (rmatch (Chr p)) k (S (min + length s)) min (MState i s cs)).
  apply repeat_cls. simpl. lia.
Qed.

(** When the continuation refuses every run shorter than the longest one,
    the longest run is the only candidate. *)
Lemma greedy_cls_max (p : code_unit -> bool) (k : cont) (s : jsstring) :
  forall min i cs,
    (forall j, min <= j < length (take_while p s) ->
               k (adv j (MState i s cs)) = None) ->
    greedy_cls p k min i s cs
    = if min <=? length (take_while p s)
      then k (adv (length (take_while p s)) (MState i s cs))
      else None.
Proof.
  induction s as [|c s IH]; intros min i cs Hk; simpl.
  - destruct min; simpl; [rewrite adv_0|]; reflexivity.
  - simpl in Hk. destruct (p c) eqn:Ep; simpl in *.
    + rewrite IH.
      * destruct min as [|min]; simpl.
        -- unfold adv; simpl. rewrite Nat.add_succ_r.
           destruct (k _) eqn:Ek; [reflexivity|].
           specialize (Hk 0). rewrite adv_0 in Hk. apply Hk. simpl; lia.
        -- unfold adv; simpl. rewrite Nat.add_succ_r.
           now destruct (min <=? length (take_while p s)); [destruct (k _)|].
      * intros j Hj. specialize (Hk (S j)). unfold adv in *; simpl in *.
        rewrite Nat.add_succ_r in Hk. apply Hk. destruct min; simpl in *; lia.
    + destruct min; simpl; [rewrite adv_0|]; reflexivity.
Qed.

(** When the continuation accepts the longest run, that is the match. *)
Lemma greedy_cls_top (p : code_unit -> bool) (k : cont) (s : jsstring) :
  forall min i cs z,
    min <= length (take_while p s) ->
    k (adv (length (take_while p s)) (MState i s cs)) = Some z ->
    greedy_cls p k min i s cs = Some z.
Proof.
  induction s as [|c s IH]; intros min i cs z Hm Hk; simpl in *.
  - assert (min = 0) by lia; subst. rewrite adv_0 in Hk. exact Hk.
  - destruct (p c) eqn:Ep; simpl in *.
    + rewrite (IH (Nat.pred min) (S i) cs z); [reflexivity|lia|].
      unfold adv in *; simpl in *. now rewrite Nat.add_succ_r in Hk.
    + assert (min = 0) by lia; subst. rewrite adv_0 in Hk. exact Hk.
Qed.

Lemma greedy_cls_short (p : code_unit -> bool) (k : cont) (s : jsstring) :
  forall min i cs,
    length (take_while p s) < min ->
    greedy_cls p k min i s cs = None.
Proof.
  intros. rewrite greedy_cls_max by (intros; lia).
  apply Nat.leb_gt in H. now rewrite H.
Qed.

Lemma reaches_refl (x : mstate) : reaches x x.
Proof. exists []. simpl. split; [reflexivity|lia]. Qed.

Lemma reaches_trans (x y z : mstate) : reaches x y -> reaches y z -> reaches x z.
Proof.
  intros [a [Ha Pa]] [b [Hb Pb]]. exists (a ++ b).
  rewrite Ha, Hb, Pb, Pa, length_app, app_assoc. split; [reflexivity|lia].
Qed.

Lemma repeat_matcher_forward (m : cont -> cont) (k : cont) :
  forward m ->
  forall fuel min x z,
    repeat_matcher m k fuel min x = Some z ->
    exists y, reaches x y /\ k y = Some z.
Proof.
  intros Hm. induction fuel as [|fuel IH]; intros min x z H; [discriminate|].
  cbn -[Nat.eqb] in H.
  assert (Hd : forall d, d = (fun y => if (min =? 0) && (pos y =? pos x) then None
                       else repeat_matcher m k fuel (Nat.pred min) y) ->
               m d x = Some z -> exists y, reaches x y /\ k y = Some z).
  { intros d -> Hz. apply Hm in Hz as [y [Hxy Hy]].
    destruct ((min =? 0) && (pos y =? pos x)); [discriminate|].
    apply IH in Hy as [y' [Hyy' Hy']]. exists y'. eauto using reaches_trans. }
  destruct min as [|min].
  - destruct (m _ x) eqn:E.
    + injection H as <-. eapply Hd; [reflexivity|exact E].
    + exists x. split; [apply reaches_refl|exact H].
  - eapply Hd; [reflexivity|exact H].
Qed.

Lemma rmatch_forward (r : regex) : forward (rmatch r).
Proof.
  induction r as [p|r1 IH1 r2 IH2|min r IH|n r IH| |]; intros k x z H.
  - simpl in H. destruct (rest x) as [|c s] eqn:Es; [discriminate|].
    destruct (p c); [|discriminate].
    eexists; split; [|exact H]. exists [c]. simpl. split; [exact Es|lia].
  - simpl in H. apply IH1 in H as [y [Hxy H]]. apply IH2 in H as [y' [Hyy' H]].
    exists y'. eauto using reaches_trans.
  - eapply repeat_matcher_forward; [exact IH|exact H].
  - simpl in H. apply IH in H as [y [Hxy H]].
    eexists; split; [|exact H]. destruct Hxy as [a [Ha Pa]]. exists a. simpl. auto.
  - simpl in H. destruct (pos x =? 0); [|discriminate].
    exists x. split; [apply reaches_refl|exact H].
  - simpl in H. destruct (rest x); [|discriminate].
    exists x. split; [apply reaches_refl|exact H].
Qed.

Lemma rmatch_rep (min : nat) (r : regex) (k : cont) (x : mstate) :
  rmatch (Rep min r) k x
  = repeat_matcher (rmatch r) k (S (min + length (rest x))) min x.
Proof. reflexivity. Qed.

Lemma repeat_matcher_local (m : cont -> cont) :
  local m ->
  forall fuel min, local (fun k => repeat_matcher m k fuel min).
Proof.
  intros Hm. induction fuel as [|fuel IH]; intros min k1 k2 x Hk; [reflexivity|].
  cbn -[Nat.eqb].
  assert (Hd : m (fun y => if (min =? 0) && (pos y =? pos x) then None
                           else repeat_matcher m k1 fuel (Nat.pred min) y) x
               = m (fun y => if (min =? 0) && (pos y =? pos x) then None
                             else repeat_matcher m k2 fuel (Nat.pred min) y) x).
  { apply Hm. intros y Hy. destruct ((min =? 0) && (pos y =? pos x)); [reflexivity|].
    apply IH. intros z Hz. apply Hk. eauto using reaches_trans. }
  rewrite Hd. destruct min; [|reflexivity].
  now rewrite (Hk x (reaches_refl x)).
Qed.

Lemma rmatch_local (r : regex) : local (rmatch r).
Proof.
  induction r as [p|r1 IH1 r2 IH2|min r IH|n r IH| |]; intros k1 k2 x Hk.
  - simpl. destruct (rest x) as [|c s] eqn:Es; [reflexivity|].
    destruct (p c); [|reflexivity]. apply Hk. exists [c]. simpl. split; [exact Es|lia].
  - simpl. apply IH1. intros y Hy. apply IH2. intros z Hz. apply Hk.
    eauto using reaches_trans.
  - rewrite !rmatch_rep. now apply repeat_matcher_local.
  - simpl. apply IH. intros y [a [Ha Pa]]. apply Hk. exists a. simpl. auto.
  - simpl. destruct (pos x =? 0); [|reflexivity]. apply Hk, reaches_refl.
  - simpl. destruct (rest x); [|reflexivity]. apply Hk, reaches_refl.
Qed.

(** The fuel of the repeat matcher is enough: any amount above
    [min + length (rest x)] gives the same result, so no match is ever lost
    to it. *)
Lemma repeat_matcher_fuel (m : cont -> cont) (k : cont) :
  local m ->
  forall n f1 f2 min x,
    min + length (rest x) < n ->
    min + length (rest x) < f1 -> min + length (rest x) < f2 ->
    repeat_matcher m k f1 min x = repeat_matcher m k f2 min x.
Proof.
  intros Hm. induction n as [|n IH]; intros f1 f2 min x Hn H1 H2; [lia|].
  destruct f1 as [|f1]; [lia|]. destruct f2 as [|f2]; [lia|].
  cbn -[Nat.eqb].
  assert (Hd : m (fun y => if (min =? 0) && (pos y =? pos x) then None
                           else repeat_matcher m k f1 (Nat.pred min) y) x
               = m (fun y => if (min =? 0) && (pos y =? pos x) then None
                             else repeat_matcher m k f2 (Nat.pred min) y) x).
  { apply Hm. intros y [a [Ha Pa]].
    destruct ((min =? 0) && (pos y =? pos x)) eqn:E; [reflexivity|].
    assert (Hlen : Nat.pred min + length (rest y) < min + length (rest x)).
    { rewrite Ha, length_app. destruct min as [|min]; [|simpl; lia].
      simpl in E. apply Nat.eqb_neq in E. destruct a; simpl in *; lia. }
    apply IH; lia. }
  now rewrite Hd.
Qed.

Lemma rmatch_rep_fuel (r : regex) (k : cont) (min fuel : nat) (x : mstate) :
  min + length (rest x) < fuel ->
  repeat_matcher (rmatch r) k fuel min x = rmatch (Rep min r) k x.
Proof.
  intros H. rewrite rmatch_rep.
  apply (@repeat_matcher_fuel (rmatch r) k (rmatch_local r)
           (S (S (min + length (rest x))))); lia.
Qed.

Lemma match_at_reaches (r : regex) (i : nat) (s : jsstring) (y : mstate) :
  match_at r i s = Some y ->
  exists a, s = a ++ rest y /\ pos y = i + length a.
Proof.
  intros H. apply rmatch_forward in H as [y' [[a [Ha Pa]] Hy]].
  injection Hy as <-. exists a. simpl in *. auto.
Qed.

Lemma search_found (r : regex) (s : jsstring) :
  forall i start y,
    search r i s = Some (start, y) ->
    exists a b, s = a ++ b /\ start = i + length a /\ match_at r start b = Some y.
Proof.
  induction s as [|c s IH]; intros i start y H; simpl in H.
  - destruct (match_at r i []) eqn:E; [|discriminate].
    injection H as <- <-. exists [], []. simpl. repeat split; [lia|exact E].
  - destruct (match_at r i (c :: s)) eqn:E.
    + injection H as <- <-. exists [], (c :: s). simpl. repeat split; [lia|exact E].
    + apply IH in H as [a [b [Hs [Hi Hm]]]]. exists (c :: a), b.
      simpl. subst. repeat split; [lia|exact Hm].
Qed.

(** Where a search ends: the input left is no longer than the input
    searched, and shorter when the match is not empty. *)
Lemma search_rest (r : regex) (s : jsstring) (i start : nat) (y : mstate) :
  search r i s = Some (start, y) ->
  i <= start /\ length (rest y) <= length s /\
  (pos y <> start -> length (rest y) < length s).
Proof.
  intros H. apply search_found in H as [a [b [Hs [Hi Hm]]]].
  apply match_at_reaches in Hm as [a' [Hb Hp]]. subst s b.
  rewrite !length_app. repeat split; try lia.
Qed.

Lemma replace_loop_fuel (r : regex) (by_ : jsstring) :
  forall n s f1 f2 i,
    length s < n -> length s < f1 -> length s < f2 ->
    replace_loop f1 r by_ i s = replace_loop f2 r by_ i s.
Proof.
  induction n as [|n IH]; intros s f1 f2 i Hn H1 H2; [lia|].
  destruct f1 as [|f1]; [lia|]. destruct f2 as [|f2]; [lia|].
  cbn -[Nat.eqb]. destruct (search r i s) as [[start y]|] eqn:E; [|reflexivity].
  apply search_rest in E as [_ [Hle Hlt]]. do 2 f_equal.
  destruct (pos y =? start) eqn:Ee.
  - destruct (rest y) as [|c s'] eqn:Er; [reflexivity|]. f_equal.
    simpl in Hle. apply IH; lia.
  - apply Nat.eqb_neq in Ee. specialize (Hlt Ee). apply IH; lia.
Qed.

Lemma match_loop_fuel (r : regex) :
  forall n s f1 f2 i,
    length s < n -> length s < f1 -> length s < f2 ->
    match_loop f1 r i s = match_loop f2 r i s.
Proof.
  induction n as [|n IH]; intros s f1 f2 i Hn H1 H2; [lia|].
  destruct f1 as [|f1]; [lia|]. destruct f2 as [|f2]; [lia|].
  cbn -[Nat.eqb]. destruct (search r i s) as [[start y]|] eqn:E; [|reflexivity].
  apply search_rest in E as [_ [Hle Hlt]]. f_equal.
  destruct (pos y =? start) eqn:Ee.
  - destruct (rest y) as [|c s'] eqn:Er; [reflexivity|].
    simpl in Hle. apply IH; lia.
  - apply Nat.eqb_neq in Ee. specialize (Hlt Ee). apply IH; lia.
Qed.

(** ** [WORD_CORE_RE] *)

Lemma forallb_take_while (p : code_unit -> bool) (s : jsstring) :
  forallb p s = true -> take_while p s = s /\ drop_while p s = [].
Proof.
  induction s as [|c s IH]; simpl; [auto|].
  destruct (p c); simpl; [|discriminate]. intros H. destruct (IH H) as [-> ->]. auto.
Qed.

Lemma drop_while_nil_all (p : code_unit -> bool) (s : jsstring) :
  drop_while p s = [] -> forallb p s = true.
Proof.
  induction s as [|c s IH]; simpl; [auto|]. destruct (p c); simpl; [auto|discriminate].
Qed.

Lemma after_core_spec (x : mstate) :
  after_core x
  = if forallb cls_not_alnum (rest x)
    then Some (MState (pos x + length (rest x)) [] ((3, rest x) :: caps x))
    else None.
Proof.
  unfold after_core. cbn [rmatch]. fold (Star (Chr cls_not_alnum)).
  unfold Star. rewrite rmatch_rep_cls. rewrite greedy_cls_max.
  - simpl (0 <=? _). cbn [adv pos rest caps].
    rewrite skipn_take_while, Nat.add_comm, Nat.add_sub, firstn_take_while.
    destruct (forallb cls_not_alnum (rest x)) eqn:E.
    + apply forallb_take_while in E as [-> ->]. now rewrite Nat.add_comm.
    + destruct (drop_while cls_not_alnum (rest x)) eqn:Ed; [|reflexivity].
      apply drop_while_nil_all in Ed. congruence.
  - intros j Hj. cbn [adv pos rest caps].
    destruct (skipn j (rest x)) eqn:Es; [|reflexivity].
    apply (f_equal (@length _)) in Es. rewrite length_skipn in Es. simpl in Es.
    pose proof (f_equal (@length _) (take_drop cls_not_alnum (rest x))) as Hl.
    rewrite length_app in Hl. lia.
Qed.

Lemma rmatch_cat (r1 r2 : regex) (k : cont) (x : mstate) :
  rmatch (r1 ;; r2) k x = rmatch r1 (rmatch r2 k) x.
Proof. reflexivity. Qed.

Lemma rmatch_chr (p : code_unit -> bool) (k : cont) (x : mstate) :
  rmatch (Chr p) k x
  = match rest x with
    | c :: s => if p c then k (MState (S (pos x)) s (caps x)) else None
    | [] => None
    end.
Proof. reflexivity. Qed.

Lemma rmatch_cap (n : nat) (r : regex) (k : cont) (x : mstate) :
  rmatch (Cap n r) k x
  = rmatch r (fun y => k (MState (pos y) (rest y)
                            ((n, firstn (pos y - pos x) (rest x)) :: caps y))) x.
Proof. reflexivity. Qed.

Lemma apos_hyphen_not_alnum (c : code_unit) :
  cls_apos_hyphen c = true -> cls_alnum c = false.
Proof.
  unfold cls_apos_hyphen, is_unit. intros H.
  apply orb_true_iff in H as [H|H]; apply N.eqb_eq in H; subst; reflexivity.
Qed.

Lemma core_end_run (s : jsstring) :
  core_end s = length (take_while cls_alnum s) + core_end (drop_while cls_alnum s).
Proof.
  induction s as [|c s IH]; [reflexivity|].
  simpl. destruct (cls_alnum c) eqn:E; simpl; [now rewrite IH|now rewrite E].
Qed.

Lemma starts_with_skipn (p : code_unit -> bool) (s : jsstring) :
  forall j, j < length (take_while p s) -> starts_with p (skipn j s) = true.
Proof.
  induction s as [|c s IH]; intros j Hj; simpl in Hj; [lia|].
  destruct (p c) eqn:E; simpl in Hj; [|lia].
  destruct j; simpl; [exact E|apply IH; lia].
Qed.

Lemma starts_with_take_while (p : code_unit -> bool) (s : jsstring) :
  starts_with p s = true -> 1 <= length (take_while p s).
Proof. destruct s; simpl; [discriminate|]. intros ->. simpl. lia. Qed.

Lemma starts_with_false_take_while (p : code_unit -> bool) (s : jsstring) :
  starts_with p s = false -> take_while p s = [] /\ drop_while p s = s.
Proof. destruct s; simpl; [auto|]. intros ->. auto. Qed.

Lemma starts_with_exists (p : code_unit -> bool) (s : jsstring) :
  starts_with p s = true -> existsb p s = true.
Proof. destruct s; simpl; [discriminate|]. intros ->. reflexivity. Qed.

(** The groups after the first run: with such a continuation the repeat
    takes as many groups as there are, and no fewer. *)
Lemma star_join_group (k : cont) :
  needs_no_alnum k ->
  forall n x fuel,
    length (rest x) < n -> length (rest x) < fuel ->
    repeat_matcher (rmatch join_group) k fuel 0 x
    = if starts_with cls_alnum (rest x) then None
      else k (adv (core_end (rest x)) x).
Proof.
  intros Hk. induction n as [|n IH]; intros [i s cs] fuel Hn Hf; [lia|].
  simpl in Hn, Hf. destruct fuel as [|fuel]; [lia|].
  cbn -[Nat.eqb rmatch]. unfold join_group at 1.
  rewrite rmatch_cat, rmatch_chr. cbn [pos rest caps].
  destruct s as [|c s]; [now rewrite adv_0|].
  destruct (cls_apos_hyphen c) eqn:Eh.
  - unfold Plus. rewrite rmatch_rep_cls.
    cbn [pos rest caps core_end starts_with].
    rewrite (apos_hyphen_not_alnum c Eh), Eh. simpl in Hn, Hf.
    destruct (starts_with cls_alnum s) eqn:Es; cbn [andb].
    + assert (Hx : k (MState i (c :: s) cs) = None).
      { apply Hk. simpl. now rewrite (starts_with_exists _ _ Es), orb_true_r. }
      rewrite Hx. rewrite greedy_cls_max.
      * pose proof (starts_with_take_while _ _ Es) as H1.
        apply Nat.leb_le in H1. rewrite H1. cbn -[Nat.eqb].
        rewrite (proj2 (Nat.eqb_neq _ i)) by lia.
        rewrite IH; rewrite ?rest_adv; cbn [rest]; rewrite ?length_skipn; try lia.
        rewrite skipn_take_while, drop_while_start, adv_adv.
        rewrite (core_end_run s). unfold adv. cbn [pos rest caps skipn andb].
        rewrite Nat.add_succ_r. cbn [Nat.eqb andb Nat.add]. 
        match goal with |- match ?e with _ => _ end = _ => destruct e end; reflexivity.
      * intros j Hj. cbn -[Nat.eqb].
        rewrite (proj2 (Nat.eqb_neq _ i)) by lia.
        rewrite IH; rewrite ?rest_adv; cbn [rest]; rewrite ?length_skipn; try lia.
        rewrite starts_with_skipn by lia. reflexivity.
    + rewrite greedy_cls_short, adv_0; [reflexivity|].
      destruct (starts_with_false_take_while _ _ Es) as [-> _]. simpl. lia.
  - cbn [starts_with core_end]. rewrite Eh. cbn [andb].
    destruct (cls_alnum c) eqn:Ea.
    + apply Hk. simpl. now rewrite Ea.
    + now rewrite adv_0.
Qed.

Lemma exists_alnum_not_all (s : jsstring) :
  existsb cls_alnum s = true -> forallb cls_not_alnum s = false.
Proof.
  induction s as [|c s IH]; simpl; [discriminate|].
  unfold cls_not_alnum at 1. destruct (cls_alnum c); simpl; auto.
Qed.

Lemma core_end_le (s : jsstring) : core_end s <= length s.
Proof.
  induction s as [|c s IH]; simpl; [lia|].
  destruct (cls_alnum c); [lia|].
  destruct (cls_apos_hyphen c && starts_with cls_alnum s); lia.
Qed.

(** Group 2 and what follows it: the core is the greedy one, and the match
    succeeds exactly when nothing alphanumeric is left after it. *)
Lemma core_re_spec (x : mstate) :
  rmatch core_re after_core x
  = if starts_with cls_alnum (rest x)
       && forallb cls_not_alnum (skipn (core_end (rest x)) (rest x))
    then Some (MState (pos x + length (rest x)) []
                 ((3, skipn (core_end (rest x)) (rest x))
                  :: (2, firstn (core_end (rest x)) (rest x)) :: caps x))
    else None.
Proof.
  unfold core_re. rewrite rmatch_cap, rmatch_cat.
  set (K2 := fun y : mstate => after_core _).
  assert (HK2 : needs_no_alnum K2).
  { intros y Hy. unfold K2. rewrite after_core_spec. cbn [rest].
    now rewrite (exists_alnum_not_all _ Hy). }
  assert (Hstar : forall y, rmatch (Star join_group) K2 y
                   = if starts_with cls_alnum (rest y) then None
                     else K2 (adv (core_end (rest y)) y)).
  { intros y. unfold Star. rewrite rmatch_rep.
    apply (star_join_group HK2 (n := S (length (rest y)))); lia. }
  unfold Plus. rewrite rmatch_rep_cls.
  destruct (starts_with cls_alnum (rest x)) eqn:Es; cbn [andb].
  - rewrite greedy_cls_max.
    + pose proof (starts_with_take_while _ _ Es) as H1.
      apply Nat.leb_le in H1. rewrite H1.
      rewrite Hstar, rest_adv. cbn [rest].
      rewrite skipn_take_while, drop_while_start, adv_adv, <- core_end_run.
      unfold K2. rewrite after_core_spec. unfold adv. cbn [pos rest caps].
      rewrite length_skipn. pose proof (core_end_le (rest x)).
      replace (pos x + core_end (rest x) - pos x) with (core_end (rest x)) by lia.
      replace (pos x + core_end (rest x) + (length (rest x) - core_end (rest x)))
        with (pos x + length (rest x)) by lia.
      reflexivity.
    + intros j Hj. rewrite Hstar, rest_adv. cbn [rest].
      now rewrite starts_with_skipn by lia.
  - apply greedy_cls_short.
    destruct (starts_with_false_take_while _ _ Es) as [-> _]. simpl. lia.
Qed.

Lemma match_at_WORD_CORE_RE (token : jsstring) :
  match_at WORD_CORE_RE 0 token
  = option_map (fun lct => MState (length token) [] (word_caps lct))
      (split_direct token).
Proof.
  unfold match_at, WORD_CORE_RE. rewrite rmatch_cat. cbn [rmatch pos Nat.eqb].
  change (rmatch (Rep 0 (Chr cls_not_alnum))
            (fun y => rmatch core_re after_core
                        (MState (pos y) (rest y)
                           ((1, firstn (pos y - 0) token) :: caps y)))
            (MState 0 token [])
          = option_map (fun lct => MState (length token) [] (word_caps lct))
              (split_direct token)).
  rewrite rmatch_rep_cls. cbn [pos rest caps].
  rewrite greedy_cls_max.
  - cbn [Nat.leb]. rewrite core_re_spec. unfold adv, split_direct.
    cbn [pos rest caps Nat.add]. rewrite Nat.sub_0_r.
    rewrite !skipn_take_while, firstn_take_while.
    destruct (starts_with cls_alnum _ && _); [|reflexivity].
    cbn [option_map word_caps]. do 2 f_equal.
    rewrite <- (take_drop cls_not_alnum token) at 3. now rewrite length_app.
  - intros j Hj. rewrite core_re_spec. unfold adv. cbn [pos rest caps].
    pose proof (starts_with_skipn cls_not_alnum token (j := j) (proj2 Hj)) as Hs.
    destruct (skipn j token) as [|c s]; [discriminate|].
    simpl in Hs. unfold cls_not_alnum in Hs. apply negb_true_iff in Hs.
    cbn [starts_with]. now rewrite Hs.
Qed.

(** A pattern anchored by [^] matches at index 0 or nowhere. *)
Lemma search_bol (r : regex) (s : jsstring) :
  forall i, search (Bol ;; r) (S i) s = None.
Proof.
  induction s as [|c s IH]; intros i; simpl; [reflexivity|apply IH].
Qed.

Lemma exec_bol (r : regex) (s : jsstring) :
  exec (Bol ;; r) s = option_map caps (match_at (Bol ;; r) 0 s).
Proof.
  unfold exec. destruct s as [|c s]; cbn [search];
    destruct (match_at (Bol ;; r) 0 _); try reflexivity.
  now rewrite search_bol.
Qed.

(** The matcher on [WORD_CORE_RE] computes the direct reading. *)
Lemma exec_WORD_CORE_RE (token : jsstring) :
  exec WORD_CORE_RE token = option_map word_caps (split_direct token).
Proof.
  unfold WORD_CORE_RE at 1. rewrite exec_bol. fold WORD_CORE_RE.
  rewrite match_at_WORD_CORE_RE. now destruct (split_direct token).
Qed.

Lemma splitLeadingCoreTrailing_direct (token : jsstring) :
  splitLeadingCoreTrailing token
  = match split_direct token with
    | Some (l, c, t) => mkParts l c t
    | None => fallback token
    end.
Proof.
  unfold splitLeadingCoreTrailing. rewrite exec_WORD_CORE_RE.
  destruct (split_direct token) as [[[l c] t]|]; reflexivity.
Qed.

(** ** Cores *)

Lemma not_alnum_true (c : code_unit) :
  cls_not_alnum c = true <-> cls_alnum c = false.
Proof. unfold cls_not_alnum. apply negb_true_iff. Qed.

Lemma all_not_alnum_start (t : jsstring) :
  forallb cls_not_alnum t = true -> starts_with cls_alnum t = false.
Proof.
  destruct t as [|c t]; simpl; [reflexivity|].
  intros H. apply andb_true_iff in H as [H _]. now apply not_alnum_true.
Qed.

Lemma core_end_not_alnum (t : jsstring) :
  forallb cls_not_alnum t = true -> core_end t = 0.
Proof.
  destruct t as [|c t]; simpl; [reflexivity|].
  intros H. apply andb_true_iff in H as [Hc Ht].
  apply not_alnum_true in Hc. rewrite Hc, (all_not_alnum_start _ Ht).
  now rewrite andb_false_r.
Qed.

Lemma core_end_app_run (a t : jsstring) :
  forallb cls_alnum a = true -> core_end (a ++ t) = length a + core_end t.
Proof.
  induction a as [|c a IH]; simpl; [reflexivity|].
  intros H. apply andb_true_iff in H as [-> Ha]. now rewrite IH.
Qed.

Lemma run_starts (p : code_unit -> bool) (a t : jsstring) :
  a <> [] -> forallb p a = true -> starts_with p (a ++ t) = true.
Proof.
  destruct a as [|c a]; [congruence|]. simpl.
  intros _ H. now apply andb_true_iff in H as [-> _].
Qed.

Lemma starts_with_app (p : code_unit -> bool) (w t : jsstring) :
  starts_with p w = true -> starts_with p (w ++ t) = true.
Proof. destruct w; simpl; [discriminate|auto]. Qed.

Lemma core_form_start (w : jsstring) :
  core_form w -> starts_with cls_alnum w = true.
Proof.
  induction 1 as [a Hn Ha|w j a _ IH _ _ _].
  - rewrite <- (app_nil_r a). now apply run_starts.
  - now apply starts_with_app.
Qed.

Lemma core_form_end (w : jsstring) :
  core_form w ->
  forall t, starts_with cls_alnum t = false ->
            core_end (w ++ t) = length w + core_end t.
Proof.
  induction 1 as [a Hn Ha|w j a _ IH Hj Hn Ha]; intros t Ht.
  - now apply core_end_app_run.
  - rewrite <- app_assoc, IH by (simpl; now apply apos_hyphen_not_alnum).
    cbn [app core_end]. rewrite (apos_hyphen_not_alnum j Hj), Hj.
    rewrite (run_starts _ t Hn Ha). cbn [andb].
    rewrite core_end_app_run by exact Ha.
    rewrite length_app. simpl. lia.
Qed.

Lemma run_last (p : code_unit -> bool) (a : jsstring) :
  a <> [] -> forallb p a = true ->
  exists a' c, a = a' ++ [c] /\ p c = true.
Proof.
  intros Hn Ha. destruct (exists_last Hn) as [a' [c ->]].
  rewrite forallb_app in Ha. apply andb_true_iff in Ha as [_ Hc].
  simpl in Hc. rewrite andb_true_r in Hc. eauto.
Qed.

Lemma core_form_last (w : jsstring) :
  core_form w -> exists w' c, w = w' ++ [c] /\ cls_alnum c = true.
Proof.
  destruct 1 as [a Hn Ha|w j a _ _ Hn Ha].
  - now apply run_last.
  - destruct (run_last _ Hn Ha) as [a' [c [-> Hc]]].
    exists (w ++ j :: a'), c. now rewrite <- app_assoc.
Qed.

Lemma core_form_cons (c : code_unit) (w : jsstring) :
  cls_alnum c = true -> core_form w -> core_form (c :: w).
Proof.
  intros Hc. induction 1 as [a Hn Ha|w j a _ IH Hj Hn Ha].
  - apply core_run; [discriminate|]. simpl. now rewrite Hc.
  - change (core_form ((c :: w) ++ j :: a)). now apply core_group.
Qed.

Lemma core_form_join (c j : code_unit) (w : jsstring) :
  cls_alnum c = true -> cls_apos_hyphen j = true ->
  core_form w -> core_form (c :: j :: w).
Proof.
  intros Hc Hj. induction 1 as [a Hn Ha|w j' a _ IH Hj' Hn Ha].
  - change (core_form ([c] ++ j :: a)). apply core_group; auto.
    apply core_run; [discriminate|]. simpl. now rewrite Hc.
  - change (core_form ((c :: j :: w) ++ j' :: a)). now apply core_group.
Qed.

Lemma core_single (c : code_unit) : cls_alnum c = true -> core_form [c].
Proof. intros Hc. apply core_run; [discriminate|]. simpl. now rewrite Hc. Qed.

(** The prefix [core_end] measures is a core. *)
Lemma core_end_form :
  forall n r, length r < n -> starts_with cls_alnum r = true ->
              core_form (firstn (core_end r) r).
Proof.
  induction n as [|n IH]; intros r Hn Hs; [lia|].
  destruct r as [|c r]; [discriminate|]. simpl in Hs, Hn.
  cbn [core_end]. rewrite Hs. cbn [firstn].
  destruct r as [|c' r]; [now apply core_single|].
  destruct (cls_alnum c') eqn:Ec'.
  - apply core_form_cons; [exact Hs|]. apply IH; [simpl in *; lia|exact Ec'].
  - cbn [core_end]. rewrite Ec'.
    destruct (cls_apos_hyphen c') eqn:Eh; cbn [andb]; [|now apply core_single].
    destruct (starts_with cls_alnum r) eqn:Er; [|now apply core_single].
    cbn [firstn]. apply core_form_join; auto. apply IH; [simpl in *; lia|exact Er].
Qed.

Lemma take_while_app (p : code_unit -> bool) (u v : jsstring) :
  forallb p u = true -> starts_with p v = false ->
  take_while p (u ++ v) = u /\ drop_while p (u ++ v) = v.
Proof.
  induction u as [|c u IH]; simpl; intros Hu Hv.
  - now apply starts_with_false_take_while.
  - apply andb_true_iff in Hu as [-> Hu]. destruct (IH Hu Hv) as [-> ->]. auto.
Qed.

Lemma split_direct_shape (token l c t : jsstring) :
  split_direct token = Some (l, c, t) ->
  token = l ++ c ++ t /\ l = take_while cls_not_alnum token /\
  forallb cls_not_alnum l = true /\ core_form c /\
  forallb cls_not_alnum t = true.
Proof.
  unfold split_direct.
  destruct (starts_with cls_alnum (drop_while cls_not_alnum token)) eqn:Es;
    [|discriminate].
  destruct (forallb cls_not_alnum _) eqn:Et; [|discriminate].
  cbn [andb]. intros H. injection H as <- <- <-.
  rewrite firstn_skipn, take_drop. repeat split; auto.
  - apply take_while_all.
  - apply (core_end_form (n := S (length (drop_while cls_not_alnum token))));
      [lia|exact Es].
Qed.

Lemma shape_split_direct (l c t : jsstring) :
  forallb cls_not_alnum l = true -> core_form c ->
  forallb cls_not_alnum t = true ->
  split_direct (l ++ c ++ t) = Some (l, c, t).
Proof.
  intros Hl Hc Ht. unfold split_direct.
  pose proof (core_form_start Hc) as Hs.
  assert (Hs' : starts_with cls_not_alnum (c ++ t) = false).
  { destruct c as [|c0 c]; [discriminate|]. simpl in *.
    unfold cls_not_alnum. now rewrite Hs. }
  destruct (@take_while_app _ l (c ++ t) Hl Hs') as [-> ->].
  rewrite (core_form_end Hc) by now apply all_not_alnum_start.
  rewrite (@core_end_not_alnum t Ht), Nat.add_0_r.
  rewrite (@starts_with_app _ c t Hs), skipn_app, firstn_app.
  rewrite skipn_all, firstn_all, Nat.sub_diag. simpl.
  now rewrite Ht, app_nil_r.
Qed.

Lemma word_shape_iff (token : jsstring) :
  word_shape token <-> split_direct token <> None.
Proof.
  split.
  - intros [l [c [t [-> [Hl [Hc Ht]]]]]]. now rewrite shape_split_direct.
  - destruct (split_direct token) as [[[l c] t]|] eqn:E; [|congruence].
    intros _. apply split_direct_shape in E as [-> [_ [Hl [Hc Ht]]]].
    now exists l, c, t.
Qed.

(** ** The ORP calculator *)

Lemma calculateOrpCore_band (core : jsstring) :
  calculateOrpCore core = orp_band (length (trim core)).
Proof.
  unfold calculateOrpCore. destruct (trim core) as [|c s]; [reflexivity|].
  generalize (length (c :: s)) (Nat.lt_0_succ (length s)). simpl length.
  intros L HL.
  do 14 (destruct L as [|L]; [try lia; reflexivity|]).
  cbn [orp_band].
  repeat match goal with
         | |- context [(?a <=? ?b)%Z] => destruct (Z.leb_spec a b); [lia|]
         end.
  reflexivity.
Qed.

Lemma orp_band_mono (L1 L2 : nat) :
  L1 <= L2 -> (orp_band L1 <= orp_band L2)%Z.
Proof.
  intros H. revert L2 H.
  do 14 (destruct L1 as [|L1];
         [intros L2 H; do 14 (destruct L2 as [|L2]; [try lia; simpl; lia|]);
          simpl; lia|]).
  intros L2 H. do 14 (destruct L2 as [|L2]; [lia|]). simpl. lia.
Qed.

Lemma orp_band_range (L : nat) : (0 <= orp_band L <= 4)%Z.
Proof. do 14 (destruct L as [|L]; [simpl; lia|]). simpl. lia. Qed.

Lemma orp_band_below (L : nat) : 1 <= L -> (orp_band L < Z.of_nat L)%Z.
Proof.
  intros H. do 14 (destruct L as [|L]; [try lia; simpl; lia|]).
  cbn [orp_band]. lia.
Qed.

Lemma drop_while_length (p : code_unit -> bool) (s : jsstring) :
  length (drop_while p s) <= length s.
Proof. induction s as [|c s IH]; simpl; [lia|]. destruct (p c); simpl; lia. Qed.

Lemma trim_length (s : jsstring) : length (trim s) <= length s.
Proof.
  unfold trim. rewrite length_rev.
  etransitivity; [apply drop_while_length|]. rewrite length_rev.
  apply drop_while_length.
Qed.

(** C2: [calculateOrpCore] depends on the core through the length of the
    trimmed core only and follows the band table: 0 for lengths 0 and 1, 1 for
    2..5, 2 for 6..9, 3 for 10..13, 4 from 14 on; it takes these values at the
    boundary lengths 1, 2, 5, 6, 9, 10, 13 and 14, never decreases when the
    length grows, and never exceeds 4. *)
Theorem calculateOrpCore_table :
  (forall core, calculateOrpCore core = orp_band (length (trim core))) /\
  map (fun n => calculateOrpCore (repeat 97%N n)) [0; 1; 2; 5; 6; 9; 10; 13; 14]
  = [0; 0; 1; 1; 2; 2; 3; 3; 4]%Z /\
  (forall core, 14 <= length (trim core) -> calculateOrpCore core = 4%Z) /\
  (forall c1 c2, length (trim c1) <= length (trim c2) ->
                 (calculateOrpCore c1 <= calculateOrpCore c2)%Z) /\
  (forall core, (0 <= calculateOrpCore core <= 4)%Z).
Proof.
  split; [exact calculateOrpCore_band|].
  split; [reflexivity|].
  split; [|split].
  - intros core H. rewrite calculateOrpCore_band.
    generalize dependent (length (trim core)). intros L H.
    do 14 (destruct L as [|L]; [lia|]). reflexivity.
  - intros c1 c2 H. rewrite !calculateOrpCore_band. now apply orp_band_mono.
  - intros core. rewrite calculateOrpCore_band. apply orp_band_range.
Qed.

Lemma calculateOrpCore_table_witness :
  14 <= length (trim (js "extraordinarily"))
  /\ calculateOrpCore (js "extraordinarily") = 4%Z.
Proof.
  split; [vm_compute; lia|].
  apply (proj1 (proj2 (proj2 calculateOrpCore_table))). vm_compute. lia.
Defined.

(** ** The decomposer *)

Lemma parts_concat (token : jsstring) :
  leading (splitLeadingCoreTrailing token)
  ++ core (splitLeadingCoreTrailing token)
  ++ trailing (splitLeadingCoreTrailing token) = token.
Proof.
  rewrite splitLeadingCoreTrailing_direct.
  destruct (split_direct token) as [[[l c] t]|] eqn:E.
  - apply split_direct_shape in E as [-> _]. reflexivity.
  - simpl. apply app_nil_r.
Qed.

(** C3: the decomposer is total and lossless: for every token the leading,
    core and trailing parts it returns concatenate to the token itself. *)
Theorem decomposition_lossless (token : jsstring) :
  leading (splitLeadingCoreTrailing token)
  ++ core (splitLeadingCoreTrailing token)
  ++ trailing (splitLeadingCoreTrailing token) = token.
Proof. exact (parts_concat token). Qed.

Lemma forallb_rev (p : code_unit -> bool) (s : jsstring) :
  forallb p (rev s) = forallb p s.
Proof.
  induction s as [|c s IH]; [reflexivity|].
  simpl. rewrite forallb_app, IH. simpl. rewrite andb_true_r. apply andb_comm.
Qed.

Lemma shape_trailing (l c t : jsstring) :
  core_form c -> forallb cls_not_alnum t = true ->
  take_while_end cls_not_alnum (l ++ c ++ t) = t.
Proof.
  intros Hc Ht. destruct (core_form_last Hc) as [c' [a [-> Ha]]].
  unfold take_while_end.
  rewrite !rev_app_distr. simpl. rewrite <- !app_assoc.
  destruct (@take_while_app cls_not_alnum (rev t)
              ((a :: rev c') ++ rev l)) as [-> _].
  - now rewrite forallb_rev.
  - simpl. unfold cls_not_alnum. now rewrite Ha.
  - apply rev_involutive.
Qed.

Lemma no_alnum_no_shape (token : jsstring) :
  existsb cls_alnum token = false -> ~ word_shape token.
Proof.
  intros H [l [c [t [-> [_ [Hc _]]]]]].
  apply core_form_start in Hc. destruct c as [|c0 c]; [discriminate|].
  rewrite existsb_app in H. simpl in *. rewrite Hc in H.
  now rewrite orb_true_r in H.
Qed.

(** C4, amended: for every token of the shape the pattern matches
    (non-alphanumerics, a core, non-alphanumerics) the decomposer returns
    the longest run of non-alphanumerics at the start as leading and the
    longest such run at the end as trailing, around a core; every other
    token takes the fallback with the whole token as core, and among those
    are all the tokens without an alphanumeric. *)
Theorem decomposer_shape (token : jsstring) :
  (word_shape token ->
     exec WORD_CORE_RE token <> None /\
     leading (splitLeadingCoreTrailing token) = take_while cls_not_alnum token /\
     trailing (splitLeadingCoreTrailing token)
     = take_while_end cls_not_alnum token /\
     core_form (core (splitLeadingCoreTrailing token))) /\
  (~ word_shape token ->
     exec WORD_CORE_RE token = None /\
     splitLeadingCoreTrailing token = fallback token) /\
  (existsb cls_alnum token = false -> ~ word_shape token).
Proof.
  rewrite splitLeadingCoreTrailing_direct, exec_WORD_CORE_RE.
  split; [|split].
  - intros Hw. apply word_shape_iff in Hw.
    destruct (split_direct token) as [[[l c] t]|] eqn:E; [|congruence].
    apply split_direct_shape in E as [Htok [Hl [_ [Hc Ht]]]]. simpl.
    repeat split; auto; [discriminate|].
    rewrite Htok. symmetry. now apply shape_trailing.
  - intros Hw. destruct (split_direct token) eqn:E; [|auto].
    exfalso. apply Hw, word_shape_iff. congruence.
  - apply no_alnum_no_shape.
Qed.

Lemma decomposer_shape_witness :
  word_shape (js "(hello)") /\
  leading (splitLeadingCoreTrailing (js "(hello)")) = js "(" /\
  trailing (splitLeadingCoreTrailing (js "(hello)")) = js ")".
Proof.
  assert (H : word_shape (js "(hello)")).
  { apply word_shape_iff. vm_compute. discriminate. }
  split; [exact H|].
  destruct (proj1 (decomposer_shape (js "(hello)")) H) as [_ [Hl [Ht _]]].
  rewrite Hl, Ht. split; reflexivity.
Defined.

(** C4 as stated fails: the token "(a--b)" holds alphanumerics, yet the
    pattern does not match it, and the fallback leaves its leading and
    trailing parts empty although the token starts with "(" and ends
    with ")". *)
Lemma decomposer_fallback_with_alnum :
  ~ (forall token, existsb cls_alnum token = true ->
       leading (splitLeadingCoreTrailing token) = take_while cls_not_alnum token /\
       trailing (splitLeadingCoreTrailing token)
       = take_while_end cls_not_alnum token) /\
  ~ (forall token, exec WORD_CORE_RE token = None ->
       existsb cls_alnum token = false).
Proof.
  split; intros H.
  - destruct (H (js "(a--b)") eq_refl) as [Hl _]. vm_compute in Hl. discriminate.
  - specialize (H (js "(a--b)") eq_refl). vm_compute in H. discriminate.
Qed.

(** The two tokens the specification works out: "(hello)" and "---". *)
Example hello_in_parentheses :
  splitLeadingCoreTrailing (js "(hello)") = mkParts (js "(") (js "hello") (js ")") /\
  calculateOrpCore (js "hello") = 1%Z /\
  processToken (js "(hello)") = mkWordData (js "(hello)") 2.
Proof. repeat split; reflexivity. Qed.

Example punctuation_only :
  splitLeadingCoreTrailing (js "---") = fallback (js "---") /\
  processToken (js "---") = mkWordData (js "---") 1.
Proof. split; reflexivity. Qed.

Lemma core_form_whole (token : jsstring) :
  core_form token -> split_direct token = Some ([], token, []).
Proof.
  intros H. rewrite <- (app_nil_r token) at 1.
  now apply (@shape_split_direct [] token []).
Qed.

(** C5: a token made of a run of alphanumerics extended by groups of an
    apostrophe or hyphen and a run of alphanumerics is returned whole as the
    core, with empty leading and trailing; "don't stop" gives two words,
    "don't" and "stop". *)
Theorem joined_core_stays_whole :
  (forall token, core_form token ->
     splitLeadingCoreTrailing token = mkParts [] token []) /\
  map word (buildWordUnits (js "don't stop")) = [js "don't"; js "stop"].
Proof.
  split; [|reflexivity].
  intros token H. rewrite splitLeadingCoreTrailing_direct.
  now rewrite (core_form_whole H).
Qed.

Lemma joined_core_stays_whole_witness :
  core_form (js "O'Brien-ish") /\
  splitLeadingCoreTrailing (js "O'Brien-ish") = mkParts [] (js "O'Brien-ish") [].
Proof.
  assert (H : core_form (js "O'Brien-ish")).
  { change (core_form ((js "O" ++ 39%N :: js "Brien") ++ 45%N :: js "ish")).
    repeat (apply core_group || apply core_run);
      solve [reflexivity | discriminate]. }
  split; [exact H|]. exact (proj1 joined_core_stays_whole _ H).
Defined.

(** ** Character classes *)

Lemma cls_alnum_spec (c : code_unit) :
  cls_alnum c = true
  <-> (65 <= c <= 90 \/ 97 <= c <= 122 \/ 48 <= c <= 57)%N.
Proof.
  unfold cls_alnum, in_range.
  rewrite !orb_true_iff, !andb_true_iff, !N.leb_le. tauto.
Qed.

Lemma cls_space_spec (c : code_unit) :
  cls_space c = true
  <-> (9 <= c <= 13 \/ c = 32 \/ c = 160 \/ c = 5760 \/ 8192 <= c <= 8202
       \/ c = 8232 \/ c = 8233 \/ c = 8239 \/ c = 8287 \/ c = 12288
       \/ c = 65279)%N.
Proof.
  unfold cls_space, in_range, is_unit.
  rewrite !orb_true_iff, !andb_true_iff, !N.leb_le, !N.eqb_eq. tauto.
Qed.

Lemma alnum_not_space (c : code_unit) :
  cls_alnum c = true -> cls_space c = false.
Proof.
  intros H. apply cls_alnum_spec in H. apply not_true_is_false. intros Hs.
  apply cls_space_spec in Hs. lia.
Qed.

Lemma non_ascii_not_alnum (c : code_unit) :
  (128 <= c)%N -> cls_not_alnum c = true.
Proof.
  intros H. apply not_alnum_true, not_true_is_false. intros Ha.
  apply cls_alnum_spec in Ha. lia.
Qed.

Lemma trim_id (s : jsstring) :
  starts_with cls_space s = false -> starts_with cls_space (rev s) = false ->
  trim s = s.
Proof.
  intros H1 H2. unfold trim.
  destruct (starts_with_false_take_while _ _ H1) as [_ ->].
  destruct (starts_with_false_take_while _ _ H2) as [_ ->].
  apply rev_involutive.
Qed.

Lemma core_form_trim (c : jsstring) : core_form c -> trim c = c.
Proof.
  intros H. apply trim_id.
  - apply core_form_start in H. destruct c as [|c0 c]; [reflexivity|].
    simpl in *. now apply alnum_not_space.
  - apply core_form_last in H as [c' [a [-> Ha]]].
    rewrite rev_app_distr. simpl. now apply alnum_not_space.
Qed.

Lemma core_form_chars (c : jsstring) :
  core_form c ->
  forallb (fun u => cls_alnum u || cls_apos_hyphen u) c = true.
Proof.
  assert (Hrun : forall a, forallb cls_alnum a = true ->
                   forallb (fun u => cls_alnum u || cls_apos_hyphen u) a = true).
  { induction a as [|u a IH]; simpl; [reflexivity|].
    intros H. apply andb_true_iff in H as [-> H]. simpl. auto. }
  induction 1 as [a _ Ha|w j a _ IH Hj _ Ha]; [auto|].
  rewrite forallb_app, IH. simpl. rewrite Hj, orb_true_r. simpl. auto.
Qed.

(** C10, amended: the alphanumerics of the decomposer are exactly the ASCII
    letters and digits, so every other code unit, the non-ASCII letters among
    them, counts as punctuation.  When the pattern matches, the core holds
    ASCII alphanumerics, apostrophes and hyphens only, every other code unit
    of the token lies in the leading or trailing part, and the ORP offset is
    the band of the length of that ASCII core; otherwise the whole token is
    the core, and the ORP offset is the band of the length of the whole
    (trimmed) token, its non-ASCII code units counted.  "café" gives the core
    "caf" and the trailing "é", with ORP index 1; "naïve" takes the
    fallback; "naïveté", seven code units, takes it with ORP index 2. *)
Theorem alnum_is_ascii :
  (forall c, cls_alnum c = true
             <-> (65 <= c <= 90 \/ 97 <= c <= 122 \/ 48 <= c <= 57)%N) /\
  (forall c, (128 <= c)%N -> cls_not_alnum c = true) /\
  (forall token,
     match exec WORD_CORE_RE token with
     | Some _ =>
         forallb (fun u => cls_alnum u || cls_apos_hyphen u)
           (core (splitLeadingCoreTrailing token)) = true /\
         forallb cls_not_alnum (leading (splitLeadingCoreTrailing token)) = true /\
         forallb cls_not_alnum (trailing (splitLeadingCoreTrailing token)) = true /\
         calculateOrpCore (core (splitLeadingCoreTrailing token))
         = orp_band (length (core (splitLeadingCoreTrailing token)))
     | None =>
         splitLeadingCoreTrailing token = fallback token /\
         calculateOrpCore (core (splitLeadingCoreTrailing token))
         = orp_band (length (trim token))
     end) /\
  splitLeadingCoreTrailing (js "caf" ++ [233%N])
  = mkParts [] (js "caf") [233%N] /\
  processToken (js "caf" ++ [233%N]) = mkWordData (js "caf" ++ [233%N]) 1 /\
  splitLeadingCoreTrailing (js "na" ++ 239%N :: js "ve")
  = fallback (js "na" ++ 239%N :: js "ve") /\
  splitLeadingCoreTrailing (js "na" ++ 239%N :: js "vet" ++ [233%N])
  = fallback (js "na" ++ 239%N :: js "vet" ++ [233%N]) /\
  processToken (js "na" ++ 239%N :: js "vet" ++ [233%N])
  = mkWordData (js "na" ++ 239%N :: js "vet" ++ [233%N]) 2.
Proof.
  split; [exact cls_alnum_spec|].
  split; [exact non_ascii_not_alnum|].
  split; [|repeat split; reflexivity].
  intros token. rewrite splitLeadingCoreTrailing_direct, exec_WORD_CORE_RE.
  destruct (split_direct token) as [[[l c] t]|] eqn:E;
    [|split; [reflexivity|apply calculateOrpCore_band]].
  apply split_direct_shape in E as [_ [_ [Hl [Hc Ht]]]]. simpl.
  repeat split; auto using core_form_chars.
  now rewrite calculateOrpCore_band, core_form_trim.
Qed.

(** C10 as stated fails: under the fallback the core is the whole token, so
    it is not ASCII only, and the ORP offset is taken from the length of the
    whole token.  "naïveté" has seven code units, five of them ASCII: its ORP
    offset is 2, the band of seven, not 1, the band of five, and the code
    unit at index 2 is the "ï". *)
Lemma fallback_counts_non_ascii :
  ~ (forall token,
       forallb cls_not_space token = true ->
       forallb cls_ascii (core (splitLeadingCoreTrailing token)) = true) /\
  ~ (forall token,
       forallb cls_not_space token = true ->
       calculateOrpCore (core (splitLeadingCoreTrailing token))
       = orp_band
           (length (filter cls_ascii (core (splitLeadingCoreTrailing token))))) /\
  orpIndex (processToken (js "na" ++ 239%N :: js "vet" ++ [233%N])) = 2%Z /\
  nth_error (word (processToken (js "na" ++ 239%N :: js "vet" ++ [233%N]))) 2
  = Some 239%N.
Proof.
  split; [|split; [|split; reflexivity]]; intros H;
    specialize (H (js "na" ++ 239%N :: js "vet" ++ [233%N]) eq_refl);
    vm_compute in H; discriminate.
Qed.

(** ** The assembler *)

Lemma processToken_ok (raw : jsstring) : wordunit_ok (processToken raw).
Proof.
  unfold wordunit_ok, processToken. cbn [word orpIndex].
  destruct (leading _ ++ core _ ++ trailing _) as [|c s]; [reflexivity|].
  unfold len. simpl length. lia.
Qed.

(** C1: every [WordData] the pipeline produces keeps the bounds: an empty
    word has ORP index 0, and a non-empty word has an ORP index between 0
    and its length minus one. *)
Theorem pipeline_bounds (text : jsstring) :
  Forall wordunit_ok (buildWordUnits text).
Proof.
  unfold buildWordUnits, processTokens. apply Forall_forall.
  intros w Hw. apply in_map_iff in Hw as [raw [<- _]]. apply processToken_ok.
Qed.

Lemma calculateOrpCore_below (core : jsstring) :
  core <> [] -> (calculateOrpCore core < len core)%Z.
Proof.
  intros H. rewrite calculateOrpCore_band. unfold len.
  pose proof (trim_length core) as Ht.
  destruct core as [|c s]; [congruence|].
  apply Z.le_lt_trans with (orp_band (length (c :: s))).
  - now apply orp_band_mono.
  - apply orp_band_below. simpl. lia.
Qed.

Lemma core_not_empty (raw : jsstring) :
  raw <> [] -> core (splitLeadingCoreTrailing raw) <> [].
Proof.
  intros H. rewrite splitLeadingCoreTrailing_direct.
  destruct (split_direct raw) as [[[l c] t]|] eqn:E; [|exact H].
  apply split_direct_shape in E as [_ [_ [_ [Hc _]]]]. simpl.
  apply core_form_start in Hc. now destruct c.
Qed.

Lemma calculateOrpCore_nonneg (core : jsstring) : (0 <= calculateOrpCore core)%Z.
Proof. rewrite calculateOrpCore_band. apply orp_band_range. Qed.

Lemma raw_offset_in_bounds (raw : jsstring) :
  raw <> [] ->
  (0 <= len (leading (splitLeadingCoreTrailing raw))
        + calculateOrpCore (core (splitLeadingCoreTrailing raw))
     <= len (leading (splitLeadingCoreTrailing raw)
             ++ core (splitLeadingCoreTrailing raw)
             ++ trailing (splitLeadingCoreTrailing raw)) - 1)%Z.
Proof.
  intros H. pose proof (calculateOrpCore_below (core_not_empty H)) as Hb.
  pose proof (calculateOrpCore_nonneg (core (splitLeadingCoreTrailing raw))).
  unfold len in *. rewrite !length_app. lia.
Qed.

Lemma processToken_unclamped_eq (raw : jsstring) :
  processToken raw = processToken_unclamped raw.
Proof.
  destruct raw as [|c s].
  - reflexivity.
  - unfold processToken, processToken_unclamped.
    assert (Hne : c :: s <> []) by discriminate.
    pose proof (raw_offset_in_bounds Hne) as Hb.
    rewrite parts_concat in *. f_equal. lia.
Qed.

(** C9: the clamp of the assembler never changes anything.  The ORP offset
    of a non-empty core is below the length of the core, so for a non-empty
    token the raw offset is already between 0 and the length of the display
    minus one, and [processTokens] equals its variant without the clamp and
    without the branch for the empty display, on every list of tokens and so
    on the tokens of every text. *)
Theorem clamp_is_identity :
  (forall core, core <> [] -> (calculateOrpCore core < len core)%Z) /\
  (forall raw, raw <> [] ->
     (0 <= len (leading (splitLeadingCoreTrailing raw))
           + calculateOrpCore (core (splitLeadingCoreTrailing raw))
        <= len (leading (splitLeadingCoreTrailing raw)
                ++ core (splitLeadingCoreTrailing raw)
                ++ trailing (splitLeadingCoreTrailing raw)) - 1)%Z) /\
  (forall tokens, processTokens tokens = processTokens_unclamped tokens) /\
  (forall text,
     buildWordUnits text
     = processTokens_unclamped (tokensFromText (normalizeForWords text))).
Proof.
  assert (H : forall tokens, processTokens tokens = processTokens_unclamped tokens).
  { intros tokens. apply map_ext. exact processToken_unclamped_eq. }
  repeat split.
  - exact calculateOrpCore_below.
  - now apply raw_offset_in_bounds.
  - now apply raw_offset_in_bounds.
  - exact H.
  - intros text. apply H.
Qed.

Lemma clamp_is_identity_witness :
  js "(hello)" <> [] /\
  (0 <= len (leading (splitLeadingCoreTrailing (js "(hello)")))
        + calculateOrpCore (core (splitLeadingCoreTrailing (js "(hello)")))
     <= len (leading (splitLeadingCoreTrailing (js "(hello)"))
             ++ core (splitLeadingCoreTrailing (js "(hello)"))
             ++ trailing (splitLeadingCoreTrailing (js "(hello)"))) - 1)%Z.
Proof.
  assert (H : js "(hello)" <> []) by discriminate.
  split; [exact H|]. exact (proj1 (proj2 clamp_is_identity) _ H).
Defined.

(** ** Global replacement and global match, step by step *)

Lemma search_here (r : regex) (i : nat) (s : jsstring) (y : mstate) :
  match_at r i s = Some y -> search r i s = Some (i, y).
Proof. intros H. destruct s; simpl; now rewrite H. Qed.

Lemma replace_loop_nil (r : regex) (by_ : jsstring) (f i : nat) :
  match_at r i [] = None -> replace_loop f r by_ i [] = [].
Proof. intros H. destruct f; simpl; [reflexivity|now rewrite H]. Qed.

Lemma replace_loop_skip (r : regex) (by_ : jsstring) (f i : nat)
    (c : code_unit) (s : jsstring) :
  match_at r i (c :: s) = None ->
  replace_loop f r by_ i (c :: s) = c :: replace_loop f r by_ (S i) s.
Proof.
  intros H. destruct f as [|f]; [reflexivity|].
  cbn -[Nat.eqb Nat.sub]. rewrite H.
  destruct (search r (S i) s) as [[start y]|] eqn:E; [|reflexivity].
  apply search_rest in E as [Hi _].
  replace (start - i) with (S (start - S i)) by lia. reflexivity.
Qed.

Lemma replace_loop_hit (r : regex) (by_ : jsstring) (f i : nat)
    (s : jsstring) (y : mstate) :
  length s < f -> match_at r i s = Some y -> pos y <> i ->
  replace_loop f r by_ i s = by_ ++ replace_loop f r by_ (pos y) (rest y).
Proof.
  intros Hf H Hne. destruct f as [|f]; [lia|].
  pose proof (search_here _ _ _ H) as Hs.
  cbn -[Nat.eqb Nat.sub replace_loop].
  change (replace_loop (S f) r by_ i s)
    with (match search r i s with
          | None => s
          | Some (start, y) =>
              firstn (start - i) s ++ by_ ++
              (if pos y =? start then
                 match rest y with
                 | [] => []
                 | c :: s' => c :: replace_loop f r by_ (S (pos y)) s'
                 end
               else replace_loop f r by_ (pos y) (rest y))
          end).
  rewrite Hs, Nat.sub_diag, (proj2 (Nat.eqb_neq _ _) Hne). cbn [firstn app].
  f_equal. apply search_rest in Hs as [_ [_ Hlt]]. specialize (Hlt Hne).
  apply (replace_loop_fuel r by_ (n := S (length (rest y)))); lia.
Qed.

Lemma match_loop_nil (r : regex) (f i : nat) :
  match_at r i [] = None -> match_loop f r i [] = [].
Proof. intros H. destruct f; simpl; [reflexivity|now rewrite H]. Qed.

Lemma match_loop_skip (r : regex) (f i : nat) (c : code_unit) (s : jsstring) :
  match_at r i (c :: s) = None ->
  match_loop f r i (c :: s) = match_loop f r (S i) s.
Proof.
  intros H. destruct f as [|f]; [reflexivity|].
  cbn -[Nat.eqb Nat.sub]. rewrite H.
  destruct (search r (S i) s) as [[start y]|] eqn:E; [|reflexivity].
  apply search_rest in E as [Hi _].
  replace (start - i) with (S (start - S i)) by lia. reflexivity.
Qed.

Lemma match_loop_hit (r : regex) (f i : nat) (s : jsstring) (y : mstate) :
  length s < f -> match_at r i s = Some y -> pos y <> i ->
  match_loop f r i s
  = firstn (pos y - i) s :: match_loop f r (pos y) (rest y).
Proof.
  intros Hf H Hne. destruct f as [|f]; [lia|].
  pose proof (search_here _ _ _ H) as Hs.
  change (match_loop (S f) r i s)
    with (match search r i s with
          | None => []
          | Some (start, y) =>
              firstn (pos y - start) (skipn (start - i) s) ::
              (if pos y =? start then
                 match rest y with
                 | [] => []
                 | _ :: s' => match_loop f r (S (pos y)) s'
                 end
               else match_loop f r (pos y) (rest y))
          end).
  rewrite Hs, Nat.sub_diag, (proj2 (Nat.eqb_neq _ _) Hne). cbn [skipn].
  f_equal. apply search_rest in Hs as [_ [_ Hlt]]. specialize (Hlt Hne).
  apply (match_loop_fuel r (n := S (length (rest y)))); lia.
Qed.

(** A greedy class repeat on its own takes the longest run. *)
Lemma match_at_rep_cls (p : code_unit -> bool) (min i : nat) (s : jsstring) :
  match_at (Rep min (Chr p)) i s
  = if min <=? length (take_while p s)
    then Some (MState (i + length (take_while p s)) (drop_while p s) [])
    else None.
Proof.
  unfold match_at. rewrite rmatch_rep_cls. cbn [pos rest caps].
  destruct (min <=? length (take_while p s)) eqn:E.
  - apply Nat.leb_le in E. apply greedy_cls_top; [exact E|].
    unfold adv. cbn [pos rest caps]. now rewrite skipn_take_while.
  - apply Nat.leb_gt in E. now apply greedy_cls_short.
Qed.

(** ** The tokenizer *)

Lemma starts_with_leb (p : code_unit -> bool) (s : jsstring) :
  (1 <=? length (take_while p s)) = starts_with p s.
Proof. destruct s as [|c s]; [reflexivity|]. simpl. now destruct (p c). Qed.

Lemma match_at_plus_cls (p : code_unit -> bool) (i : nat) (s : jsstring) :
  match_at (Plus (Chr p)) i s
  = if starts_with p s
    then Some (MState (i + length (take_while p s)) (drop_while p s) [])
    else None.
Proof. unfold Plus. now rewrite match_at_rep_cls, starts_with_leb. Qed.

Lemma split_on_run (p q : code_unit -> bool) :
  (forall c, q c = negb (p c)) ->
  forall s cur,
    split_on p cur s
    = match cur ++ take_while q s with
      | [] => split_on p [] (drop_while q s)
      | w => w :: split_on p [] (drop_while q s)
      end.
Proof.
  intros Hq. induction s as [|c s IH]; intros cur.
  - simpl. rewrite app_nil_r. now destruct cur.
  - cbn [take_while drop_while split_on]. rewrite Hq.
    destruct (p c) eqn:Ep; cbn [negb].
    + rewrite app_nil_r. cbn [split_on]. rewrite Ep. now destruct cur.
    + rewrite IH, <- app_assoc. reflexivity.
Qed.

Lemma drop_while_cons_length (p : code_unit -> bool) (c : code_unit)
    (s : jsstring) :
  p c = true -> length (drop_while p (c :: s)) <= length s.
Proof. intros H. simpl. rewrite H. apply drop_while_length. Qed.

Lemma match_loop_tokens :
  forall n s f i,
    length s < n -> length s < f ->
    match_loop f (Plus (Chr cls_not_space)) i s = whitespace_tokens s.
Proof.
  unfold whitespace_tokens.
  induction n as [|n IH]; intros s f i Hn Hf; [lia|].
  destruct s as [|c s].
  - now rewrite match_loop_nil.
  - destruct (cls_space c) eqn:Ec.
    + rewrite match_loop_skip.
      * cbn [split_on]. rewrite Ec. apply IH; simpl in *; lia.
      * rewrite match_at_plus_cls. simpl. unfold cls_not_space. now rewrite Ec.
    + assert (Hns : cls_not_space c = true) by (unfold cls_not_space; now rewrite Ec).
      pose proof (@drop_while_cons_length cls_not_space c s Hns) as Hlen.
      rewrite (@match_loop_hit _ f i (c :: s)
                 (MState (i + length (take_while cls_not_space (c :: s)))
                    (drop_while cls_not_space (c :: s)) [])).
      * cbn [pos rest]. rewrite IH by (simpl in *; lia).
        rewrite (@split_on_run cls_space cls_not_space (fun _ => eq_refl) (c :: s) []).
        replace (i + length (take_while cls_not_space (c :: s)) - i)
          with (length (take_while cls_not_space (c :: s))) by lia.
        rewrite firstn_take_while. cbn [app]. simpl take_while. rewrite Hns.
        reflexivity.
      * exact Hf.
      * rewrite match_at_plus_cls. simpl starts_with. now rewrite Hns.
      * cbn [pos]. simpl. rewrite Hns. simpl. lia.
Qed.

Lemma tokensFromText_tokens (text : jsstring) :
  tokensFromText text = whitespace_tokens text.
Proof.
  unfold tokensFromText, match_all.
  rewrite (match_loop_tokens (n := S (length text))) by lia.
  now destruct (whitespace_tokens text).
Qed.

Lemma split_on_tokens (p : code_unit -> bool) (s : jsstring) :
  forall cur,
    forallb (fun c => negb (p c)) cur = true ->
    Forall (fun t => t <> [] /\ forallb (fun c => negb (p c)) t = true)
      (split_on p cur s).
Proof.
  induction s as [|c s IH]; intros cur Hcur; simpl.
  - destruct cur; constructor; [split; [discriminate|exact Hcur]|constructor].
  - destruct (p c) eqn:Ep.
    + destruct cur.
      * now apply IH.
      * constructor; [split; [discriminate|exact Hcur]|now apply IH].
    + apply IH. rewrite forallb_app, Hcur. simpl. now rewrite Ep.
Qed.

Lemma split_on_concat (p : code_unit -> bool) (s : jsstring) :
  forall cur,
    concat (split_on p cur s) = cur ++ filter (fun c => negb (p c)) s.
Proof.
  induction s as [|c s IH]; intros cur; simpl.
  - destruct cur; simpl; now rewrite ?app_nil_r.
  - destruct (p c); simpl.
    + destruct cur; simpl; now rewrite IH.
    + now rewrite IH, <- app_assoc.
Qed.

(** C6: the pipeline maps tokens to words one to one and in order: the
    words of a text are the assembled whitespace-delimited maximal
    non-whitespace substrings of its word view, as many as there are, the
    i-th word coming from the i-th token; each such token is non-empty and
    free of whitespace, and together the tokens hold every non-whitespace
    code unit of the word view. *)
Theorem pipeline_one_to_one (text : jsstring) :
  buildWordUnits text
  = map processToken (whitespace_tokens (normalizeForWords text)) /\
  length (buildWordUnits text)
  = length (whitespace_tokens (normalizeForWords text)) /\
  (forall i, nth_error (buildWordUnits text) i
             = option_map processToken
                 (nth_error (whitespace_tokens (normalizeForWords text)) i)) /\
  map word (buildWordUnits text) = whitespace_tokens (normalizeForWords text) /\
  Forall (fun t => t <> [] /\ forallb cls_not_space t = true)
    (whitespace_tokens (normalizeForWords text)) /\
  concat (whitespace_tokens (normalizeForWords text))
  = filter cls_not_space (normalizeForWords text).
Proof.
  assert (H : buildWordUnits text
              = map processToken (whitespace_tokens (normalizeForWords text))).
  { unfold buildWordUnits, processTokens. now rewrite tokensFromText_tokens. }
  rewrite H. repeat split.
  - apply length_map.
  - intros i. apply nth_error_map.
  - rewrite map_map. rewrite <- (map_id (whitespace_tokens _)) at 2.
    apply map_ext. intros raw. apply parts_concat.
  - now apply (@split_on_tokens cls_space).
  - apply (split_on_concat cls_space).
Qed.

(** ** The replacements of the normalisers *)

Lemma squeeze_in_run (p : code_unit -> bool) (by_ : jsstring) (s : jsstring) :
  squeeze p by_ true s = squeeze p by_ false (drop_while p s).
Proof.
  induction s as [|c s IH]; [reflexivity|].
  simpl. destruct (p c) eqn:Ep; [exact IH|]. simpl. now rewrite Ep.
Qed.

(** Replacing [p+] globally squeezes every run of [p]. *)
Lemma replace_plus_cls (p : code_unit -> bool) (by_ : jsstring) :
  forall n s f i,
    length s < n -> length s < f ->
    replace_loop f (Plus (Chr p)) by_ i s = squeeze p by_ false s.
Proof.
  induction n as [|n IH]; intros s f i Hn Hf; [lia|].
  destruct s as [|c s].
  - now rewrite replace_loop_nil.
  - destruct (p c) eqn:Ep.
    + pose proof (@drop_while_cons_length p c s Ep) as Hlen.
      rewrite (@replace_loop_hit _ by_ f i (c :: s)
                 (MState (i + length (take_while p (c :: s)))
                    (drop_while p (c :: s)) [])).
      * cbn [pos rest]. rewrite IH by (simpl in *; lia).
        cbn [squeeze]. rewrite Ep, squeeze_in_run. simpl drop_while.
        now rewrite Ep.
      * exact Hf.
      * rewrite match_at_plus_cls. simpl starts_with. now rewrite Ep.
      * cbn [pos]. simpl. rewrite Ep. simpl. lia.
    + rewrite replace_loop_skip.
      * cbn [squeeze]. rewrite Ep. f_equal. apply IH; simpl in *; lia.
      * rewrite match_at_plus_cls. simpl. now rewrite Ep.
Qed.

Lemma match_at_crlf (i : nat) (s : jsstring) :
  match_at (Lit CR ;; Lit LF) i s
  = match s with
    | c :: d :: s' =>
        if is_unit CR c && is_unit LF d then Some (MState (S (S i)) s' [])
        else None
    | _ => None
    end.
Proof.
  unfold match_at, Lit. rewrite rmatch_cat, !rmatch_chr. cbn [pos rest caps].
  destruct s as [|c [|d s]]; [reflexivity| |].
  - now destruct (is_unit CR c).
  - rewrite rmatch_chr. cbn [pos rest caps]. now destruct (is_unit CR c).
Qed.

Lemma replace_crlf :
  forall n s f i,
    length s < n -> length s < f ->
    replace_loop f (Lit CR ;; Lit LF) [LF] i s = crlf_to_lf s.
Proof.
  induction n as [|n IH]; intros s f i Hn Hf; [lia|].
  destruct s as [|c [|d s]].
  - now rewrite replace_loop_nil.
  - rewrite replace_loop_skip by now rewrite match_at_crlf.
    now rewrite replace_loop_nil.
  - cbn [crlf_to_lf]. destruct (is_unit CR c && is_unit LF d) eqn:E.
    + rewrite (@replace_loop_hit _ [LF] f i (c :: d :: s) (MState (S (S i)) s [])).
      * cbn [pos rest app]. f_equal. apply IH; simpl in *; lia.
      * exact Hf.
      * rewrite match_at_crlf. now rewrite E.
      * cbn [pos]. lia.
    + rewrite replace_loop_skip by (rewrite match_at_crlf; now rewrite E).
      f_equal. apply IH; simpl in *; lia.
Qed.

Lemma match_at_lit (a : code_unit) (i : nat) (s : jsstring) :
  match_at (Lit a) i s
  = match s with
    | c :: s' => if is_unit a c then Some (MState (S i) s' []) else None
    | [] => None
    end.
Proof. reflexivity. Qed.

Lemma replace_cr :
  forall s f i,
    length s < f -> replace_loop f (Lit CR) [LF] i s = map cr_to_lf s.
Proof.
  induction s as [|c s IH]; intros f i Hf.
  - now rewrite replace_loop_nil.
  - cbn [map]. unfold cr_to_lf at 1. destruct (is_unit CR c) eqn:E.
    + rewrite (@replace_loop_hit _ [LF] f i (c :: s) (MState (S i) s [])).
      * cbn [pos rest app]. f_equal. apply IH. simpl in *; lia.
      * exact Hf.
      * rewrite match_at_lit. now rewrite E.
      * cbn [pos]. lia.
    + rewrite replace_loop_skip by (rewrite match_at_lit; now rewrite E).
      f_equal. apply IH. simpl in *; lia.
Qed.

Lemma unify_two_steps (s : jsstring) :
  map cr_to_lf (crlf_to_lf s) = unify_line_endings s.
Proof.
  assert (H : forall n s, length s < n ->
                map cr_to_lf (crlf_to_lf s) = unify_line_endings s).
  { clear s. induction n as [|n IH]; intros s Hn; [lia|].
    destruct s as [|c [|d s]]; [reflexivity| |].
    - simpl. unfold cr_to_lf. now destruct (is_unit CR c).
    - cbn [crlf_to_lf unify_line_endings].
      destruct (is_unit CR c) eqn:Ec; cbn [andb].
      + destruct (is_unit LF d) eqn:Ed; cbn [map].
        * f_equal. apply IH. simpl in *; lia.
        * unfold cr_to_lf at 1. rewrite Ec. f_equal.
          apply (IH (d :: s)). simpl in *; lia.
      + cbn [map]. unfold cr_to_lf at 1. rewrite Ec. f_equal.
        apply (IH (d :: s)). simpl in *; lia. }
  apply (H (S (length s))). lia.
Qed.

Lemma squeeze_newlines_run (s : jsstring) :
  forall m,
    squeeze_newlines_from m s
    = repeat LF (Nat.min (m + length (take_while (is_unit LF) s)) 2)
      ++ squeeze_newlines_from 0 (drop_while (is_unit LF) s).
Proof.
  induction s as [|c s IH]; intros m.
  - simpl. now rewrite Nat.add_0_r, app_nil_r.
  - cbn [squeeze_newlines_from take_while drop_while].
    destruct (is_unit LF c) eqn:E.
    + rewrite IH. simpl length. now rewrite Nat.add_succ_r.
    + simpl length. rewrite Nat.add_0_r. cbn [squeeze_newlines_from].
      now rewrite E.
Qed.

Lemma replace_newlines :
  forall n s f i,
    length s < n -> length s < f ->
    replace_loop f (Rep 3 (Lit LF)) [LF; LF] i s = squeeze_newlines s.
Proof.
  unfold squeeze_newlines, Lit.
  induction n as [|n IH]; intros s f i Hn Hf; [lia|].
  destruct s as [|c s].
  - now rewrite replace_loop_nil.
  - destruct (3 <=? length (take_while (is_unit LF) (c :: s))) eqn:E3.
    + assert (Ec : is_unit LF c = true).
      { simpl in E3. now destruct (is_unit LF c). }
      pose proof (@drop_while_cons_length (is_unit LF) c s Ec) as Hlen.
      rewrite (@replace_loop_hit _ [LF; LF] f i (c :: s)
                 (MState (i + length (take_while (is_unit LF) (c :: s)))
                    (drop_while (is_unit LF) (c :: s)) [])).
      * cbn [pos rest]. rewrite IH by (simpl in *; lia).
        rewrite (squeeze_newlines_run (c :: s) 0). cbn [Nat.add].
        apply Nat.leb_le in E3.
        now replace (Nat.min (length (take_while (is_unit LF) (c :: s))) 2)
          with 2 by lia.
      * exact Hf.
      * rewrite match_at_rep_cls. now rewrite E3.
      * cbn [pos]. apply Nat.leb_le in E3. lia.
    + rewrite replace_loop_skip by (rewrite match_at_rep_cls; now rewrite E3).
      rewrite IH by (simpl in *; lia).
      cbn [squeeze_newlines_from]. destruct (is_unit LF c) eqn:Ec.
      * rewrite (squeeze_newlines_run s 0), (squeeze_newlines_run s 1).
        apply Nat.leb_gt in E3. simpl in E3. rewrite Ec in E3. simpl in E3.
        cbn [Nat.add].
        replace (Nat.min (S (length (take_while (is_unit LF) s))) 2)
          with (S (length (take_while (is_unit LF) s))) by lia.
        replace (Nat.min (length (take_while (is_unit LF) s)) 2)
          with (length (take_while (is_unit LF) s)) by lia.
        apply N.eqb_eq in Ec. now rewrite Ec.
      * reflexivity.
Qed.

(** The two normalisers, read directly. *)
Lemma normalizePreserveParagraphs_direct (text : jsstring) :
  normalizePreserveParagraphs text
  = trim (squeeze_newlines
            (squeeze cls_space_tab [SP] false (unify_line_endings text))).
Proof.
  unfold normalizePreserveParagraphs, replace_all.
  rewrite (@replace_crlf (S (length text))) by lia.
  rewrite replace_cr by lia. rewrite unify_two_steps.
  rewrite (@replace_plus_cls cls_space_tab [SP]
             (S (length (unify_line_endings text)))) by lia.
  now rewrite (@replace_newlines
                 (S (length (squeeze cls_space_tab [SP] false
                               (unify_line_endings text))))) by lia.
Qed.

Lemma normalizeForWords_direct (text : jsstring) :
  normalizeForWords text = trim (squeeze cls_space [SP] false text).
Proof.
  unfold normalizeForWords, replace_all.
  now rewrite (@replace_plus_cls cls_space [SP] (S (length text))) by lia.
Qed.

(** ** Trimming *)

Lemma trim_infix (s : jsstring) :
  exists u v, s = u ++ trim s ++ v.
Proof.
  unfold trim. set (d := drop_while cls_space s).
  exists (take_while cls_space s), (rev (take_while cls_space (rev d))).
  rewrite <- rev_app_distr, take_drop, rev_involutive.
  symmetry. apply take_drop.
Qed.

Lemma trim_all_space (s : jsstring) :
  forallb cls_space s = true -> trim s = [].
Proof.
  intros H. unfold trim. now destruct (forallb_take_while _ _ H) as [_ ->].
Qed.

Lemma trim_trimmed (s : jsstring) : trimmed (trim s).
Proof.
  unfold trimmed, trim. rewrite rev_involutive. split; [|apply drop_while_start].
  set (d := drop_while cls_space s).
  pose proof (drop_while_start cls_space s) as Hd. fold d in Hd.
  pose proof (take_drop cls_space (rev d)) as Hr.
  apply (f_equal (@rev _)) in Hr. rewrite rev_involutive, rev_app_distr in Hr.
  destruct (rev (drop_while cls_space (rev d))) as [|c w]; [reflexivity|].
  rewrite <- Hr in Hd. exact Hd.
Qed.

Lemma forallb_weaken (f g : code_unit -> bool) (s : jsstring) :
  (forall c, f c = true -> g c = true) ->
  forallb f s = true -> forallb g s = true.
Proof.
  intros Hfg. induction s as [|c s IH]; simpl; [auto|].
  intros H. apply andb_true_iff in H as [Hc Hs]. now rewrite (Hfg c Hc), IH.
Qed.

Lemma trim_all (q : code_unit -> bool) (s : jsstring) :
  forallb q s = true -> forallb q (trim s) = true.
Proof.
  intros H. destruct (trim_infix s) as [u [v Hs]]. rewrite Hs in H.
  rewrite !forallb_app in H. apply andb_true_iff in H as [_ H].
  now apply andb_true_iff in H as [H _].
Qed.

Lemma squeeze_all (p q : code_unit -> bool) (by_ : jsstring) (s : jsstring) :
  forallb q by_ = true ->
  forallb (fun c => p c || q c) s = true ->
  forall b, forallb q (squeeze p by_ b s) = true.
Proof.
  intros Hby. induction s as [|c s IH]; simpl; [auto|].
  intros H b. apply andb_true_iff in H as [Hc Hs].
  destruct (p c); simpl in *.
  - destruct b; [now apply IH|]. rewrite forallb_app, Hby. now apply IH.
  - rewrite Hc. now apply IH.
Qed.

(** ** Empty and whitespace-only texts *)

Lemma normalizeForWords_blank (s : jsstring) :
  forallb cls_space s = true -> normalizeForWords s = [].
Proof.
  intros H. rewrite normalizeForWords_direct. apply trim_all_space.
  apply squeeze_all; [reflexivity|].
  apply (forallb_weaken cls_space); [|exact H]. intros c ->. reflexivity.
Qed.

(** C7: the pipeline is total on empty and whitespace-only texts: the
    tokenizer turns the empty string into the empty list (the [null] of the
    global match becomes the empty array), and the words of the empty string,
    of "   \n\t  " and of every text made of whitespace only are the empty
    list. *)
Theorem blank_text_no_words :
  match_all (Plus (Chr cls_not_space)) [] = None /\
  tokensFromText [] = [] /\
  buildWordUnits [] = [] /\
  buildWordUnits (js "   " ++ [LF; 9%N] ++ js "  ") = [] /\
  (forall s, forallb cls_space s = true -> buildWordUnits s = []).
Proof.
  repeat split; try reflexivity.
  intros s H. unfold buildWordUnits. now rewrite (normalizeForWords_blank s H).
Qed.

Lemma blank_text_no_words_witness :
  forallb cls_space [9%N; 160%N; CR; LF; 8232%N; SP] = true /\
  buildWordUnits [9%N; 160%N; CR; LF; 8232%N; SP] = [].
Proof.
  split; [reflexivity|].
  apply (proj2 (proj2 (proj2 (proj2 blank_text_no_words)))). reflexivity.
Defined.

(** ** What the paragraph-preserving view looks like *)

Lemma unify_no_cr (s : jsstring) :
  forallb (fun c => negb (is_unit CR c)) (unify_line_endings s) = true.
Proof.
  assert (H : forall n s, length s < n ->
                forallb (fun c => negb (is_unit CR c)) (unify_line_endings s) = true).
  { clear s. induction n as [|n IH]; intros s Hn; [lia|].
    destruct s as [|c s]; [reflexivity|]. cbn [unify_line_endings].
    destruct (is_unit CR c) eqn:Ec.
    - cbn [forallb]. destruct s as [|d s]; [reflexivity|].
      destruct (is_unit LF d); apply andb_true_iff; split; try reflexivity;
        apply IH; simpl in *; lia.
    - cbn [forallb]. rewrite Ec. apply IH. simpl in *; lia. }
  apply (H (S (length s))). lia.
Qed.

Lemma squeeze_newlines_all (q : code_unit -> bool) (s : jsstring) :
  q LF = true -> forallb q s = true ->
  forall n, forallb q (squeeze_newlines_from n s) = true.
Proof.
  intros HLF.
  assert (Hrep : forall k, forallb q (repeat LF k) = true).
  { induction k; simpl; [reflexivity|now rewrite HLF]. }
  induction s as [|c s IH]; simpl; [auto|].
  intros H n. apply andb_true_iff in H as [Hc Hs].
  destruct (is_unit LF c); [now apply IH|].
  rewrite forallb_app, Hrep. simpl. rewrite Hc. now apply IH.
Qed.

Lemma squeeze_head (p : code_unit -> bool) (s : jsstring) :
  p SP = true -> starts_with (is_unit SP) (squeeze p [SP] true s) = false.
Proof.
  intros Hp. rewrite squeeze_in_run.
  pose proof (drop_while_start p s) as Hd.
  destruct (drop_while p s) as [|c d]; [reflexivity|].
  simpl in *. rewrite Hd. simpl.
  destruct (is_unit SP c) eqn:E; [|reflexivity].
  apply N.eqb_eq in E. congruence.
Qed.

Lemma squeeze_no_adjacent (p : code_unit -> bool) (s : jsstring) :
  p SP = true ->
  forall b, no_adjacent (is_unit SP) (squeeze p [SP] b s) = true.
Proof.
  intros Hp. induction s as [|c s IH]; intros b; [reflexivity|].
  simpl. destruct (p c) eqn:Ep.
  - destruct b; [apply IH|]. cbn [app no_adjacent].
    now rewrite squeeze_head, IH by exact Hp.
  - cbn [no_adjacent]. rewrite IH.
    destruct (is_unit SP c) eqn:E; [|reflexivity].
    apply N.eqb_eq in E. congruence.
Qed.

Lemma no_adjacent_newlines (q : code_unit -> bool) (k : nat) (t : jsstring) :
  q LF = false -> no_adjacent q (repeat LF k ++ t) = no_adjacent q t.
Proof.
  intros H. induction k as [|k IH]; [reflexivity|].
  simpl. now rewrite H, IH.
Qed.

Lemma starts_newlines (q : code_unit -> bool) (k : nat) (t : jsstring) :
  q LF = false -> starts_with q t = false ->
  starts_with q (repeat LF k ++ t) = false.
Proof. intros H Ht. destruct k; simpl; auto. Qed.

Lemma squeeze_newlines_head (s : jsstring) :
  forall n, starts_with (is_unit SP) s = false ->
            starts_with (is_unit SP) (squeeze_newlines_from n s) = false.
Proof.
  intros n H. destruct s as [|c s]; cbn [squeeze_newlines_from].
  - destruct (Nat.min n 2); reflexivity.
  - destruct (is_unit LF c).
    + rewrite squeeze_newlines_run.
      destruct (Nat.min (S n + length (take_while (is_unit LF) s)) 2) eqn:E;
        [lia|reflexivity].
    + destruct (Nat.min n 2); [exact H|reflexivity].
Qed.

Lemma squeeze_newlines_no_adjacent (s : jsstring) :
  forall n, no_adjacent (is_unit SP) s = true ->
            no_adjacent (is_unit SP) (squeeze_newlines_from n s) = true.
Proof.
  induction s as [|c s IH]; intros n H.
  - simpl. rewrite <- (app_nil_r (repeat _ _)).
    now rewrite no_adjacent_newlines.
  - simpl in H. apply andb_true_iff in H as [Hc Hs].
    simpl. destruct (is_unit LF c); [now apply IH|].
    rewrite no_adjacent_newlines by reflexivity.
    cbn [no_adjacent]. rewrite (IH 0 Hs), andb_true_r.
    destruct (is_unit SP c); [|reflexivity]. simpl in *.
    apply negb_true_iff in Hc. now rewrite squeeze_newlines_head.
Qed.

Lemma no_adjacent_app (q : code_unit -> bool) (u v : jsstring) :
  no_adjacent q (u ++ v) = true ->
  no_adjacent q u = true /\ no_adjacent q v = true.
Proof.
  induction u as [|c u IH]; simpl; [auto|].
  intros H. apply andb_true_iff in H as [Hc H]. destruct (IH H) as [Hu Hv].
  split; [|exact Hv]. rewrite Hu, andb_true_r.
  destruct u; [now rewrite andb_false_r|exact Hc].
Qed.

Lemma trim_no_adjacent (q : code_unit -> bool) (s : jsstring) :
  no_adjacent q s = true -> no_adjacent q (trim s) = true.
Proof.
  intros H. destruct (trim_infix s) as [u [v Hs]]. rewrite Hs in H.
  apply no_adjacent_app in H as [_ H]. now apply no_adjacent_app in H as [H _].
Qed.

Lemma no_three_newlines_cons (c1 : code_unit) (s : jsstring) :
  no_three_newlines (c1 :: s)
  = match s with
    | c2 :: c3 :: _ => negb (is_unit LF c1 && is_unit LF c2 && is_unit LF c3)
    | _ => true
    end && no_three_newlines s.
Proof. reflexivity. Qed.

Lemma no_three_newlines_prefix (k : nat) (c : code_unit) (t : jsstring) :
  k <= 2 -> is_unit LF c = false -> no_three_newlines t = true ->
  no_three_newlines (repeat LF k ++ c :: t) = true.
Proof.
  intros Hk Hc Ht.
  assert (H0 : no_three_newlines (c :: t) = true).
  { rewrite no_three_newlines_cons, Hc, Ht. now destruct t as [|? [|? ?]]. }
  assert (H1 : no_three_newlines (LF :: c :: t) = true).
  { rewrite no_three_newlines_cons, H0, Hc.
    destruct t; now rewrite ?andb_false_r. }
  destruct k as [|[|[|k]]]; [exact H0|exact H1| |lia].
  cbn [repeat app]. rewrite no_three_newlines_cons, H1, Hc.
  now rewrite ?andb_false_r.
Qed.

Lemma squeeze_no_three_newlines (s : jsstring) :
  forall n, no_three_newlines (squeeze_newlines_from n s) = true.
Proof.
  induction s as [|c s IH]; intros n; cbn [squeeze_newlines_from].
  - destruct n as [|[|n]]; try reflexivity.
    now replace (Nat.min (S (S n)) 2) with 2 by lia.
  - destruct (is_unit LF c) eqn:Ec; [apply IH|].
    apply no_three_newlines_prefix; [lia|exact Ec|apply IH].
Qed.

Lemma no_three_newlines_app (u v : jsstring) :
  no_three_newlines (u ++ v) = true ->
  no_three_newlines u = true /\ no_three_newlines v = true.
Proof.
  induction u as [|c u IH]; [simpl; auto|].
  cbn [app]. rewrite !no_three_newlines_cons. intros H.
  apply andb_true_iff in H as [Hc H]. destruct (IH H) as [Hu Hv].
  split; [|exact Hv]. rewrite Hu, andb_true_r.
  destruct u as [|c2 [|c3 u]]; try reflexivity. exact Hc.
Qed.

Lemma trim_no_three_newlines (s : jsstring) :
  no_three_newlines s = true -> no_three_newlines (trim s) = true.
Proof.
  intros H. destruct (trim_infix s) as [u [v Hs]]. rewrite Hs in H.
  apply no_three_newlines_app in H as [_ H].
  now apply no_three_newlines_app in H as [H _].
Qed.

(** ** Two paragraphs *)

Lemma unify_id (s : jsstring) :
  forallb (fun c => negb (is_unit CR c)) s = true -> unify_line_endings s = s.
Proof.
  induction s as [|c s IH]; [reflexivity|].
  simpl. intros H. apply andb_true_iff in H as [Hc Hs].
  apply negb_true_iff in Hc. now rewrite Hc, IH.
Qed.

Lemma squeeze_app (p : code_unit -> bool) (by_ u s : jsstring) :
  forallb (fun c => negb (p c)) u = true ->
  squeeze p by_ false (u ++ s) = u ++ squeeze p by_ false s.
Proof.
  induction u as [|c u IH]; [reflexivity|].
  simpl. intros H. apply andb_true_iff in H as [Hc Hu].
  apply negb_true_iff in Hc. now rewrite Hc, IH.
Qed.

Lemma squeeze_newlines_app (u s : jsstring) :
  forallb (fun c => negb (is_unit LF c)) u = true ->
  squeeze_newlines_from 0 (u ++ s) = u ++ squeeze_newlines_from 0 s.
Proof.
  induction u as [|c u IH]; [reflexivity|].
  simpl. intros H. apply andb_true_iff in H as [Hc Hu].
  apply negb_true_iff in Hc. now rewrite Hc, IH.
Qed.

Lemma not_space_classes (c : code_unit) :
  cls_not_space c = true ->
  is_unit CR c = false /\ is_unit LF c = false /\ cls_space_tab c = false.
Proof.
  unfold cls_not_space. intros H. apply negb_true_iff in H.
  repeat split; apply not_true_is_false; intros E;
    unfold cls_space_tab, is_unit in E;
    rewrite ?orb_true_iff, ?N.eqb_eq in E;
    repeat match goal with E : _ \/ _ |- _ => destruct E as [E|E] end;
    subst c; discriminate.
Qed.

Lemma forallb_repeat (q : code_unit -> bool) (a : code_unit) (n : nat) :
  q a = true -> forallb q (repeat a n) = true.
Proof. intros H. induction n; simpl; [reflexivity|now rewrite H]. Qed.

Lemma word_ends (p t : jsstring) :
  p <> [] -> forallb cls_not_space p = true ->
  starts_with cls_space (p ++ t) = false /\
  starts_with cls_space (rev (t ++ p)) = false.
Proof.
  assert (H : forall p t, p <> [] -> forallb cls_not_space p = true ->
                starts_with cls_space (p ++ t) = false).
  { clear p t. intros [|c p] t Hn Hp; [congruence|]. simpl in *.
    apply andb_true_iff in Hp as [Hc _]. now apply negb_true_iff. }
  intros Hn Hp. split; [now apply H|].
  rewrite rev_app_distr. apply H.
  - intros E. apply (f_equal (@rev _)) in E. rewrite rev_involutive in E.
    now apply Hn.
  - now rewrite forallb_rev.
Qed.

Lemma paragraphs_full_text (p1 p2 : jsstring) (n : nat) :
  p1 <> [] -> p2 <> [] ->
  forallb cls_not_space p1 = true -> forallb cls_not_space p2 = true ->
  2 <= n ->
  normalizePreserveParagraphs (p1 ++ repeat LF n ++ p2) = p1 ++ [LF; LF] ++ p2.
Proof.
  intros Hn1 Hn2 Hp1 Hp2 Hn. rewrite normalizePreserveParagraphs_direct.
  assert (Hcls : forall q : code_unit -> bool,
             q LF = false ->
             (forall c, cls_not_space c = true -> q c = false) ->
             forallb (fun c => negb (q c)) (p1 ++ repeat LF n ++ p2) = true).
  { intros q HLF Hq. rewrite !forallb_app.
    rewrite (forallb_weaken cls_not_space (fun c => negb (q c)) p1);
      [|intros c Hc; now rewrite (Hq c Hc)|exact Hp1].
    rewrite (forallb_weaken cls_not_space (fun c => negb (q c)) p2);
      [|intros c Hc; now rewrite (Hq c Hc)|exact Hp2].
    rewrite forallb_repeat; [reflexivity|now rewrite HLF]. }
  rewrite unify_id by (apply Hcls; [reflexivity|]; intros c Hc;
                       apply (not_space_classes c Hc)).
  rewrite <- (app_nil_r (p1 ++ repeat LF n ++ p2)) at 1.
  rewrite squeeze_app, app_nil_r
    by (apply Hcls; [reflexivity|]; intros c Hc; apply (not_space_classes c Hc)).
  unfold squeeze_newlines.
  rewrite squeeze_newlines_app
    by (apply (forallb_weaken cls_not_space); [|exact Hp1]; intros c Hc;
        now rewrite (proj1 (proj2 (not_space_classes c Hc)))).
  rewrite squeeze_newlines_run.
  destruct (@take_while_app (is_unit LF) (repeat LF n) p2) as [-> ->].
  - now apply forallb_repeat.
  - destruct p2 as [|c p2]; [congruence|]. simpl in *.
    apply andb_true_iff in Hp2 as [Hc _]. apply (not_space_classes c Hc).
  - rewrite repeat_length. replace (Nat.min (0 + n) 2) with 2 by lia.
    rewrite <- (app_nil_r p2) at 1.
    rewrite squeeze_newlines_app
      by (apply (forallb_weaken cls_not_space); [|exact Hp2]; intros c Hc;
          now rewrite (proj1 (proj2 (not_space_classes c Hc)))).
    cbn [squeeze_newlines_from Nat.min repeat]. rewrite app_nil_r.
    apply trim_id.
    + apply (word_ends (LF :: LF :: p2) Hn1 Hp1).
    + replace (p1 ++ [LF; LF] ++ p2) with ((p1 ++ [LF; LF]) ++ p2)
        by now rewrite <- app_assoc.
      apply (word_ends (p1 ++ [LF; LF]) Hn2 Hp2).
Qed.

Lemma paragraphs_word_view (p1 p2 : jsstring) (n : nat) :
  p1 <> [] -> p2 <> [] ->
  forallb cls_not_space p1 = true -> forallb cls_not_space p2 = true ->
  1 <= n ->
  normalizeForWords (p1 ++ repeat LF n ++ p2) = p1 ++ [SP] ++ p2.
Proof.
  intros Hn1 Hn2 Hp1 Hp2 Hn. rewrite normalizeForWords_direct.
  rewrite squeeze_app by exact Hp1.
  destruct n as [|n]; [lia|]. cbn [repeat app squeeze].
  change (cls_space LF) with true. cbv iota. rewrite squeeze_in_run.
  destruct (@take_while_app cls_space (repeat LF n) p2) as [_ ->].
  - now apply forallb_repeat.
  - destruct p2 as [|c p2]; [congruence|]. simpl in *.
    apply andb_true_iff in Hp2 as [Hc _]. now apply negb_true_iff.
  - rewrite <- (app_nil_r p2) at 1. rewrite squeeze_app, app_nil_r by exact Hp2.
    apply trim_id.
    + apply (word_ends (SP :: p2) Hn1 Hp1).
    + replace (p1 ++ SP :: p2) with ((p1 ++ [SP]) ++ p2)
        by now rewrite <- app_assoc.
      apply (word_ends (p1 ++ [SP]) Hn2 Hp2).
Qed.

(** ** Paragraph breaks of any length *)

Lemma ends_with_cons (q : code_unit -> bool) (c : code_unit) (s : jsstring) :
  s <> [] -> ends_with q (c :: s) = ends_with q s.
Proof. destruct s; [congruence|reflexivity]. Qed.

Lemma ends_with_tail (q : code_unit -> bool) (c : code_unit) (s : jsstring) :
  ends_with q (c :: s) = false -> ends_with q s = false.
Proof. destruct s; [reflexivity|auto]. Qed.

Lemma ends_with_cons_false (q : code_unit -> bool) (c : code_unit)
    (t : jsstring) :
  (t = [] -> q c = false) -> ends_with q t = false ->
  ends_with q (c :: t) = false.
Proof. destruct t; simpl; auto. Qed.

Lemma ends_with_weaken (q q' : code_unit -> bool) (s : jsstring) :
  (forall c, q c = true -> q' c = true) ->
  ends_with q' s = false -> ends_with q s = false.
Proof.
  intros Hq. induction s as [|c s IH]; [reflexivity|].
  destruct s as [|d s]; [|exact IH]. simpl. intros H.
  destruct (q c) eqn:E; [|reflexivity]. apply Hq in E. congruence.
Qed.

Lemma unify_app :
  forall n u v,
    length u < n -> ends_with (is_unit CR) u = false ->
    unify_line_endings (u ++ v) = unify_line_endings u ++ unify_line_endings v.
Proof.
  induction n as [|n IH]; intros u v Hn Hu; [lia|].
  destruct u as [|c u]; [reflexivity|].
  cbn [app unify_line_endings]. destruct (is_unit CR c) eqn:Ec.
  - destruct u as [|d u]; [simpl in Hu; congruence|]. cbn [app].
    destruct (is_unit LF d) eqn:Ed.
    + cbn [app]. f_equal. apply IH; [simpl in *; lia|].
      destruct u as [|e u]; [reflexivity|exact Hu].
    + cbn [app]. f_equal. apply (IH (d :: u)); [simpl in *; lia|exact Hu].
  - cbn [app]. f_equal. apply IH; [simpl in *; lia|].
    now apply ends_with_tail in Hu.
Qed.

Lemma unify_newlines (n : nat) (v : jsstring) :
  unify_line_endings (repeat LF n ++ v) = repeat LF n ++ unify_line_endings v.
Proof. induction n as [|n IH]; [reflexivity|]. simpl. now rewrite IH. Qed.

Lemma unify_not_empty (u : jsstring) : u <> [] -> unify_line_endings u <> [].
Proof.
  destruct u as [|c u]; [congruence|]. intros _. simpl.
  destruct (is_unit CR c); discriminate.
Qed.

Lemma unify_ends :
  forall n u,
    length u < n -> ends_with is_break u = false ->
    ends_with (is_unit LF) (unify_line_endings u) = false.
Proof.
  induction n as [|n IH]; intros u Hn Hu; [lia|].
  destruct u as [|c u]; [reflexivity|].
  cbn [unify_line_endings]. destruct (is_unit CR c) eqn:Ec.
  - destruct u as [|d u].
    + simpl in Hu. unfold is_break in Hu. now rewrite Ec in Hu.
    + destruct (is_unit LF d) eqn:Ed.
      * destruct u as [|e u].
        -- simpl in Hu. unfold is_break in Hu. rewrite Ed in Hu.
           now rewrite orb_true_r in Hu.
        -- rewrite ends_with_cons by (apply unify_not_empty; discriminate).
           apply IH; [simpl in *; lia|exact Hu].
      * rewrite ends_with_cons by (apply unify_not_empty; discriminate).
        apply (IH (d :: u)); [simpl in *; lia|exact Hu].
  - apply ends_with_cons_false.
    + intros E. destruct u as [|d u]; [|now apply unify_not_empty in E].
      simpl in Hu. unfold is_break in Hu. now apply orb_false_iff in Hu.
    + apply IH; [simpl in *; lia|now apply ends_with_tail in Hu].
Qed.

Lemma unify_starts (v : jsstring) :
  starts_with is_break v = false ->
  starts_with (is_unit LF) (unify_line_endings v) = false.
Proof.
  destruct v as [|c v]; [reflexivity|]. simpl. unfold is_break.
  intros H. apply orb_false_iff in H as [Hc Hl]. now rewrite Hc.
Qed.

Lemma squeeze_break (p : code_unit -> bool) (by_ : jsstring) (c : code_unit)
    (v : jsstring) :
  p c = false ->
  forall u b,
    squeeze p by_ b (u ++ c :: v)
    = squeeze p by_ b u ++ c :: squeeze p by_ false v.
Proof.
  intros Hc. induction u as [|d u IH]; intros b; simpl.
  - now rewrite Hc.
  - destruct (p d); [destruct b|]; rewrite IH; try reflexivity.
    now rewrite <- app_assoc.
Qed.

Lemma squeeze_not_empty (p : code_unit -> bool) (s : jsstring) :
  s <> [] -> squeeze p [SP] false s <> [].
Proof.
  destruct s as [|c s]; [congruence|]. intros _. simpl.
  destruct (p c); discriminate.
Qed.

Lemma squeeze_ends (p : code_unit -> bool) (s : jsstring) :
  forall b, ends_with (is_unit LF) s = false ->
            ends_with (is_unit LF) (squeeze p [SP] b s) = false.
Proof.
  induction s as [|c s IH]; intros b H; [reflexivity|].
  pose proof (ends_with_tail _ _ _ H) as Hs. simpl.
  destruct (p c).
  - destruct b; [now apply IH|].
    apply ends_with_cons_false; [reflexivity|now apply IH].
  - apply ends_with_cons_false; [|now apply IH].
    intros E. destruct s as [|d s]; [exact H|].
    now apply squeeze_not_empty in E.
Qed.

Lemma squeeze_starts (p : code_unit -> bool) (v : jsstring) :
  starts_with (is_unit LF) v = false ->
  starts_with (is_unit LF) (squeeze p [SP] false v) = false.
Proof.
  destruct v as [|c v]; [reflexivity|]. simpl. intros H.
  now destruct (p c).
Qed.

Lemma take_while_newlines (n : nat) (v : jsstring) :
  starts_with (is_unit LF) v = false ->
  take_while (is_unit LF) (repeat LF n ++ v) = repeat LF n /\
  drop_while (is_unit LF) (repeat LF n ++ v) = v.
Proof.
  intros H. apply take_while_app; [|exact H]. now apply forallb_repeat.
Qed.

(** Two LF or more between two texts squeeze to the same. *)
Lemma squeeze_newlines_regardless (v : jsstring) (n : nat) :
  starts_with (is_unit LF) v = false -> 2 <= n ->
  forall u m,
    ends_with (is_unit LF) u = false ->
    squeeze_newlines_from m (u ++ repeat LF n ++ v)
    = squeeze_newlines_from m (u ++ repeat LF 2 ++ v).
Proof.
  intros Hv Hn. induction u as [|c u IH]; intros m Hu.
  - cbn [app]. rewrite (squeeze_newlines_run (repeat LF n ++ v)).
    rewrite (squeeze_newlines_run (repeat LF 2 ++ v)).
    destruct (take_while_newlines n v Hv) as [-> ->].
    destruct (take_while_newlines 2 v Hv) as [-> ->].
    rewrite !repeat_length.
    now replace (Nat.min (m + n) 2) with (Nat.min (m + 2) 2) by lia.
  - cbn [app squeeze_newlines_from].
    pose proof (ends_with_tail _ _ _ Hu) as Hu'.
    destruct (is_unit LF c); now rewrite IH.
Qed.

Lemma is_break_cr (c : code_unit) : is_unit CR c = true -> is_break c = true.
Proof. unfold is_break. now intros ->. Qed.

(** In the paragraph-preserving view, a break of two or more LF comes out
    the same whatever its length. *)
Lemma paragraph_break_regardless (a b : jsstring) (n : nat) :
  ends_with is_break a = false -> starts_with is_break b = false -> 2 <= n ->
  normalizePreserveParagraphs (a ++ repeat LF n ++ b)
  = normalizePreserveParagraphs (a ++ [LF; LF] ++ b).
Proof.
  intros Ha Hb Hn. rewrite !normalizePreserveParagraphs_direct. f_equal.
  change [LF; LF] with (repeat LF 2).
  assert (Hstage : forall k, 1 <= k ->
            squeeze cls_space_tab [SP] false
              (unify_line_endings (a ++ repeat LF k ++ b))
            = squeeze cls_space_tab [SP] false (unify_line_endings a)
              ++ repeat LF k
              ++ squeeze cls_space_tab [SP] false (unify_line_endings b)).
  { intros k Hk.
    rewrite (@unify_app (S (length a)))
      by (try lia; now apply (ends_with_weaken _ is_break a is_break_cr)).
    rewrite unify_newlines. destruct k as [|k]; [lia|]. cbn [repeat app].
    rewrite squeeze_break by reflexivity.
    now rewrite squeeze_app by now apply forallb_repeat. }
  rewrite !Hstage by lia. unfold squeeze_newlines.
  apply squeeze_newlines_regardless; [|exact Hn|].
  - apply squeeze_starts, unify_starts, Hb.
  - apply squeeze_ends. apply (@unify_ends (S (length a))); [lia|exact Ha].
Qed.

Lemma drop_while_run (p : code_unit -> bool) (w v : jsstring) :
  forallb p w = true -> drop_while p (w ++ v) = drop_while p v.
Proof.
  induction w as [|c w IH]; [reflexivity|].
  simpl. intros H. apply andb_true_iff in H as [-> Hw]. now apply IH.
Qed.

Lemma squeeze_run (p : code_unit -> bool) (by_ w v : jsstring) :
  w <> [] -> forallb p w = true ->
  forall b, squeeze p by_ b (w ++ v)
            = (if b then [] else by_) ++ squeeze p by_ false (drop_while p v).
Proof.
  intros Hn Hw b. destruct w as [|c w]; [congruence|].
  simpl in Hw. apply andb_true_iff in Hw as [Hc Hw].
  cbn [app squeeze]. rewrite Hc, squeeze_in_run, (drop_while_run _ _ v Hw).
  now destruct b.
Qed.

(** In the word view, a break of LF of any length is one more run of
    whitespace. *)
Lemma paragraph_break_invisible (a b : jsstring) (n : nat) :
  1 <= n ->
  normalizeForWords (a ++ repeat LF n ++ b) = normalizeForWords (a ++ [SP] ++ b).
Proof.
  intros Hn. rewrite !normalizeForWords_direct. f_equal.
  generalize false. induction a as [|c a IH]; intros f.
  - cbn [app]. rewrite (@squeeze_run cls_space [SP] (repeat LF n) b).
    + now rewrite (@squeeze_run cls_space [SP] [SP] b).
    + destruct n; [lia|discriminate].
    + now apply forallb_repeat.
  - cbn [app squeeze]. destruct (cls_space c); [destruct f|]; now rewrite IH.
Qed.

(** ** The normalisers *)

Lemma forallb_always (f : code_unit -> bool) (s : jsstring) :
  (forall c, f c = true) -> forallb f s = true.
Proof. intros H. induction s; simpl; [reflexivity|now rewrite H]. Qed.

Lemma full_text_shape (text : jsstring) :
  forallb (fun c => negb (is_unit CR c)) (normalizePreserveParagraphs text) = true /\
  forallb (fun c => negb (is_unit TAB c)) (normalizePreserveParagraphs text) = true /\
  no_adjacent (is_unit SP) (normalizePreserveParagraphs text) = true /\
  no_three_newlines (normalizePreserveParagraphs text) = true /\
  trimmed (normalizePreserveParagraphs text).
Proof.
  rewrite normalizePreserveParagraphs_direct. unfold squeeze_newlines.
  repeat split.
  - apply trim_all, squeeze_newlines_all; [reflexivity|].
    apply squeeze_all; [reflexivity|].
    apply (forallb_weaken (fun c => negb (is_unit CR c))); [|apply unify_no_cr].
    intros c ->. apply orb_true_r.
  - apply trim_all, squeeze_newlines_all; [reflexivity|].
    apply squeeze_all; [reflexivity|]. apply forallb_always.
    intros c. unfold cls_space_tab. destruct (is_unit TAB c) eqn:E.
    + change (is_unit 9 c) with (is_unit TAB c). rewrite E.
      now rewrite orb_true_r.
    + now rewrite orb_true_r.
  - apply trim_no_adjacent, squeeze_newlines_no_adjacent.
    now apply squeeze_no_adjacent.
  - apply trim_no_three_newlines, squeeze_no_three_newlines.
  - apply trim_trimmed.
  - apply trim_trimmed.
Qed.

Lemma word_view_shape (text : jsstring) :
  forallb (fun c => negb (cls_space c) || is_unit SP c) (normalizeForWords text)
  = true /\
  no_adjacent (is_unit SP) (normalizeForWords text) = true /\
  trimmed (normalizeForWords text).
Proof.
  rewrite normalizeForWords_direct. repeat split.
  - apply trim_all, squeeze_all; [reflexivity|]. apply forallb_always.
    intros c. now destruct (cls_space c).
  - apply trim_no_adjacent. now apply squeeze_no_adjacent.
  - apply trim_trimmed.
  - apply trim_trimmed.
Qed.

Lemma squeeze_none (p : code_unit -> bool) (by_ u : jsstring) :
  forallb (fun c => negb (p c)) u = true -> squeeze p by_ false u = u.
Proof.
  intros H. rewrite <- (app_nil_r u) at 1. rewrite squeeze_app by exact H.
  apply app_nil_r.
Qed.

Lemma squeeze_other (p : code_unit -> bool) (by_ : jsstring) (b : bool)
    (c : code_unit) (s : jsstring) :
  p c = false -> squeeze p by_ b (c :: s) = c :: squeeze p by_ false s.
Proof. intros H. cbn [squeeze]. now rewrite H. Qed.

Lemma squeeze_newlines_other (m : nat) (c : code_unit) (s : jsstring) :
  is_unit LF c = false ->
  squeeze_newlines_from m (c :: s)
  = repeat LF (Nat.min m 2) ++ c :: squeeze_newlines_from 0 s.
Proof. intros H. cbn [squeeze_newlines_from]. now rewrite H. Qed.

Lemma squeeze_newlines_none (u : jsstring) :
  forallb (fun c => negb (is_unit LF c)) u = true ->
  squeeze_newlines_from 0 u = u.
Proof.
  intros H. rewrite <- (app_nil_r u) at 1.
  rewrite squeeze_newlines_app by exact H. apply app_nil_r.
Qed.

(** A blank line that holds spaces or tabs is not an empty line: it stays,
    holding one space, and the line feeds around it are not brought
    together. *)
Lemma spaced_blank_line (p1 p2 w : jsstring) :
  p1 <> [] -> p2 <> [] ->
  forallb cls_not_space p1 = true -> forallb cls_not_space p2 = true ->
  w <> [] -> forallb cls_space_tab w = true ->
  normalizePreserveParagraphs (p1 ++ LF :: w ++ LF :: p2)
  = p1 ++ [LF; SP; LF] ++ p2.
Proof.
  intros Hn1 Hn2 Hp1 Hp2 Hnw Hw. rewrite normalizePreserveParagraphs_direct.
  assert (Hcls : forall (q : code_unit -> bool) (u : jsstring),
             forallb cls_not_space u = true ->
             (forall c, cls_not_space c = true -> q c = false) ->
             forallb (fun c => negb (q c)) u = true).
  { intros q u Hu Hq. apply (forallb_weaken cls_not_space); [|exact Hu].
    intros c Hc. now rewrite (Hq c Hc). }
  assert (Hwcr : forallb (fun c => negb (is_unit CR c)) w = true).
  { apply (forallb_weaken cls_space_tab); [|exact Hw]. intros c Hc.
    unfold cls_space_tab, is_unit in *. apply orb_true_iff in Hc as [Hc|Hc];
      apply N.eqb_eq in Hc; subst c; reflexivity. }
  rewrite unify_id.
  2:{ rewrite forallb_app. cbn [forallb]. rewrite forallb_app. cbn [forallb].
      rewrite (Hcls (is_unit CR) p1 Hp1), (Hcls (is_unit CR) p2 Hp2), Hwcr;
        try reflexivity; intros c Hc; apply (not_space_classes c Hc). }
  rewrite squeeze_app
    by (apply (Hcls cls_space_tab p1 Hp1); intros c Hc;
        apply (not_space_classes c Hc)).
  rewrite squeeze_other by reflexivity.
  rewrite (@squeeze_run cls_space_tab [SP] w (LF :: p2) Hnw Hw false).
  change (drop_while cls_space_tab (LF :: p2)) with (LF :: p2).
  rewrite squeeze_other by reflexivity.
  rewrite squeeze_none
    by (apply (Hcls cls_space_tab p2 Hp2); intros c Hc;
        apply (not_space_classes c Hc)).
  unfold squeeze_newlines.
  rewrite squeeze_newlines_app
    by (apply (Hcls (is_unit LF) p1 Hp1); intros c Hc;
        apply (not_space_classes c Hc)).
  change (squeeze_newlines_from 0 (LF :: [SP] ++ LF :: p2))
    with ([LF; SP] ++ squeeze_newlines_from 1 p2).
  assert (H2 : squeeze_newlines_from 1 p2 = LF :: p2).
  { destruct p2 as [|c p2]; [congruence|]. cbn [forallb] in Hp2.
    apply andb_true_iff in Hp2 as [Hc Hp2].
    rewrite squeeze_newlines_other by apply (not_space_classes c Hc).
    rewrite squeeze_newlines_none
      by (apply (Hcls (is_unit LF) p2 Hp2); intros d Hd;
          apply (not_space_classes d Hd)).
    reflexivity. }
  rewrite H2. cbn [app].
  apply trim_id.
  - apply (word_ends (LF :: SP :: LF :: p2) Hn1 Hp1).
  - replace (p1 ++ LF :: SP :: LF :: p2) with ((p1 ++ [LF; SP; LF]) ++ p2)
      by now rewrite <- app_assoc.
    apply (word_ends (p1 ++ [LF; SP; LF]) Hn2 Hp2).
Qed.

(** C8, amended: [normalizePreserveParagraphs] turns CR LF and CR into LF,
    squeezes every run of spaces and tabs into one space, cuts every run of
    three or more LF down to two, and trims; so its result holds no CR, no
    tab, no two spaces in a row, no three LF in a row, and no whitespace at
    either end.  Two paragraphs separated by empty lines, that is by two or
    more line endings with nothing between them, come out with exactly two
    LF between them, while [normalizeForWords] joins them with one space;
    whatever the texts around it, a break of two or more LF gives the same
    full text as a break of two, and the same word view as a space.  The
    word view holds no whitespace but single spaces, none of them at an end.
    A blank line that holds spaces or tabs is not an empty line: it comes
    out as a line holding one space, with one LF on each side. *)
Theorem normalizers_shape :
  (forall text,
     normalizePreserveParagraphs text
     = trim (squeeze_newlines
               (squeeze cls_space_tab [SP] false (unify_line_endings text)))) /\
  (forall text,
     forallb (fun c => negb (is_unit CR c)) (normalizePreserveParagraphs text)
     = true /\
     forallb (fun c => negb (is_unit TAB c)) (normalizePreserveParagraphs text)
     = true /\
     no_adjacent (is_unit SP) (normalizePreserveParagraphs text) = true /\
     no_three_newlines (normalizePreserveParagraphs text) = true /\
     trimmed (normalizePreserveParagraphs text)) /\
  (forall p1 p2 n,
     p1 <> [] -> p2 <> [] ->
     forallb cls_not_space p1 = true -> forallb cls_not_space p2 = true ->
     2 <= n ->
     normalizePreserveParagraphs (p1 ++ repeat LF n ++ p2) = p1 ++ [LF; LF] ++ p2 /\
     normalizeForWords (p1 ++ repeat LF n ++ p2) = p1 ++ [SP] ++ p2) /\
  (forall a b n,
     ends_with is_break a = false -> starts_with is_break b = false ->
     2 <= n ->
     normalizePreserveParagraphs (a ++ repeat LF n ++ b)
     = normalizePreserveParagraphs (a ++ [LF; LF] ++ b)) /\
  (forall a b n,
     1 <= n ->
     normalizeForWords (a ++ repeat LF n ++ b)
     = normalizeForWords (a ++ [SP] ++ b)) /\
  (forall text,
     normalizeForWords text = trim (squeeze cls_space [SP] false text) /\
     forallb (fun c => negb (cls_space c) || is_unit SP c) (normalizeForWords text)
     = true /\
     no_adjacent (is_unit SP) (normalizeForWords text) = true /\
     trimmed (normalizeForWords text)) /\
  normalizePreserveParagraphs
    (js "First  line." ++ [CR; LF; CR; LF; CR; CR; LF; LF] ++ [TAB]
     ++ js "Second " ++ [TAB] ++ js " one. " ++ [LF])
  = js "First line." ++ [LF; LF; SP] ++ js "Second one." /\
  normalizeForWords
    (js "First  line." ++ [CR; LF; CR; LF; CR; CR; LF; LF] ++ [TAB]
     ++ js "Second " ++ [TAB] ++ js " one. " ++ [LF])
  = js "First line. Second one." /\
  (forall p1 p2 w,
     p1 <> [] -> p2 <> [] ->
     forallb cls_not_space p1 = true -> forallb cls_not_space p2 = true ->
     w <> [] -> forallb cls_space_tab w = true ->
     normalizePreserveParagraphs (p1 ++ LF :: w ++ LF :: p2)
     = p1 ++ [LF; SP; LF] ++ p2).
Proof.
  split; [exact normalizePreserveParagraphs_direct|].
  split; [exact full_text_shape|].
  split; [|split; [exact paragraph_break_regardless|]].
  2: split; [exact paragraph_break_invisible|].
  2: split; [|split; [reflexivity|split; [reflexivity|exact spaced_blank_line]]].
  - intros p1 p2 n Hn1 Hn2 Hp1 Hp2 Hn. split.
    + now apply paragraphs_full_text.
    + apply paragraphs_word_view; auto. lia.
  - intros text. split; [apply normalizeForWords_direct|apply word_view_shape].
Qed.

Lemma normalizers_shape_witness :
  normalizePreserveParagraphs (js "one" ++ repeat LF 5 ++ js "two")
  = js "one" ++ [LF; LF] ++ js "two" /\
  normalizeForWords (js "one" ++ repeat LF 5 ++ js "two")
  = js "one" ++ [SP] ++ js "two".
Proof.
  apply (proj1 (proj2 (proj2 normalizers_shape)) (js "one") (js "two") 5);
    solve [discriminate | reflexivity | lia].
Defined.

(** C8 as stated fails: two paragraphs with two blank lines between them,
    each holding a space, come out as they went in, with no double newline
    between them. *)
Lemma blank_lines_not_collapsed :
  ~ (forall p1 p2 sep,
       p1 <> [] -> p2 <> [] ->
       forallb cls_not_space p1 = true -> forallb cls_not_space p2 = true ->
       blank_lines sep = true ->
       normalizePreserveParagraphs (p1 ++ sep ++ p2) = p1 ++ [LF; LF] ++ p2) /\
  normalizePreserveParagraphs (js "a" ++ [LF; SP; LF; SP; LF] ++ js "b")
  = js "a" ++ [LF; SP; LF; SP; LF] ++ js "b".
Proof.
  split; [|reflexivity]. intros H.
  specialize (H (js "a") (js "b") [LF; SP; LF; SP; LF]).
  assert (E : normalizePreserveParagraphs
                (js "a" ++ [LF; SP; LF; SP; LF] ++ js "b")
              = js "a" ++ [LF; LF] ++ js "b")
    by (apply H; solve [discriminate | reflexivity]).
  vm_compute in E. discriminate.
Qed.

(** ** The two views carry the same tokens *)

Lemma split_on_cons_space (p : code_unit -> bool) (cur : jsstring)
    (c : code_unit) (s : jsstring) :
  p c = true -> split_on p cur (c :: s) = flush cur ++ split_on p [] s.
Proof. intros H. simpl. rewrite H. now destruct cur. Qed.

Lemma split_on_cons_other (p : code_unit -> bool) (cur : jsstring)
    (c : code_unit) (s : jsstring) :
  p c = false -> split_on p cur (c :: s) = split_on p (cur ++ [c]) s.
Proof. intros H. simpl. now rewrite H. Qed.

(** A run of separators cuts like one separator. *)
Lemma split_on_gap (p : code_unit -> bool) (w : jsstring) :
  w <> [] -> forallb p w = true ->
  forall cur s, split_on p cur (w ++ s) = flush cur ++ split_on p [] s.
Proof.
  induction w as [|c w IH]; intros Hn Hw cur s; [congruence|].
  simpl in Hw. apply andb_true_iff in Hw as [Hc Hw].
  cbn [app]. rewrite split_on_cons_space by exact Hc.
  destruct w as [|d w]; [reflexivity|].
  now rewrite IH by (discriminate || exact Hw).
Qed.

Lemma split_on_lead (p : code_unit -> bool) (w s : jsstring) :
  forallb p w = true -> split_on p [] (w ++ s) = split_on p [] s.
Proof.
  intros Hw. destruct w as [|c w]; [reflexivity|].
  now rewrite split_on_gap by (discriminate || exact Hw).
Qed.

Lemma split_on_trail (p : code_unit -> bool) (w : jsstring) :
  forallb p w = true ->
  forall s cur, split_on p cur (s ++ w) = split_on p cur s.
Proof.
  intros Hw. induction s as [|c s IH]; intros cur.
  - cbn [app]. destruct w as [|d w]; [reflexivity|].
    rewrite <- (app_nil_r (d :: w)).
    rewrite split_on_gap by (discriminate || exact Hw).
    simpl. destruct cur; reflexivity.
  - cbn [app split_on]. destruct (p c); [destruct cur|]; now rewrite IH.
Qed.

Lemma split_on_trim (s : jsstring) :
  split_on cls_space [] (trim s) = split_on cls_space [] s.
Proof.
  unfold trim. set (d := drop_while cls_space s).
  rewrite <- (take_drop cls_space s) at 1. fold d.
  rewrite split_on_lead by apply take_while_all.
  pose proof (take_drop cls_space (rev d)) as Hr.
  apply (f_equal (@rev _)) in Hr. rewrite rev_involutive, rev_app_distr in Hr.
  rewrite <- Hr at 2. rewrite split_on_trail; [reflexivity|].
  rewrite forallb_rev. apply take_while_all.
Qed.

(** Squeezing runs of a class of separators leaves the tokens alone. *)
Lemma split_on_squeeze (p p' : code_unit -> bool) (by_ : jsstring) :
  (forall c, p' c = true -> p c = true) ->
  by_ <> [] -> forallb p by_ = true ->
  forall s cur b,
    (b = true -> cur = []) ->
    split_on p cur (squeeze p' by_ b s) = split_on p cur s.
Proof.
  intros Hpp Hn Hby. induction s as [|c s IH]; intros cur b Hb; [reflexivity|].
  cbn [squeeze]. destruct (p' c) eqn:Ec'.
  - rewrite (split_on_cons_space p cur c s (Hpp c Ec')).
    destruct b.
    + rewrite (Hb eq_refl). now rewrite IH.
    + rewrite split_on_gap by assumption. now rewrite IH.
  - destruct (p c) eqn:Ec.
    + rewrite !split_on_cons_space by exact Ec. rewrite IH; [reflexivity|discriminate].
    + rewrite !split_on_cons_other by exact Ec. apply IH. discriminate.
Qed.

Lemma split_on_unify :
  forall n s cur,
    length s < n ->
    split_on cls_space cur (unify_line_endings s) = split_on cls_space cur s.
Proof.
  induction n as [|n IH]; intros s cur Hn; [lia|].
  destruct s as [|c s]; [reflexivity|].
  cbn [unify_line_endings]. destruct (is_unit CR c) eqn:Ec.
  - apply N.eqb_eq in Ec. subst c.
    rewrite !split_on_cons_space by reflexivity. f_equal.
    destruct s as [|d s]; [reflexivity|].
    destruct (is_unit LF d) eqn:Ed.
    + apply N.eqb_eq in Ed. subst d.
      rewrite (split_on_cons_space cls_space [] LF s eq_refl).
      apply IH. simpl in *; lia.
    + apply (IH (d :: s)). simpl in *; lia.
  - destruct (cls_space c) eqn:Es.
    + rewrite !split_on_cons_space by exact Es. f_equal. apply IH. simpl in *; lia.
    + rewrite !split_on_cons_other by exact Es. apply IH. simpl in *; lia.
Qed.

Lemma repeat_shift (a : code_unit) (m : nat) (s : jsstring) :
  repeat a m ++ a :: s = repeat a (S m) ++ s.
Proof. induction m as [|m IH]; [reflexivity|]. simpl. now rewrite IH. Qed.

Lemma split_on_newlines (m : nat) (cur s : jsstring) :
  split_on cls_space cur (repeat LF m ++ s)
  = split_on cls_space cur (repeat LF (Nat.min m 2) ++ s).
Proof.
  destruct m as [|[|m]]; try reflexivity.
  replace (Nat.min (S (S m)) 2) with 2 by lia.
  rewrite !split_on_gap; try reflexivity; try discriminate;
    now apply forallb_repeat.
Qed.

Lemma split_on_squeeze_newlines (s : jsstring) :
  forall m cur,
    split_on cls_space cur (squeeze_newlines_from m s)
    = split_on cls_space cur (repeat LF m ++ s).
Proof.
  induction s as [|c s IH]; intros m cur.
  - cbn [squeeze_newlines_from]. rewrite <- (app_nil_r (repeat LF (Nat.min m 2))).
    now rewrite <- split_on_newlines.
  - cbn [squeeze_newlines_from]. destruct (is_unit LF c) eqn:Ec.
    + apply N.eqb_eq in Ec. subst c. now rewrite IH, repeat_shift.
    + rewrite <- split_on_newlines.
      assert (H : forall cur', split_on cls_space cur' (c :: squeeze_newlines_from 0 s)
                          = split_on cls_space cur' (c :: s)).
      { intros cur'. cbn [split_on].
        destruct (cls_space c); [destruct cur'|]; now rewrite IH. }
      destruct m as [|m]; [apply H|].
      rewrite !split_on_gap; try discriminate; try (now apply forallb_repeat).
      now rewrite H.
Qed.

Lemma tokens_word_view (text : jsstring) :
  whitespace_tokens (normalizeForWords text) = whitespace_tokens text.
Proof.
  unfold whitespace_tokens. rewrite normalizeForWords_direct, split_on_trim.
  apply split_on_squeeze; auto; discriminate.
Qed.

Lemma tokens_full_text (text : jsstring) :
  whitespace_tokens (normalizePreserveParagraphs text) = whitespace_tokens text.
Proof.
  unfold whitespace_tokens.
  rewrite normalizePreserveParagraphs_direct, split_on_trim.
  unfold squeeze_newlines. rewrite split_on_squeeze_newlines. cbn [repeat app].
  rewrite (@split_on_squeeze cls_space cls_space_tab [SP]);
    try discriminate; try reflexivity.
  - apply (@split_on_unify (S (length text))). lia.
  - intros c H. unfold cls_space_tab, is_unit in H.
    apply orb_true_iff in H as [H|H]; apply N.eqb_eq in H; now subst c.
Qed.

(** X1: normalising a text for words does not change its tokens, so the word
    list of a text is the assembled token list of the raw text itself. *)
Theorem word_view_keeps_tokens (text : jsstring) :
  tokensFromText (normalizeForWords text) = tokensFromText text /\
  buildWordUnits text = processTokens (tokensFromText text).
Proof.
  assert (H : tokensFromText (normalizeForWords text) = tokensFromText text).
  { rewrite !tokensFromText_tokens. apply tokens_word_view. }
  split; [exact H|]. unfold buildWordUnits. now rewrite H.
Qed.

(** X2: the paragraph-preserving view and the word view of a text hold the
    same tokens in the same order: the word list and the full text that
    [getSampleDocument] returns number the same words. *)
Theorem full_text_keeps_tokens (text : jsstring) :
  tokensFromText (normalizePreserveParagraphs text)
  = tokensFromText (normalizeForWords text) /\
  map word (buildWordUnits text)
  = tokensFromText (normalizePreserveParagraphs text).
Proof.
  rewrite !tokensFromText_tokens, tokens_full_text, tokens_word_view.
  split; [reflexivity|].
  unfold buildWordUnits, processTokens.
  rewrite tokensFromText_tokens, tokens_word_view, map_map.
  rewrite <- (map_id (whitespace_tokens text)) at 2.
  apply map_ext. intros raw. apply parts_concat.
Qed.

(** ** The word view, token by token *)

Lemma ends_with_rev (q : code_unit -> bool) (s : jsstring) :
  ends_with q s = starts_with q (rev s).
Proof.
  induction s as [|c s IH]; [reflexivity|].
  destruct s as [|d s]; [reflexivity|].
  change (ends_with q (c :: d :: s)) with (ends_with q (d :: s)).
  rewrite IH. change (rev (c :: d :: s)) with (rev (d :: s) ++ [c]).
  destruct (rev (d :: s)) as [|e w] eqn:E; [|reflexivity].
  apply (f_equal (@length _)) in E. rewrite length_rev in E. discriminate.
Qed.

Lemma join_cons (sep a : jsstring) (l : list jsstring) :
  l <> [] -> join sep (a :: l) = a ++ sep ++ join sep l.
Proof. destruct l; [congruence|reflexivity]. Qed.

(** A single-spaced string is its tokens with one space between them. *)
Lemma join_split_on (z : jsstring) :
  forall cur,
    forallb (fun c => negb (cls_space c) || is_unit SP c) z = true ->
    no_adjacent (is_unit SP) z = true ->
    ends_with (is_unit SP) z = false ->
    (cur = [] -> starts_with (is_unit SP) z = false) ->
    join [SP] (split_on cls_space cur z) = cur ++ z.
Proof.
  induction z as [|c z IH]; intros cur Hall Hadj Hend Hcur.
  - simpl. destruct cur; [reflexivity|]. simpl. now rewrite app_nil_r.
  - simpl in Hall. apply andb_true_iff in Hall as [Hc Hall].
    simpl in Hadj. apply andb_true_iff in Hadj as [Hcz Hadj].
    pose proof (ends_with_tail _ _ _ Hend) as Hend'.
    destruct (cls_space c) eqn:Es.
    + simpl in Hc. apply N.eqb_eq in Hc. subst c.
      destruct cur as [|a cur]; [now specialize (Hcur eq_refl)|].
      destruct z as [|d z]; [discriminate|].
      assert (Hd : starts_with (is_unit SP) (d :: z) = false).
      { simpl in Hcz. now apply negb_true_iff in Hcz. }
      rewrite split_on_cons_space by reflexivity. cbn [flush app].
      pose proof (IH [] Hall Hadj Hend' (fun _ => Hd)) as Hj.
      rewrite join_cons; [now rewrite Hj|].
      intros E. rewrite E in Hj. discriminate.
    + rewrite split_on_cons_other by exact Es.
      rewrite IH; auto; [now rewrite <- app_assoc|].
      intros E. now destruct cur.
Qed.

Lemma trimmed_ends (z : jsstring) :
  trimmed z ->
  starts_with (is_unit SP) z = false /\ ends_with (is_unit SP) z = false.
Proof.
  assert (H : forall s, starts_with cls_space s = false ->
                        starts_with (is_unit SP) s = false).
  { intros [|c s]; [reflexivity|]. simpl. intros Hc.
    destruct (is_unit SP c) eqn:E; [|reflexivity].
    apply N.eqb_eq in E. now subst c. }
  intros [H1 H2]. split; [now apply H|]. rewrite ends_with_rev. now apply H.
Qed.

Lemma normalizeForWords_join (text : jsstring) :
  normalizeForWords text = join [SP] (whitespace_tokens text).
Proof.
  destruct (word_view_shape text) as [Hall [Hadj Htr]].
  destruct (trimmed_ends Htr) as [Hs He].
  rewrite <- tokens_word_view. unfold whitespace_tokens.
  now rewrite join_split_on.
Qed.

(** X3: the word view of a text is its tokens with exactly one space between
    them. *)
Theorem word_view_is_joined_tokens (text : jsstring) :
  normalizeForWords text = join [SP] (tokensFromText text).
Proof. rewrite tokensFromText_tokens. apply normalizeForWords_join. Qed.

(** X4: normalising for words twice is normalising once, and the word view of
    the paragraph-preserving view is the word view of the text. *)
Theorem word_view_idempotent (text : jsstring) :
  normalizeForWords (normalizeForWords text) = normalizeForWords text /\
  normalizeForWords (normalizePreserveParagraphs text) = normalizeForWords text.
Proof.
  split.
  - rewrite (normalizeForWords_join (normalizeForWords text)), tokens_word_view.
    symmetry. apply normalizeForWords_join.
  - rewrite (normalizeForWords_join (normalizePreserveParagraphs text)).
    rewrite tokens_full_text. symmetry. apply normalizeForWords_join.
Qed.

(** ** The paragraph-preserving view is a fixed point *)

Lemma squeeze_fixed (p : code_unit -> bool) (s : jsstring) :
  forallb (fun c => negb (p c) || is_unit SP c) s = true ->
  no_adjacent (is_unit SP) s = true ->
  squeeze p [SP] false s = s.
Proof.
  induction s as [|c s IH]; [reflexivity|].
  intros Hall Hadj. simpl in Hall. apply andb_true_iff in Hall as [Hc Hall].
  simpl in Hadj. apply andb_true_iff in Hadj as [Hcs Hadj].
  simpl. destruct (p c) eqn:Ep.
  - simpl in Hc. apply N.eqb_eq in Hc. subst c.
    simpl in Hcs. apply negb_true_iff in Hcs.
    rewrite squeeze_in_run.
    assert (Hd : drop_while p s = s).
    { destruct s as [|d s]; [reflexivity|]. simpl in *.
      apply andb_true_iff in Hall as [Hd _].
      destruct (p d); [|reflexivity]. simpl in Hd. congruence. }
    rewrite Hd. simpl. f_equal. now apply IH.
  - f_equal. now apply IH.
Qed.

Lemma squeeze_newlines_fixed (s : jsstring) :
  forall m, m <= 2 -> no_three_newlines (repeat LF m ++ s) = true ->
            squeeze_newlines_from m s = repeat LF m ++ s.
Proof.
  induction s as [|c s IH]; intros m Hm H.
  - simpl. rewrite app_nil_r. now replace (Nat.min m 2) with m by lia.
  - cbn [squeeze_newlines_from]. destruct (is_unit LF c) eqn:Ec.
    + apply N.eqb_eq in Ec. subst c. rewrite repeat_shift in *.
      apply IH; [|exact H].
      destruct m as [|[|[|m]]]; try lia. simpl in H. discriminate.
    + replace (Nat.min m 2) with m by lia. do 2 f_equal.
      apply (IH 0); [lia|].
      apply no_three_newlines_app in H as [_ H].
      now apply (no_three_newlines_app [c] s) in H as [_ H].
Qed.

(** X5: the paragraph-preserving view is a fixed point of its normaliser:
    normalising it again changes nothing. *)
Theorem full_text_idempotent (text : jsstring) :
  normalizePreserveParagraphs (normalizePreserveParagraphs text)
  = normalizePreserveParagraphs text.
Proof.
  destruct (full_text_shape text) as [Hcr [Htab [Hadj [Hnl Htr]]]].
  set (z := normalizePreserveParagraphs text) in *.
  rewrite normalizePreserveParagraphs_direct.
  rewrite unify_id by exact Hcr.
  rewrite squeeze_fixed; [|clear -Htab|exact Hadj].
  - unfold squeeze_newlines.
    rewrite (@squeeze_newlines_fixed z 0) by (lia || exact Hnl).
    destruct Htr as [H1 H2]. now apply trim_id.
  - apply (forallb_weaken (fun c => negb (is_unit TAB c))); [|exact Htab].
    intros c Hc. unfold cls_space_tab.
    change (is_unit 9 c) with (is_unit TAB c).
    apply negb_true_iff in Hc. rewrite Hc, orb_false_r.
    now destruct (is_unit 32 c) eqn:E.
Qed.

(** ** Where the ORP index falls *)

(** X6: for every non-empty token the ORP index falls inside the core: it
    is at least the length of the leading part, below the length of leading
    plus core, and at most four code units into the core; the highlighted
    code unit is never leading or trailing punctuation. *)
Theorem orp_inside_core (raw : jsstring) :
  raw <> [] ->
  (len (leading (splitLeadingCoreTrailing raw))
   <= orpIndex (processToken raw)
   < len (leading (splitLeadingCoreTrailing raw))
     + len (core (splitLeadingCoreTrailing raw)))%Z /\
  (orpIndex (processToken raw)
   <= len (leading (splitLeadingCoreTrailing raw)) + 4)%Z.
Proof.
  intros H. rewrite processToken_unclamped_eq.
  unfold processToken_unclamped. cbn [orpIndex].
  pose proof (calculateOrpCore_below (core_not_empty H)) as Hb.
  pose proof (calculateOrpCore_nonneg (core (splitLeadingCoreTrailing raw))) as H0.
  assert (H4 : (calculateOrpCore (core (splitLeadingCoreTrailing raw)) <= 4)%Z).
  { rewrite calculateOrpCore_band. apply orp_band_range. }
  lia.
Qed.

Lemma orp_inside_core_witness :
  js "(don't)" <> [] /\
  (len (leading (splitLeadingCoreTrailing (js "(don't)")))
   <= orpIndex (processToken (js "(don't)"))
   < len (leading (splitLeadingCoreTrailing (js "(don't)")))
     + len (core (splitLeadingCoreTrailing (js "(don't)"))))%Z.
Proof.
  assert (H : js "(don't)" <> []) by discriminate.
  split; [exact H|]. exact (proj1 (orp_inside_core H)).
Defined.

(** ** Texts without words *)

Lemma filter_nil_all (f : code_unit -> bool) (s : jsstring) :
  filter f s = [] -> forallb (fun c => negb (f c)) s = true.
Proof.
  induction s as [|c s IH]; [reflexivity|].
  simpl. destruct (f c); [discriminate|]. exact IH.
Qed.

(** X7: a text has no words exactly when it is made of whitespace only; any
    other text gives at least one word. *)
Theorem no_words_iff_blank (text : jsstring) :
  buildWordUnits text = [] <-> forallb cls_space text = true.
Proof.
  split.
  - intros H. unfold buildWordUnits, processTokens in H.
    apply map_eq_nil in H.
    rewrite tokensFromText_tokens, tokens_word_view in H.
    pose proof (split_on_concat cls_space text []) as Hc.
    fold (whitespace_tokens text) in Hc. rewrite H in Hc. simpl in Hc.
    symmetry in Hc. apply filter_nil_all in Hc.
    apply (forallb_weaken (fun c => negb (negb (cls_space c)))); [|exact Hc].
    intros c. now rewrite negb_involutive.
  - intros H. unfold buildWordUnits. now rewrite (normalizeForWords_blank text H).
Qed.

(** ** The reader keeps its bounds *)

Local Open Scope Z_scope.

Lemma call_if_given_keeps (S : Type) (P : S -> Prop) (h : option (S -> S)) :
  keeps_if_given P h -> keeps P (call_if_given h).
Proof. destruct h; simpl; [auto|]. intros _ s Hs. exact Hs. Qed.

Lemma handleKeyDown_keeps (S : Type) (P : S -> Prop)
    (h : ShortcutHandlers S) (e : KeyEvent) :
  handlers_keep P h -> keeps P (handleKeyDown h e).
Proof.
  intros (H1 & H2 & H3 & H4 & H5 & H6 & H7 & H8 & H9 & H10 & H11) s Hs.
  unfold handleKeyDown.
  repeat match goal with
         | |- P (if ?b then _ else _) => destruct b
         | |- P (match ?o with Some _ => _ | None => _ end) =>
             destruct o; simpl in *
         end; auto using call_if_given_keeps.
  - exact (@call_if_given_keeps S P _ H10 s Hs).
  - exact (@call_if_given_keeps S P _ H11 s Hs).
Qed.

Lemma handleKeyUp_keeps (S : Type) (P : S -> Prop)
    (h : ShortcutHandlers S) (e : KeyEvent) :
  handlers_keep P h -> keeps P (handleKeyUp h e).
Proof.
  intros (H1 & H2 & H3 & H4 & H5 & H6 & H7 & H8 & H9 & H10 & H11) s Hs.
  unfold handleKeyUp.
  repeat match goal with
         | |- P (if ?b then _ else _) => destruct b
         end; auto.
  exact (@call_if_given_keeps S P _ H6 s Hs).
Qed.

(** X8: a key event runs at most one of the handlers it was given and nothing
    else: whatever property of the state every handler keeps, key-down and
    key-up events keep too, and an event that was already handled or that
    comes from a form field changes nothing. *)
Theorem shortcuts_only_call_handlers (S : Type) (P : S -> Prop)
    (h : ShortcutHandlers S) (e : KeyEvent) :
  handlers_keep P h ->
  keeps P (handleKeyDown h e) /\ keeps P (handleKeyUp h e) /\
  (defaultPrevented e = true \/ target_is_field e = true ->
   forall s, handleKeyDown h e s = s /\ handleKeyUp h e s = s).
Proof.
  intros H. split; [now apply handleKeyDown_keeps|].
  split; [now apply handleKeyUp_keeps|].
  intros Hd s. unfold handleKeyDown, handleKeyUp.
  destruct (defaultPrevented e); [auto|].
  destruct (target_is_field e); [auto|]. destruct Hd; discriminate.
Qed.

Lemma clampValue_wpm (w delta : Z) :
  WPM_MIN <= w <= WPM_MAX -> w mod 5 = 0 -> delta mod 5 = 0 ->
  WPM_MIN <= clampValue (w + delta) WPM_MIN WPM_MAX <= WPM_MAX /\
  clampValue (w + delta) WPM_MIN WPM_MAX mod 5 = 0.
Proof.
  unfold clampValue, WPM_MIN, WPM_MAX. intros Hw Hm Hd.
  assert (Hs : (w + delta) mod 5 = 0).
  { rewrite Z.add_mod, Hm, Hd by lia. reflexivity. }
  split; [lia|].
  destruct (Z.max_spec 100 (w + delta)) as [[_ ->]|[_ ->]];
    match goal with
    | |- context [Z.min 2000 ?x] =>
        destruct (Z.min_spec 2000 x) as [[_ ->]|[_ ->]]
    end; solve [reflexivity | exact Hs].
Qed.

Lemma adjustWpm_ok (n delta : Z) :
  delta mod 5 = 0 -> keeps (reader_ok n) (adjustWpm delta).
Proof.
  intros Hd s (Hi & Hw & Hm).
  destruct (@clampValue_wpm (wpm s) delta Hw Hm Hd) as [Hw' Hm'].
  repeat split; simpl; try apply Hi; try apply Hw'; exact Hm'.
Qed.

Lemma startWpmAdjust_ok (n delta : Z) :
  delta mod 5 = 0 -> keeps (reader_ok n) (startWpmAdjust delta).
Proof.
  intros Hd s Hs. unfold startWpmAdjust. destruct (wpmHold s); [exact Hs|].
  apply (@adjustWpm_ok n delta Hd) in Hs. exact Hs.
Qed.

Lemma pageTarget_ok (n page : Z) :
  1 <= n ->
  0 <= pageTarget n page <= n - 1 /\
  pageOf (pageTarget n page) = Z.max 1 (Z.min page (totalPages n)).
Proof.
  intros Hn. unfold pageTarget, pageOf, totalPages, WORDS_PER_PAGE.
  set (c := - (- n / 300)).
  assert (Hc : 300 * (c - 1) < n <= 300 * c).
  { unfold c. pose proof (Z.div_mod (- n) 300 ltac:(lia)).
    pose proof (Z.mod_pos_bound (- n) 300 ltac:(lia)). lia. }
  remember (Z.max 1 (Z.min page (Z.max 1 c))) as t eqn:Et.
  assert (Ht : 1 <= t <= c) by lia.
  split; [lia|].
  replace ((t - 1) * 300) with ((t - 1) * 300 + 0) by lia.
  rewrite Z.div_add_l by lia. change (0 / 300) with 0. lia.
Qed.

Lemma reader_inv_handle (n : Z) (view : ViewProps) (ev : Event) :
  1 <= n -> event_ok ev -> keeps (reader_inv n) (handle n view ev).
Proof.
  intros Hn Hev.
  assert (Hset : forall f : ReaderState -> ReaderState,
            (forall s, wpm (f s) = wpm s /\ wpmHold (f s) = wpmHold s /\
                       (0 <= currentIndex s <= n - 1 ->
                        0 <= currentIndex (f s) <= n - 1)) ->
            keeps (reader_inv n) f).
  { intros f Hf s [(Hi & Hw & Hm) Hh]. destruct (Hf s) as (Ew & Eh & Ei).
    unfold reader_inv, reader_ok, hold_ok. rewrite Ew, Eh. auto. }
  assert (Hadj : forall delta, delta mod 5 = 0 ->
            keeps (reader_inv n) (adjustWpm delta)).
  { intros delta Hd s [Hs Hh]. split; [now apply adjustWpm_ok|exact Hh]. }
  assert (Hjump : forall index, 0 <= index <= n - 1 ->
            keeps (reader_inv n) (jumpToIndex index)).
  { intros index Hi. apply Hset. intros s. simpl. auto. }
  assert (Hpage : forall page, keeps (reader_inv n) (goToPage n page)).
  { intros page. apply Hjump. apply pageTarget_ok. exact Hn. }
  assert (Hstart : forall delta, delta mod 5 = 0 ->
            keeps (reader_inv n) (startWpmAdjust delta)).
  { intros delta Hd s [Hs Hh]. unfold startWpmAdjust.
    destruct (wpmHold s) eqn:E; [now split|].
    apply (@adjustWpm_ok n delta Hd) in Hs. split; [exact Hs|exact Hd]. }
  assert (Hstop : keeps (reader_inv n) stopWpmAdjust).
  { intros s [Hs Hh]. unfold stopWpmAdjust.
    destruct (wpmHold s); [|now split]. split; [exact Hs|exact I]. }
  assert (Hback : keeps (reader_inv n) stepBackward).
  { apply Hset. intros s. simpl. repeat split; lia. }
  assert (Hfwd : keeps (reader_inv n) (stepForward n)).
  { apply Hset. intros s. simpl. repeat split; lia. }
  assert (Hreset : keeps (reader_inv n) reset).
  { apply Hset. intros s. simpl. repeat split; lia. }
  assert (Htoggle : keeps (reader_inv n) togglePlay).
  { apply Hset. intros s. simpl. auto. }
  assert (Hopen : keeps (reader_inv n) openContextPanel).
  { apply Hset. intros s. simpl. auto. }
  assert (Hmin : forall b, keeps (reader_inv n) (setIsMinimal b)).
  { intros b. apply Hset. intros s. simpl. auto. }
  assert (Hkeys : handlers_keep (reader_inv n) (shortcutHandlers n)).
  { unfold handlers_keep, shortcutHandlers. simpl.
    repeat match goal with |- _ /\ _ => split end;
      auto; try (apply Hadj; reflexivity); try (apply Hstart; reflexivity). }
  destruct ev as [e|e|steps| |b|checked|index]; simpl.
  - now apply handleKeyDown_keeps.
  - now apply handleKeyUp_keeps.
  - intros s Hs. unfold frame.
    destruct (isPlaying s && negb (n =? 0)); [|exact Hs].
    revert s Hs. apply Hset. intros s. unfold advance. simpl in Hev.
    destruct (n - 1 <=? currentIndex s) eqn:E; simpl; [auto|].
    apply Z.leb_gt in E. repeat split; lia.
  - intros s [Hs Hh]. unfold holdTick. unfold hold_ok in Hh.
    destruct (wpmHold s) eqn:E;
      [|split; [exact Hs|unfold hold_ok; now rewrite E]].
    apply Hadj; [exact Hh|]. split; [exact Hs|]. unfold hold_ok. now rewrite E.
  - destruct b; simpl;
      try assumption;
      try solve [apply Hadj; reflexivity];
      try solve [intros s Hs; unfold toggleMinimal; now apply Hmin];
      try solve [apply Hset; intros s; simpl; auto];
      intros s Hs; unfold goToPreviousPage, goToNextPage;
      match goal with
      | |- reader_inv _ (if ?c then _ else _) => destruct c
      end; solve [now apply Hpage | exact Hs].
  - apply Hmin.
  - intros s Hs. unfold clickWord.
    destruct ((0 <=? index) && (index <? n)) eqn:E; [|exact Hs].
    apply andb_true_iff in E as [E1 E2].
    apply Z.leb_le in E1. apply Z.ltb_lt in E2. apply Hjump; [lia|exact Hs].
Qed.

Lemma reader_inv_runView (n : Z) (evs : list Event) :
  1 <= n -> Forall event_ok evs ->
  forall a, reader_inv n (fst a) -> reader_inv n (fst (runView n evs a)).
Proof.
  intros Hn. induction evs as [|ev evs IH]; intros Hev a Ha; [exact Ha|].
  inversion Hev as [|? ? H1 H2]; subst.
  change (runView n (ev :: evs) a) with (runView n evs (step n ev a)).
  apply IH; [exact H2|]. cbn [step fst]. now apply reader_inv_handle.
Qed.

Lemma reader_inv_run (n : Z) (evs : list Event) :
  1 <= n -> Forall event_ok evs -> keeps (reader_inv n) (run n evs).
Proof.
  intros Hn Hev s Hs. unfold run. now apply reader_inv_runView.
Qed.

(** X9: a reader over a non-empty word list keeps its bounds through every
    sequence of key events, button presses, word clicks, engine frames and
    interval ticks: the index stays between 0 and the last word, and the
    speed stays between [WPM_MIN] and [WPM_MAX] and a multiple of 5. *)
Theorem reader_keeps_bounds (n : Z) (evs : list Event) :
  1 <= n -> Forall event_ok evs -> reader_ok n (run n evs initialReader).
Proof.
  intros Hn Hev. apply (@reader_inv_run n evs Hn Hev).
  split; [|exact I]. unfold reader_ok. simpl.
  unfold WPM_MIN, WPM_MAX. repeat split; lia.
Qed.

Lemma reader_keeps_bounds_witness :
  reader_ok 3
    (run 3 [KeyDown (mkKey " " false false false); Frame 7;
            KeyDown (mkKey "ArrowUp" false false false); HoldTick;
            Press BtnNextPage; WordClick 9; KeyDown (mkKey "ArrowRight" false false false)]
       initialReader).
Proof.
  apply reader_keeps_bounds; [lia|].
  repeat constructor; simpl; lia.
Defined.

Local Close Scope Z_scope.

Lemma shortcuts_only_call_handlers_witness :
  keeps (fun k : nat => 1 <= k)
    (handleKeyDown
       (mkHandlers S S S (Some S) (Some S) None S S (fun _ => 1) None (Some S))
       (mkKey "ArrowLeft" false false false)).
Proof.
  apply (@shortcuts_only_call_handlers nat (fun k : nat => 1 <= k)).
  unfold handlers_keep. simpl. repeat split; unfold keeps; intros; lia.
Defined.

(** ** Playing to the end *)

Local Open Scope Z_scope.

Lemma frame_playing (n st : Z) (s : ReaderState) :
  1 <= st -> 0 <= currentIndex s <= n - 1 -> isPlaying s = true ->
  currentIndex (frame n st s) = Z.min (currentIndex s + st) (n - 1) /\
  isPlaying (frame n st s) = (Z.min (currentIndex s + st) (n - 1) <? n - 1).
Proof.
  intros Hst Hi Hp. unfold frame, advance. rewrite Hp.
  assert (Hn0 : (n =? 0) = false) by (apply Z.eqb_neq; lia).
  rewrite Hn0. cbn [andb negb].
  destruct (n - 1 <=? currentIndex s) eqn:E1; cbn [currentIndex isPlaying].
  - apply Z.leb_le in E1. split; [lia|]. symmetry. apply Z.ltb_ge. lia.
  - split; [reflexivity|].
    destruct (n - 1 <=? Z.min (currentIndex s + st) (n - 1)) eqn:E2.
    + apply Z.leb_le in E2. symmetry. apply Z.ltb_ge. lia.
    + apply Z.leb_gt in E2. symmetry. apply Z.ltb_lt. lia.
Qed.

Lemma frame_paused (n st : Z) (s : ReaderState) :
  isPlaying s = false -> frame n st s = s.
Proof. intros Hp. unfold frame. now rewrite Hp. Qed.

(** Engine frames do not look at the view. *)
Lemma runView_frames (n : Z) (steps : list Z) :
  forall a,
    fst (runView n (map Frame steps) a)
    = fold_left (fun s st => frame n st s) steps (fst a).
Proof.
  induction steps as [|st steps IH]; intros a; [reflexivity|].
  change (runView n (map Frame (st :: steps)) a)
    with (runView n (map Frame steps) (step n (Frame st) a)).
  rewrite IH. reflexivity.
Qed.

Lemma run_frame (n st : Z) (steps : list Z) (s : ReaderState) :
  run n (map Frame (st :: steps)) s = run n (map Frame steps) (frame n st s).
Proof. unfold run. now rewrite !runView_frames. Qed.

Lemma frames_reach_end (n : Z) (steps : list Z) :
  Forall (fun st => 1 <= st) steps ->
  forall s,
    0 <= currentIndex s <= n - 1 ->
    (isPlaying s = true ->
     Z.max 1 (n - 1 - currentIndex s) <= Z.of_nat (length steps)) ->
    (isPlaying s = false -> currentIndex s = n - 1) ->
    currentIndex (run n (map Frame steps) s) = n - 1 /\
    isPlaying (run n (map Frame steps) s) = false.
Proof.
  induction 1 as [|st steps Hst _ IH]; intros s Hi Hp Hq.
  - change (run n (map Frame []) s) with s.
    simpl in *. destruct (isPlaying s); [specialize (Hp eq_refl); lia|].
    now split; [apply Hq|].
  - rewrite run_frame.
    assert (Hlen : Z.of_nat (length (st :: steps)) = Z.of_nat (length steps) + 1)
      by (simpl length; lia).
    rewrite Hlen in Hp. clear Hlen.
    destruct (isPlaying s) eqn:Ep.
    + destruct (@frame_playing n st s Hst Hi Ep) as [Ei' Ep'].
      specialize (Hp eq_refl). apply IH; rewrite ?Ei', ?Ep'.
      * lia.
      * intros E. apply Z.ltb_lt in E. lia.
      * intros E. apply Z.ltb_ge in E. lia.
    + rewrite (@frame_paused n st s Ep). apply IH; auto.
      rewrite Ep. discriminate.
Qed.

(** X10: a reader that plays reaches the last word and stops there: from any
    index inside the word list, once as many engine frames have come as there
    are words left (one at least), each with one interval or more elapsed,
    the index is the last one and the reader is paused. *)
Theorem playback_reaches_end (n : Z) (steps : list Z) (s : ReaderState) :
  isPlaying s = true ->
  0 <= currentIndex s <= n - 1 ->
  Forall (fun st => 1 <= st) steps ->
  Z.max 1 (n - 1 - currentIndex s) <= Z.of_nat (length steps) ->
  currentIndex (run n (map Frame steps) s) = n - 1 /\
  isPlaying (run n (map Frame steps) s) = false.
Proof.
  intros Hp Hi Hs Hl. apply frames_reach_end; auto. rewrite Hp. discriminate.
Qed.

Lemma playback_reaches_end_witness :
  currentIndex (run 4 (map Frame [1; 2; 1]) (togglePlay initialReader)) = 3 /\
  isPlaying (run 4 (map Frame [1; 2; 1]) (togglePlay initialReader)) = false.
Proof.
  apply (@playback_reaches_end 4 [1; 2; 1] (togglePlay initialReader));
    try reflexivity; simpl; try lia.
  repeat constructor; lia.
Defined.

(** ** The word on display *)

Lemma wordAt_in (words : list WordData) (i : Z) (w : WordData) :
  wordAt words i = Some w -> In w words.
Proof.
  unfold wordAt. destruct (i <? 0); [discriminate|]. apply nth_error_In.
Qed.

(** X11: the index the reader highlights is always inside the word on
    display, whatever the word list holds and wherever the index points (0
    when there is no word or the word is empty); on the words of the pipeline
    the reader's own clamp changes nothing: it highlights [orpIndex]. *)
Theorem reader_highlight :
  (forall words i,
     0 <= safeOrpIndex words i /\
     (safeWord words i <> [] -> safeOrpIndex words i <= len (safeWord words i) - 1) /\
     (safeWord words i = [] -> safeOrpIndex words i = 0)) /\
  (forall words i, (i < 0 \/ Z.of_nat (length words) <= i) ->
     safeWord words i = [] /\ safeOrpIndex words i = 0) /\
  (forall text i w,
     wordAt (buildWordUnits text) i = Some w ->
     safeWord (buildWordUnits text) i = word w /\
     safeOrpIndex (buildWordUnits text) i = orpIndex w).
Proof.
  split; [|split].
  - intros words i. unfold safeOrpIndex, len.
    destruct (safeWord words i) as [|c z]; simpl length.
    + simpl. repeat split; try lia. congruence.
    + destruct (0 <? Z.of_nat (S (length z))) eqn:E.
      * repeat split; try lia. discriminate.
      * apply Z.ltb_ge in E. lia.
  - intros words i Hi.
    assert (Hw : wordAt words i = None).
    { unfold wordAt. destruct (i <? 0) eqn:E; [reflexivity|].
      apply Z.ltb_ge in E. apply nth_error_None. lia. }
    unfold safeOrpIndex, safeWord. rewrite Hw. auto.
  - intros text i w Hw. unfold safeOrpIndex, safeWord. rewrite Hw.
    split; [reflexivity|].
    apply wordAt_in in Hw. unfold buildWordUnits, processTokens in Hw.
    apply in_map_iff in Hw as [raw [<- _]].
    pose proof (processToken_ok raw) as Hok. unfold wordunit_ok in Hok.
    unfold len in *. destruct (word (processToken raw)) as [|c z].
    + symmetry. exact Hok.
    + simpl length in *. destruct (0 <? Z.of_nat (S (length z))) eqn:E;
        [lia|apply Z.ltb_ge in E; lia].
Qed.

(** ** Pages *)





(** The page buttons while the panel is closed, over 901 words.  A reader
    that played from the start to word 650 was never shown in the view: the
    view still holds page 1, and its next-page button jumps to word 300.  A
    view last rendered on page 2 sends the reader, by then at word 650, to
    word 0 with its previous-page button. *)
Example page_buttons_while_closed :
  currentIndex
    (run 901 [Press BtnTogglePlay; Frame 650; Press BtnNextPage] initialReader)
  = 300 /\
  currentIndex
    (run 901 [Press BtnFullText; Press BtnNextPage; Press BtnContextPlay;
              Frame 350; Press BtnPreviousPage] initialReader)
  = 0.
Proof. split; reflexivity. Qed.

Local Close Scope Z_scope.

(** ** The full text view: words and sentences *)

Lemma search_chr (p : code_unit -> bool) (s : jsstring) :
  forall i,
    match search (Chr p) i s with Some _ => true | None => false end
    = existsb p s.
Proof.
  induction s as [|c s IH]; intros i; [reflexivity|].
  cbn [search existsb]. unfold match_at. rewrite rmatch_chr. cbn [rest].
  destruct (p c); [reflexivity|]. apply IH.
Qed.

Lemma test_chr (p : code_unit -> bool) (s : jsstring) :
  test (Chr p) s = existsb p s.
Proof.
  unfold test, exec. rewrite <- (search_chr p s 0).
  now destruct (search (Chr p) 0 s) as [[i y]|].
Qed.

Lemma count_fold (A : Type) (f : A -> bool) (l : list A) :
  forall a : Z,
    fold_left (fun count t => if f t then (count + 1)%Z else count) l a
    = (a + Z.of_nat (length (filter f l)))%Z.
Proof.
  induction l as [|t l IH]; intros a; cbn [fold_left filter].
  - simpl. lia.
  - rewrite IH. destruct (f t); simpl length; lia.
Qed.

Lemma countWords_direct (text : jsstring) :
  countWords text
  = Z.of_nat (length (filter (existsb cls_alnum) (whitespace_tokens text))).
Proof.
  unfold countWords. fold (tokensFromText text). rewrite tokensFromText_tokens.
  rewrite (@count_fold jsstring isWordToken). cbn [Z.add].
  f_equal. f_equal. apply filter_ext. intros t. apply test_chr.
Qed.

Lemma filter_length_le (A : Type) (f : A -> bool) (l : list A) :
  length (filter f l) <= length l.
Proof. induction l as [|a l IH]; simpl; [lia|destruct (f a); simpl; lia]. Qed.

Lemma filter_length_all (A : Type) (f : A -> bool) (l : list A) :
  length (filter f l) = length l <-> Forall (fun a => f a = true) l.
Proof.
  induction l as [|a l IH]; simpl.
  - split; auto.
  - pose proof (filter_length_le f l) as L. destruct (f a) eqn:E; simpl.
    + split.
      * intros H. constructor; [exact E|]. apply IH. lia.
      * intros H. inversion H; subst. f_equal. now apply IH.
    + split; [lia|]. intros H. inversion H; congruence.
Qed.

(** X13: [countWords] counts the tokens of a text that hold an ASCII letter
    or digit.  So it never exceeds the number of words the reader steps
    through, it equals that number exactly when every token holds such a
    code unit, and the paragraph-preserving view of a text has the count of
    the text itself. *)
Theorem countWords_counts_alnum_tokens (text : jsstring) :
  countWords text
  = Z.of_nat (length (filter (existsb cls_alnum) (tokensFromText text))) /\
  (0 <= countWords text <= Z.of_nat (length (buildWordUnits text)))%Z /\
  (countWords text = Z.of_nat (length (buildWordUnits text)) <->
   Forall (fun token => isWordToken token = true) (tokensFromText text)) /\
  countWords (normalizePreserveParagraphs text) = countWords text.
Proof.
  assert (Hn : length (buildWordUnits text) = length (whitespace_tokens text)).
  { unfold buildWordUnits, processTokens.
    now rewrite length_map, tokensFromText_tokens, tokens_word_view. }
  rewrite !countWords_direct, Hn, tokensFromText_tokens, tokens_full_text.
  pose proof (filter_length_le (existsb cls_alnum) (whitespace_tokens text)).
  split; [reflexivity|].
  split; [split; [apply Nat2Z.is_nonneg|apply Nat2Z.inj_le; exact H]|].
  split; [|reflexivity]. split.
  - intros H0. apply Nat2Z.inj in H0. apply filter_length_all in H0.
    eapply Forall_impl; [|exact H0]. intros t Ht. cbv beta in Ht.
    unfold isWordToken. now rewrite test_chr.
  - intros H0. f_equal. apply filter_length_all.
    eapply Forall_impl; [|exact H0]. intros t Ht. cbv beta in Ht.
    unfold isWordToken in Ht. now rewrite test_chr in Ht.
Qed.

Lemma match_at_sentence_end (i : nat) (s : jsstring) :
  match match_at SENTENCE_END_RE i s with Some _ => true | None => false end
  = match s with
    | [] => false
    | c :: s' => cls_stop c && forallb cls_closer s'
    end.
Proof.
  unfold match_at, SENTENCE_END_RE. rewrite rmatch_cat, rmatch_chr. cbn [rest].
  destruct s as [|c s]; [reflexivity|].
  destruct (cls_stop c); [|reflexivity]. cbn [andb pos caps].
  rewrite rmatch_cat. unfold Star. rewrite rmatch_rep_cls. cbn [pos rest caps].
  rewrite greedy_cls_max.
  - cbn [Nat.leb]. cbn [rmatch]. rewrite rest_adv. cbn [rest].
    rewrite skipn_take_while.
    destruct (drop_while cls_closer s) as [|d s'] eqn:E.
    + now rewrite (drop_while_nil_all _ _ E).
    + destruct (forallb cls_closer s) eqn:F; [|reflexivity].
      apply forallb_take_while in F as [_ F]. congruence.
  - intros j Hj. cbn [rmatch]. rewrite rest_adv. cbn [rest].
    destruct (skipn j s) eqn:E; [|reflexivity].
    apply (f_equal (@length code_unit)) in E. rewrite length_skipn in E.
    pose proof (f_equal (@length code_unit) (take_drop cls_closer s)) as L.
    rewrite length_app in L. simpl in E. lia.
Qed.

Lemma search_sentence_end (s : jsstring) :
  forall i,
    match search SENTENCE_END_RE i s with Some _ => true | None => false end
    = ends_sentence s.
Proof.
  induction s as [|c s IH]; intros i.
  - cbn [search ends_sentence]. pose proof (match_at_sentence_end i []) as H.
    destruct (match_at SENTENCE_END_RE i []); [discriminate|reflexivity].
  - cbn [search ends_sentence].
    pose proof (match_at_sentence_end i (c :: s)) as H.
    destruct (match_at SENTENCE_END_RE i (c :: s)).
    + now rewrite <- H.
    + rewrite <- H. cbn [orb]. apply IH.
Qed.

Lemma isSentenceEnd_direct (token : jsstring) :
  isSentenceEnd token = ends_sentence token.
Proof.
  unfold isSentenceEnd, test, exec. rewrite <- (search_sentence_end token 0).
  now destruct (search SENTENCE_END_RE 0 token) as [[i y]|].
Qed.

Lemma ends_sentence_iff (s : jsstring) :
  ends_sentence s = true <->
  exists a c b,
    s = a ++ c :: b /\ cls_stop c = true /\ forallb cls_closer b = true.
Proof.
  induction s as [|d s IH]; cbn [ends_sentence].
  - split; [discriminate|]. intros [a [c [b [H _]]]]. now destruct a.
  - rewrite orb_true_iff, andb_true_iff, IH. split.
    + intros [[H1 H2]|[a [c [b [H [H1 H2]]]]]].
      * now exists [], d, s.
      * exists (d :: a), c, b. subst s. auto.
    + intros [a [c [b [H [H1 H2]]]]]. destruct a as [|e a].
      * injection H as -> ->. auto.
      * injection H as -> ->. right. now exists a, c, b.
Qed.

(** X14: a token ends a sentence exactly when it is some text, then one of
    the stops . ! ? and then nothing but closing marks (double quote,
    apostrophe, closing parenthesis, closing bracket).  Closing marks after
    the token's end do not matter, so adding one keeps the answer; a token
    without a stop never ends a sentence. *)
Theorem isSentenceEnd_iff (token : jsstring) :
  (isSentenceEnd token = true <->
   exists a c b,
     token = a ++ c :: b /\ cls_stop c = true /\ forallb cls_closer b = true) /\
  (forall d, cls_closer d = true ->
     isSentenceEnd (token ++ [d]) = isSentenceEnd token) /\
  (existsb cls_stop token = false -> isSentenceEnd token = false).
Proof.
  rewrite isSentenceEnd_direct. split; [apply ends_sentence_iff|]. split.
  - intros d Hd. rewrite !isSentenceEnd_direct.
    assert (Hc : cls_stop d = false).
    { unfold cls_closer, cls_stop, is_unit in *.
      repeat (apply orb_true_iff in Hd as [Hd|Hd]);
        apply N.eqb_eq in Hd; subst d; reflexivity. }
    induction token as [|c s IH]; cbn [app ends_sentence].
    + rewrite Hc. reflexivity.
    + rewrite IH, forallb_app. cbn [forallb]. rewrite Hd, !andb_true_r.
      reflexivity.
  - induction token as [|c s IH]; cbn [existsb ends_sentence]; [reflexivity|].
    intros H. apply orb_false_iff in H as [H1 H2]. rewrite H1. now apply IH.
Qed.

(** ** The full text view: paragraphs *)

Lemma greedy_cls_some (p : code_unit -> bool) (k : cont) (s : jsstring) :
  forall min i cs z,
    greedy_cls p k min i s cs = Some z ->
    exists j,
      forallb p (firstn j s) = true /\ j <= length s /\
      k (MState (i + j) (skipn j s) cs) = Some z.
Proof.
  induction s as [|c s IH]; intros min i cs z H; cbn [greedy_cls] in H.
  - exists 0. destruct (min =? 0); [|discriminate].
    rewrite Nat.add_0_r. simpl. auto with arith.
  - assert (Hstop : (if min =? 0 then k (MState i (c :: s) cs) else None)
                    = Some z ->
                    exists j,
                      forallb p (firstn j (c :: s)) = true /\
                      j <= length (c :: s) /\
                      k (MState (i + j) (skipn j (c :: s)) cs) = Some z).
    { intros H0. exists 0. destruct (min =? 0); [|discriminate].
      rewrite Nat.add_0_r. simpl. auto with arith. }
    destruct (p c) eqn:Ep; [|auto].
    destruct (greedy_cls p k (Nat.pred min) (S i) s cs) as [z'|] eqn:E; [|auto].
    injection H as ->. apply IH in E as [j [Hj [Hl Hk]]].
    exists (S j). cbn [firstn forallb skipn length]. rewrite Ep, Hj.
    replace (i + S j) with (S i + j) by lia. auto with arith.
Qed.

(** A match of the paragraph separator is a non-empty run of white space. *)
Lemma match_at_paragraph (q : nat) (s : jsstring) (y : mstate) :
  match_at PARAGRAPH_RE q s = Some y ->
  exists a,
    s = a ++ rest y /\ a <> [] /\ forallb cls_space a = true /\
    pos y = q + length a.
Proof.
  unfold match_at, PARAGRAPH_RE, Lit. rewrite rmatch_cat, rmatch_chr.
  cbn [rest pos caps]. destruct s as [|c s]; [discriminate|].
  destruct (is_unit LF c) eqn:Ec; [|discriminate].
  rewrite rmatch_cat. unfold Star. rewrite rmatch_rep_cls. cbn [pos rest caps].
  intros H. apply greedy_cls_some in H as [j [Hj [Hl Hk]]].
  rewrite rmatch_chr in Hk. cbn [rest pos caps] in Hk.
  destruct (skipn j s) as [|d s'] eqn:Es; [discriminate|].
  destruct (is_unit LF d) eqn:Ed; [|discriminate].
  injection Hk as <-. cbn [rest pos].
  unfold is_unit in Ec, Ed. apply N.eqb_eq in Ec, Ed. subst c d.
  exists (LF :: firstn j s ++ [LF]). repeat split.
  - cbn [app]. f_equal. rewrite <- app_assoc. cbn [app]. rewrite <- Es.
    symmetry. apply firstn_skipn.
  - discriminate.
  - cbn [forallb]. rewrite forallb_app, Hj. reflexivity.
  - cbn [length]. rewrite length_app, length_firstn. simpl. lia.
Qed.

Lemma split_on_flush (p : code_unit -> bool) (cur : jsstring) :
  split_on p cur [] = flush cur.
Proof. now destruct cur. Qed.

Lemma split_on_mid (p : code_unit -> bool) (w s : jsstring) :
  w <> [] -> forallb p w = true ->
  forall u cur,
    split_on p cur (u ++ w ++ s) = split_on p cur u ++ split_on p [] s.
Proof.
  intros Hn Hw. induction u as [|c u IH]; intros cur.
  - cbn [app]. rewrite split_on_flush. now apply split_on_gap.
  - cbn [app split_on]. destruct (p c).
    + destruct cur; cbn [app]; now rewrite IH.
    + apply IH.
Qed.

Lemma split_loop_tokens :
  forall fuel s p q cur,
    length s < fuel -> p <= q ->
    concat (map whitespace_tokens (split_loop fuel PARAGRAPH_RE p q cur s))
    = whitespace_tokens (cur ++ s).
Proof.
  induction fuel as [|fuel IH]; intros s p q cur Hf Hp; [lia|].
  destruct s as [|c s].
  - cbn [split_loop map concat]. now rewrite !app_nil_r.
  - cbn [split_loop].
    assert (Hstep : concat (map whitespace_tokens
                      (split_loop fuel PARAGRAPH_RE p (S q) (cur ++ [c]) s))
                    = whitespace_tokens (cur ++ c :: s)).
    { rewrite IH by (simpl in Hf; lia). now rewrite <- app_assoc. }
    destruct (match_at PARAGRAPH_RE q (c :: s)) as [y|] eqn:E; [|exact Hstep].
    apply match_at_paragraph in E as [a [Hs [Ha [Hw Hy]]]].
    assert (La : 0 < length a) by (destruct a; [congruence|simpl; lia]).
    destruct (pos y =? p) eqn:Ey; [apply Nat.eqb_eq in Ey; lia|].
    cbn [map concat]. rewrite IH.
    + rewrite Hs. unfold whitespace_tokens. cbn [app].
      now rewrite (@split_on_mid cls_space a (rest y) Ha Hw cur []).
    + apply (f_equal (@length code_unit)) in Hs. rewrite length_app in Hs.
      lia.
    + lia.
Qed.

Lemma split_loop_some (r : regex) :
  forall fuel p q cur s, split_loop fuel r p q cur s <> [].
Proof.
  induction fuel as [|fuel IH]; intros p q cur s; [discriminate|].
  cbn [split_loop]. destruct s as [|c s]; [discriminate|].
  destruct (match_at r q (c :: s)) as [y|]; [|apply IH].
  destruct (pos y =? p); [apply IH|discriminate].
Qed.

Lemma paragraphs_tokens (text : jsstring) :
  concat (map whitespace_tokens (paragraphs text)) = whitespace_tokens text.
Proof.
  destruct text as [|c s]; [reflexivity|].
  unfold paragraphs, split_re. rewrite split_loop_tokens; [reflexivity| |lia].
  simpl. lia.
Qed.

Lemma fold_meta (ps : list jsstring) :
  forall m,
    fold_left
      (fun m paragraph =>
         let count := countWords paragraph in
         mkMeta (starts m ++ [total m]) (counts m ++ [count])
           (total m + count)%Z) ps m
    = mkMeta (starts m ++ prefix_sums (total m) (map countWords ps))
        (counts m ++ map countWords ps)
        (total m + sum (map countWords ps))%Z.
Proof.
  induction ps as [|para ps IH]; intros [st ct tot].
  - cbn [fold_left map prefix_sums sum fold_right starts counts total].
    now rewrite !app_nil_r, Z.add_0_r.
  - cbn [fold_left map]. rewrite IH.
    cbn [starts counts total prefix_sums sum fold_right].
    rewrite <- !app_assoc. cbn [app]. now rewrite Z.add_assoc.
Qed.

Lemma paragraphMeta_direct (ps : list jsstring) :
  paragraphMeta ps
  = mkMeta (prefix_sums 0 (map countWords ps)) (map countWords ps)
      (sum (map countWords ps)).
Proof. unfold paragraphMeta. now rewrite fold_meta. Qed.

Lemma sum_counts (ps : list jsstring) :
  sum (map countWords ps)
  = Z.of_nat (length (filter (existsb cls_alnum)
                        (concat (map whitespace_tokens ps)))).
Proof.
  induction ps as [|para ps IH]; [reflexivity|].
  cbn [map concat sum fold_right]. fold (sum (map countWords ps)).
  rewrite IH, countWords_direct, filter_app, length_app, Nat2Z.inj_add.
  reflexivity.
Qed.

(** X15: cutting the full text into paragraphs neither loses, adds nor cuts
    a token: the tokens of the paragraphs, in order, are the tokens of the
    text, so the paragraph counts add up to [countWords] of the text that the
    view was given.  A text that is not empty gives at least one paragraph;
    a view that is closed or not ready has none. *)
Theorem paragraphs_keep_tokens (text : jsstring) :
  concat (map tokensFromText (paragraphs text)) = tokensFromText text /\
  total (paragraphMeta (paragraphs (formattedText true true (Some text))))
  = countWords text /\
  (text <> [] -> paragraphs text <> []) /\
  (forall isOpen isReady fullText,
     isOpen && isReady = false ->
     paragraphs (formattedText isOpen isReady fullText) = []).
Proof.
  split; [|split; [|split]].
  - rewrite tokensFromText_tokens, <- paragraphs_tokens.
    f_equal. apply map_ext. intros para. apply tokensFromText_tokens.
  - rewrite paragraphMeta_direct. cbn [total formattedText andb].
    rewrite sum_counts, paragraphs_tokens, countWords_direct.
    unfold whitespace_tokens. now rewrite split_on_trim.
  - intros Hn Hp. destruct text as [|c s]; [congruence|].
    unfold paragraphs, split_re in Hp. now apply split_loop_some in Hp.
  - intros isOpen isReady fullText H. unfold formattedText. now rewrite H.
Qed.

(** ** The full text view: the paragraph of a word *)

Local Open Scope Z_scope.

Lemma item_spec (A : Type) (l : list A) (i : Z) (a : A) :
  item l i = Some a <-> 0 <= i /\ nth_error l (Z.to_nat i) = Some a.
Proof.
  unfold item. destruct (Z.ltb_spec i 0).
  - split; [discriminate|lia].
  - split; auto. now intros [_ H0].
Qed.

Lemma item_range (A : Type) (l : list A) (i : Z) (a : A) :
  item l i = Some a -> 0 <= i < Z.of_nat (length l).
Proof.
  intros H. apply item_spec in H as [H0 H].
  assert (nth_error l (Z.to_nat i) <> None) as L by congruence.
  apply nth_error_Some in L. lia.
Qed.

Lemma item_some (A : Type) (l : list A) (i : Z) :
  0 <= i < Z.of_nat (length l) -> exists a, item l i = Some a.
Proof.
  intros H. destruct (nth_error l (Z.to_nat i)) as [a|] eqn:E.
  - exists a. apply item_spec. auto with zarith.
  - apply nth_error_None in E. lia.
Qed.

Lemma item_none (A : Type) (l : list A) (i : Z) :
  Z.of_nat (length l) <= i -> item l i = None.
Proof.
  intros H. destruct (item l i) as [a|] eqn:E; [|reflexivity].
  apply item_range in E. lia.
Qed.

Lemma countWords_nonneg (text : jsstring) : 0 <= countWords text.
Proof. rewrite countWords_direct. apply Nat2Z.is_nonneg. Qed.

Lemma length_prefix_sums (cs : list Z) :
  forall a, length (prefix_sums a cs) = length cs.
Proof. induction cs as [|c cs IH]; intros a; simpl; [|rewrite IH]; reflexivity. Qed.

Lemma nth_prefix_sums (cs : list Z) :
  forall a i c,
    nth_error cs i = Some c ->
    nth_error (prefix_sums a cs) i = Some (a + sum (firstn i cs)) /\
    sum (firstn (S i) cs) = sum (firstn i cs) + c.
Proof.
  induction cs as [|d cs IH]; intros a i c H; [now destruct i|].
  destruct i as [|i].
  - injection H as ->. cbn. split; f_equal; lia.
  - cbn [nth_error] in H. destruct (IH (a + d) i c H) as [H1 H2].
    cbn [prefix_sums nth_error]. rewrite H1.
    change (firstn (S (S i)) (d :: cs)) with (d :: firstn (S i) cs).
    change (firstn (S i) (d :: cs)) with (d :: firstn i cs).
    cbn [sum fold_right]. fold (sum (firstn (S i) cs)). fold (sum (firstn i cs)).
    split; [f_equal; lia|lia].
Qed.

Lemma sum_firstn_mono (cs : list Z) :
  Forall (fun c => 0 <= c) cs ->
  forall i j, (i <= j)%nat ->
    0 <= sum (firstn i cs) <= sum (firstn j cs).
Proof.
  induction 1 as [|c cs Hc Hcs IH]; intros i j Hij.
  - rewrite !firstn_nil. simpl. lia.
  - destruct i as [|i]; destruct j as [|j]; try lia.
    + cbn [firstn sum fold_right]. lia.
    + cbn [firstn sum fold_right]. fold (sum (firstn j cs)).
      specialize (IH 0%nat j ltac:(lia)). cbn [firstn sum fold_right] in IH. lia.
    + cbn [firstn sum fold_right]. fold (sum (firstn i cs)).
      fold (sum (firstn j cs)). specialize (IH i j ltac:(lia)). lia.
Qed.

Lemma counts_nonneg (ps : list jsstring) :
  Forall (fun c => 0 <= c) (map countWords ps).
Proof.
  apply Forall_forall. intros c H. apply in_map_iff in H as [para [<- _]].
  apply countWords_nonneg.
Qed.

(** What the entries of [starts] are: the sum of the counts before. *)
Lemma starts_item (ps : list jsstring) (i st : Z) :
  item (starts (paragraphMeta ps)) i = Some st ->
  0 <= i < Z.of_nat (length ps) /\
  st = sum (firstn (Z.to_nat i) (map countWords ps)) /\
  exists ct,
    item (counts (paragraphMeta ps)) i = Some ct /\ 0 <= ct /\
    sum (firstn (S (Z.to_nat i)) (map countWords ps)) = st + ct.
Proof.
  rewrite paragraphMeta_direct. cbn [starts counts]. intros H.
  pose proof (item_range _ _ H) as R.
  rewrite length_prefix_sums, length_map in R.
  destruct (@item_some Z (map countWords ps) i) as [ct Hct];
    [now rewrite length_map|].
  apply item_spec in H as [_ H]. pose proof Hct as Hct'.
  apply item_spec in Hct' as [_ Hn].
  destruct (nth_prefix_sums _ 0 _ Hn) as [H1 H2].
  rewrite H1 in H. injection H as <-.
  split; [exact R|]. split; [reflexivity|].
  exists ct. split; [exact Hct|]. split; [|exact H2].
  pose proof (counts_nonneg ps) as F. rewrite Forall_forall in F.
  apply F. eapply nth_error_In. exact Hn.
Qed.

Lemma starts_defined (ps : list jsstring) (i : Z) :
  0 <= i < Z.of_nat (length ps) ->
  exists st, item (starts (paragraphMeta ps)) i = Some st.
Proof.
  intros H. apply item_some. rewrite paragraphMeta_direct. cbn [starts].
  now rewrite length_prefix_sums, length_map.
Qed.

Lemma starts_ascending (ps : list jsstring) :
  ascending (starts (paragraphMeta ps)).
Proof.
  intros i j a b Hij Ha Hb.
  apply starts_item in Ha as [Ri [-> _]]. apply starts_item in Hb as [Rj [-> _]].
  apply (sum_firstn_mono (counts_nonneg ps)). lia.
Qed.

Lemma starts_below_total (ps : list jsstring) (i st ct : Z) :
  item (starts (paragraphMeta ps)) i = Some st ->
  item (counts (paragraphMeta ps)) i = Some ct ->
  0 <= st /\ 0 <= ct /\ st + ct <= total (paragraphMeta ps) /\
  match item (starts (paragraphMeta ps)) (i + 1) with
  | Some next => next = st + ct
  | None => total (paragraphMeta ps) = st + ct
  end.
Proof.
  intros Hs Hc. pose proof Hs as Hs'.
  apply starts_item in Hs' as [R [Est [ct' [Hc' [Hct E]]]]].
  assert (ct' = ct) by congruence. subst ct'.
  pose proof (sum_firstn_mono (counts_nonneg ps)) as M.
  assert (T : total (paragraphMeta ps)
              = sum (firstn (length (map countWords ps)) (map countWords ps))).
  { rewrite paragraphMeta_direct, firstn_all. reflexivity. }
  rewrite length_map in T.
  split; [rewrite Est; apply (M 0%nat); lia|]. split; [exact Hct|]. split.
  - rewrite <- E, T. apply M. lia.
  - destruct (item (starts (paragraphMeta ps)) (i + 1)) as [next|] eqn:N.
    + apply starts_item in N as [_ [-> _]].
      replace (Z.to_nat (i + 1)) with (S (Z.to_nat i)) by lia. exact E.
    + destruct (Z.ltb_spec (i + 1) (Z.of_nat (length ps))) as [L|L].
      * destruct (@starts_defined ps (i + 1)) as [x Hx]; [lia|congruence].
      * rewrite T, <- E. f_equal. f_equal. lia.
Qed.

(** X16: the bookkeeping of the paragraphs.  There is one start and one
    count for each paragraph; the first start is 0; each start and count is
    at least 0; each further start is the start before plus the count before,
    and the last start plus the last count is the total; so the starts never
    go down. *)
Theorem paragraphMeta_running_totals (paragraphs : list jsstring) :
  length (starts (paragraphMeta paragraphs)) = length paragraphs /\
  counts (paragraphMeta paragraphs) = map countWords paragraphs /\
  (forall st, item (starts (paragraphMeta paragraphs)) 0 = Some st -> st = 0) /\
  (forall i st ct,
     item (starts (paragraphMeta paragraphs)) i = Some st ->
     item (counts (paragraphMeta paragraphs)) i = Some ct ->
     0 <= st /\ 0 <= ct /\
     match item (starts (paragraphMeta paragraphs)) (i + 1) with
     | Some next => next = st + ct
     | None => total (paragraphMeta paragraphs) = st + ct
     end) /\
  ascending (starts (paragraphMeta paragraphs)).
Proof.
  split; [|split; [|split; [|split]]].
  - rewrite paragraphMeta_direct. cbn [starts].
    now rewrite length_prefix_sums, length_map.
  - now rewrite paragraphMeta_direct.
  - intros st H. apply starts_item in H as [_ [-> _]]. reflexivity.
  - intros i st ct Hs Hc.
    destruct (starts_below_total _ _ Hs Hc) as [H1 [H2 [_ H3]]]. auto.
  - apply starts_ascending.
Qed.

Lemma findParagraph_S (fuel : nat) (starts : list Z) (currentIndex low high : Z) :
  findParagraph (S fuel) starts currentIndex low high
  = if low <=? high then
      if match item starts ((low + high) / 2),
               (if (low + high) / 2 + 1 <? Z.of_nat (length starts)
                then item starts ((low + high) / 2 + 1)
                else Some MAX_SAFE_INTEGER) with
         | Some start, Some next =>
             (start <=? currentIndex) && (currentIndex <? next)
         | _, _ => false
         end
      then (low + high) / 2
      else if match item starts ((low + high) / 2) with
              | Some start => currentIndex <? start
              | None => false
              end
           then findParagraph fuel starts currentIndex low ((low + high) / 2 - 1)
           else findParagraph fuel starts currentIndex ((low + high) / 2 + 1) high
    else 0.
Proof. reflexivity. Qed.

(** The search finds the last index whose start is at most the index asked
    for. *)
Lemma findParagraph_finds (starts : list Z) (idx t st : Z) :
  ascending starts ->
  item starts t = Some st -> st <= idx -> idx < MAX_SAFE_INTEGER ->
  (forall j b, t < j -> item starts j = Some b -> idx < b) ->
  forall fuel low high,
    0 <= low <= t -> t <= high < Z.of_nat (length starts) ->
    high - low < Z.of_nat fuel ->
    findParagraph fuel starts idx low high = t.
Proof.
  intros Hasc Ht Hst Hmax Hlast.
  induction fuel as [|fuel IH]; intros low high Hl Hh Hf; [lia|].
  rewrite findParagraph_S.
  destruct (Z.leb_spec low high) as [_|]; [|lia].
  remember ((low + high) / 2) as mid eqn:Emid.
  assert (Hmid : low <= mid <= high).
  { subst mid. split.
    - apply Z.div_le_lower_bound; lia.
    - apply Z.div_le_upper_bound; lia. }
  destruct (@item_some Z starts mid ltac:(lia)) as [sm Hsm]. rewrite Hsm.
  destruct (Z.lt_trichotomy mid t) as [C|[C|C]].
  - assert (sm <= st) by (apply (Hasc mid t); auto; lia).
    destruct (Z.ltb_spec (mid + 1) (Z.of_nat (length starts))) as [_|]; [|lia].
    destruct (@item_some Z starts (mid + 1) ltac:(lia)) as [b Hb]. rewrite Hb.
    assert (b <= st) by (apply (Hasc (mid + 1) t); auto; lia).
    destruct (Z.ltb_spec idx b) as [|_]; [lia|]. rewrite andb_false_r.
    destruct (Z.ltb_spec idx sm) as [|_]; [lia|].
    apply IH; lia.
  - subst t. assert (sm = st) by congruence. subst sm.
    destruct (Z.leb_spec st idx) as [_|]; [|lia].
    destruct (Z.ltb_spec (mid + 1) (Z.of_nat (length starts))) as [L|L].
    + destruct (@item_some Z starts (mid + 1) ltac:(lia)) as [b Hb]. rewrite Hb.
      pose proof (Hlast (mid + 1) b ltac:(lia) Hb).
      destruct (Z.ltb_spec idx b) as [_|]; [reflexivity|lia].
    + destruct (Z.ltb_spec idx MAX_SAFE_INTEGER) as [_|]; [reflexivity|lia].
  - pose proof (Hlast mid sm C Hsm).
    destruct (Z.leb_spec sm idx) as [|_]; [lia|].
    assert (E : match (if mid + 1 <? Z.of_nat (length starts)
                       then item starts (mid + 1) else Some MAX_SAFE_INTEGER) with
                | Some next => false && (idx <? next)
                | None => false
                end = false)
      by (destruct (mid + 1 <? Z.of_nat (length starts));
          [destruct (item starts (mid + 1))|]; reflexivity).
    rewrite E. destruct (Z.ltb_spec idx sm) as [_|]; [|lia].
    apply IH; lia.
Qed.

(** Below every start the search finds nothing. *)
Lemma findParagraph_below (starts : list Z) (idx : Z) :
  (forall i st, item starts i = Some st -> idx < st) ->
  forall fuel low high, findParagraph fuel starts idx low high = 0.
Proof.
  intros Hlow. induction fuel as [|fuel IH]; intros low high; [reflexivity|].
  rewrite findParagraph_S. destruct (low <=? high); [|reflexivity].
  destruct (item starts ((low + high) / 2)) as [sm|] eqn:E.
  - pose proof (Hlow _ _ E).
    destruct (Z.leb_spec sm idx) as [|_]; [lia|].
    assert (E' : match (if (low + high) / 2 + 1 <? Z.of_nat (length starts)
                        then item starts ((low + high) / 2 + 1)
                        else Some MAX_SAFE_INTEGER) with
                 | Some next => false && (idx <? next)
                 | None => false
                 end = false)
      by (destruct ((low + high) / 2 + 1 <? Z.of_nat (length starts));
          [destruct (item starts ((low + high) / 2 + 1))|]; reflexivity).
    rewrite E'. destruct (idx <? sm); apply IH.
  - apply IH.
Qed.

(** Some index is the last one whose start is at most [idx]. *)
Lemma last_start (starts : list Z) (idx s0 : Z) :
  item starts 0 = Some s0 -> s0 <= idx ->
  forall n : nat,
    (1 <= n <= length starts)%nat ->
    exists t st,
      0 <= t < Z.of_nat n /\ item starts t = Some st /\ st <= idx /\
      forall j b, t < j < Z.of_nat n -> item starts j = Some b -> idx < b.
Proof.
  intros H0 Hs0. induction n as [|n IH]; intros Hn; [lia|].
  destruct n as [|n].
  - exists 0, s0. split; [lia|]. split; [exact H0|]. split; [exact Hs0|].
    intros j b Hj. lia.
  - destruct IH as [t [st [Rt [Ht [Hst Hl]]]]]; [lia|].
    destruct (@item_some Z starts (Z.of_nat (S n)) ltac:(lia)) as [b Hb].
    destruct (Z.le_gt_cases b idx) as [C|C].
    + exists (Z.of_nat (S n)), b. split; [lia|]. split; [exact Hb|].
      split; [exact C|]. intros j c Hj. lia.
    + exists t, st. split; [lia|]. split; [exact Ht|]. split; [exact Hst|].
      intros j c Hj Hc.
      destruct (Z.eq_dec j (Z.of_nat (S n))) as [->|Ne].
      * assert (c = b) by congruence. lia.
      * apply (Hl j c); [lia|exact Hc].
Qed.

Lemma activeParagraphIndex_last (ps : list jsstring) (idx : Z) :
  ps <> [] -> 0 <= idx < MAX_SAFE_INTEGER ->
  exists st,
    item (starts (paragraphMeta ps)) (activeParagraphIndex true true ps idx)
    = Some st /\ st <= idx /\
    forall j b,
      activeParagraphIndex true true ps idx < j ->
      item (starts (paragraphMeta ps)) j = Some b -> idx < b.
Proof.
  intros Hne Hidx.
  assert (Hlen : (1 <= length ps)%nat) by (destruct ps; [congruence|simpl; lia]).
  assert (Hls : length (starts (paragraphMeta ps)) = length ps).
  { rewrite paragraphMeta_direct. cbn [starts].
    now rewrite length_prefix_sums, length_map. }
  destruct (@starts_defined ps 0 ltac:(lia)) as [s0 H0].
  assert (s0 = 0) by (apply starts_item in H0 as [_ [-> _]]; reflexivity).
  subst s0.
  destruct (@last_start (starts (paragraphMeta ps)) idx 0 H0 ltac:(lia)
              (length ps) ltac:(lia)) as [t [st [Rt [Ht [Hst Hl]]]]].
  assert (Hl' : forall j b, t < j ->
                  item (starts (paragraphMeta ps)) j = Some b -> idx < b).
  { intros j b Hj Hb. apply (Hl j b); [|exact Hb].
    apply item_range in Hb. lia. }
  assert (E : activeParagraphIndex true true ps idx = t).
  { unfold activeParagraphIndex. cbn [negb orb].
    destruct (Nat.eqb_spec (length ps) 0) as [|_]; [lia|].
    apply (@findParagraph_finds _ idx t st (starts_ascending ps) Ht Hst);
      try lia; auto. }
  rewrite E. exists st. auto.
Qed.

(** X17: for a view that is open and ready, an index from 0 on (and below
    the largest safe integer) is given the last paragraph that starts at or
    before it.  When the index is below the total, that paragraph holds the
    word: its start is at most the index, and the index is below its start
    plus its count.  From the total on, the last paragraph is given. *)
Theorem active_paragraph_holds_word (paragraphs : list jsstring) (idx : Z) :
  paragraphs <> [] -> 0 <= idx < MAX_SAFE_INTEGER ->
  exists st ct,
    item (starts (paragraphMeta paragraphs))
      (activeParagraphIndex true true paragraphs idx) = Some st /\
    item (counts (paragraphMeta paragraphs))
      (activeParagraphIndex true true paragraphs idx) = Some ct /\
    st <= idx /\
    (idx < total (paragraphMeta paragraphs) -> idx < st + ct) /\
    (total (paragraphMeta paragraphs) <= idx ->
     activeParagraphIndex true true paragraphs idx
     = Z.of_nat (length paragraphs) - 1) /\
    (forall j b,
       item (starts (paragraphMeta paragraphs)) j = Some b -> b <= idx ->
       j <= activeParagraphIndex true true paragraphs idx).
Proof.
  intros Hne Hidx.
  destruct (activeParagraphIndex_last Hne Hidx) as [st [Hs [Hst Hl]]].
  remember (activeParagraphIndex true true paragraphs idx) as r eqn:Er.
  pose proof Hs as Hs'. apply starts_item in Hs' as [R [_ [ct [Hc _]]]].
  destruct (starts_below_total _ _ Hs Hc) as [_ [_ [Htot Hnext]]].
  exists st, ct. repeat match goal with |- _ /\ _ => split end; auto.
  - intros Hi.
    destruct (item (starts (paragraphMeta paragraphs)) (r + 1)) as [b|] eqn:N.
    + subst b. apply (Hl (r + 1)); [lia|exact N].
    + lia.
  - intros Hi.
    destruct (Z.ltb_spec (r + 1) (Z.of_nat (length paragraphs))) as [L|L]; [|lia].
    destruct (@starts_defined paragraphs (r + 1) ltac:(lia)) as [b Hb].
    pose proof (Hl (r + 1) b ltac:(lia) Hb). rewrite Hb in Hnext. lia.
  - intros j b Hb Hle. destruct (Z.le_gt_cases j r) as [C|C]; [exact C|].
    pose proof (Hl j b C Hb). lia.
Qed.

Lemma active_paragraph_holds_word_witness :
  exists st ct,
    item (starts (paragraphMeta [js "one two"; js "- three"; js "four"]))
      (activeParagraphIndex true true
         [js "one two"; js "- three"; js "four"] 2) = Some st /\
    item (counts (paragraphMeta [js "one two"; js "- three"; js "four"]))
      (activeParagraphIndex true true
         [js "one two"; js "- three"; js "four"] 2) = Some ct /\
    st <= 2 /\
    (2 < total (paragraphMeta [js "one two"; js "- three"; js "four"]) ->
     2 < st + ct) /\
    (total (paragraphMeta [js "one two"; js "- three"; js "four"]) <= 2 ->
     activeParagraphIndex true true [js "one two"; js "- three"; js "four"] 2
     = Z.of_nat (length [js "one two"; js "- three"; js "four"]) - 1) /\
    (forall j b,
       item (starts (paragraphMeta [js "one two"; js "- three"; js "four"])) j
       = Some b -> b <= 2 ->
       j <= activeParagraphIndex true true
              [js "one two"; js "- three"; js "four"] 2).
Proof.
  apply (@active_paragraph_holds_word [js "one two"; js "- three"; js "four"] 2).
  - discriminate.
  - unfold MAX_SAFE_INTEGER. lia.
Defined.

(** X18: for a view that is open and ready, the paragraph of every word of
    the current page is among the visible ones: when [w] is a word of the
    document and of the paragraphs, on the page of the current index, the
    paragraph that [activeParagraphIndex] gives for [w] is listed by
    [visibleParagraphs]. *)
Theorem page_words_are_visible (paragraphs : list jsstring)
    (currentIndex totalWords w : Z) :
  0 <= w < totalWords -> w < total (paragraphMeta paragraphs) ->
  w < MAX_SAFE_INTEGER -> pageOf w = pageOf currentIndex ->
  In (activeParagraphIndex true true paragraphs w)
    (visibleParagraphs true true paragraphs (pageOf currentIndex) totalWords).
Proof.
  intros Hw Ht Hmax Hpage.
  assert (Hne : paragraphs <> []).
  { intros ->. cbn in Ht. lia. }
  destruct (activeParagraphIndex_last Hne (conj (proj1 Hw) Hmax))
    as [st [Hs [Hst Hl]]].
  remember (activeParagraphIndex true true paragraphs w) as r eqn:Er.
  pose proof Hs as Hs'. apply starts_item in Hs' as [R [_ [ct [Hc _]]]].
  destruct (starts_below_total _ _ Hs Hc) as [_ [_ [Htot Hnext]]].
  assert (Hin : w < st + ct).
  { destruct (item (starts (paragraphMeta paragraphs)) (r + 1)) as [b|] eqn:N.
    - subst b. apply (Hl (r + 1)); [lia|exact N].
    - lia. }
  unfold visibleParagraphs. cbn [negb orb].
  destruct (Nat.eqb_spec (length paragraphs) 0) as [E|_];
    [destruct paragraphs; [congruence|discriminate]|].
  apply filter_In. split.
  - apply in_map_iff. exists (Z.to_nat r). split; [lia|].
    apply in_seq. lia.
  - rewrite Hs, Hc. rewrite <- Hpage. unfold pageOf, WORDS_PER_PAGE.
    pose proof (Z.div_mod w 300 ltac:(lia)).
    pose proof (Z.mod_pos_bound w 300 ltac:(lia)).
    apply andb_true_iff. split; apply Z.ltb_lt; lia.
Qed.

Lemma page_words_are_visible_witness :
  In (activeParagraphIndex true true [js "one two"; js "- three"; js "four"] 2)
    (visibleParagraphs true true [js "one two"; js "- three"; js "four"]
       (pageOf 0) 4).
Proof.
  apply (@page_words_are_visible [js "one two"; js "- three"; js "four"] 0 4 2).
  - lia.
  - vm_compute. reflexivity.
  - unfold MAX_SAFE_INTEGER. lia.
  - reflexivity.
Defined.

Local Close Scope Z_scope.

(** ** The full text view: the title *)

Lemma findParagraph_range (starts : list Z) (idx : Z) :
  forall fuel low high,
    (0 <= low)%Z ->
    (0 <= findParagraph fuel starts idx low high <= Z.max 0 high)%Z.
Proof.
  induction fuel as [|fuel IH]; intros low high Hl; [simpl; lia|].
  rewrite findParagraph_S.
  destruct (Z.leb_spec low high) as [L|L]; [|lia].
  assert (Hmid : (low <= (low + high) / 2 <= high)%Z).
  { split.
    - apply Z.div_le_lower_bound; lia.
    - apply Z.div_le_upper_bound; lia. }
  destruct (match item starts ((low + high) / 2) with
            | Some start =>
                match (if ((low + high) / 2 + 1 <? Z.of_nat (length starts))%Z
                       then item starts ((low + high) / 2 + 1)%Z
                       else Some MAX_SAFE_INTEGER) with
                | Some next => ((start <=? idx) && (idx <? next))%Z
                | None => false
                end
            | None => false
            end); [lia|].
  destruct (match item starts ((low + high) / 2) with
            | Some start => (idx <? start)%Z
            | None => false
            end).
  - specialize (IH low ((low + high) / 2 - 1)%Z Hl). lia.
  - specialize (IH ((low + high) / 2 + 1)%Z high ltac:(lia)). lia.
Qed.

(** X19: whatever the index, the active paragraph is a paragraph of the
    list when there is one: the result lies between 0 and the last position.
    It is 0 for an index below 0, for an empty list of paragraphs and for a
    view that is closed or not ready. *)
Theorem active_paragraph_in_range (isOpen isReady : bool)
    (paragraphs : list jsstring) (idx : Z) :
  (0 <= activeParagraphIndex isOpen isReady paragraphs idx
   <= Z.max 0 (Z.of_nat (length paragraphs) - 1))%Z /\
  ((idx < 0)%Z -> activeParagraphIndex isOpen isReady paragraphs idx = 0%Z) /\
  (paragraphs = [] ->
   activeParagraphIndex isOpen isReady paragraphs idx = 0%Z) /\
  (isOpen && isReady = false ->
   activeParagraphIndex isOpen isReady paragraphs idx = 0%Z).
Proof.
  assert (Hls : length (starts (paragraphMeta paragraphs)) = length paragraphs).
  { rewrite paragraphMeta_direct. cbn [starts].
    now rewrite length_prefix_sums, length_map. }
  unfold activeParagraphIndex. rewrite Hls.
  destruct (negb isOpen || negb isReady || (length paragraphs =? 0)) eqn:G.
  - repeat split; auto; lia.
  - split; [apply findParagraph_range; lia|]. split; [|split].
    + intros Hi. apply findParagraph_below. intros i st Hst.
      apply starts_item in Hst as [_ [-> _]].
      pose proof (@sum_firstn_mono _ (counts_nonneg paragraphs) 0 (Z.to_nat i)
                    ltac:(lia)). lia.
    + intros ->. cbn [length Nat.eqb] in G. rewrite orb_true_r in G.
      discriminate.
    + intros H. destruct isOpen, isReady; discriminate.
Qed.

Lemma match_at_extension (i : nat) (s : jsstring) :
  match_at EXTENSION_RE i s
  = match s with
    | c :: d :: s' =>
        if is_unit DOT c && forallb cls_not_slash_dot (d :: s')
        then Some (MState (S i + length (d :: s')) [] [])
        else None
    | _ => None
    end.
Proof.
  unfold match_at, EXTENSION_RE, Lit. rewrite rmatch_cat, rmatch_chr.
  cbn [rest pos caps]. destruct s as [|c s]; [reflexivity|].
  destruct (is_unit DOT c); [|now destruct s]. cbn [andb].
  rewrite rmatch_cat. unfold Plus. rewrite rmatch_rep_cls. cbn [pos rest caps].
  rewrite greedy_cls_max.
  - unfold adv. cbn [rmatch pos rest caps]. rewrite skipn_take_while.
    destruct (forallb cls_not_slash_dot s) eqn:F.
    + destruct (forallb_take_while _ _ F) as [-> ->].
      destruct s as [|d s']; [reflexivity|].
      rewrite F. reflexivity.
    + assert (D : drop_while cls_not_slash_dot s <> []).
      { intros D. apply drop_while_nil_all in D. congruence. }
      destruct s as [|d s']; [reflexivity|]. rewrite F.
      destruct (1 <=? _); [|reflexivity].
      destruct (drop_while cls_not_slash_dot (d :: s')); [congruence|reflexivity].
  - intros j Hj. cbn [rmatch]. rewrite rest_adv. cbn [rest].
    destruct (skipn j s) eqn:E; [|reflexivity].
    apply (f_equal (@length code_unit)) in E. rewrite length_skipn in E.
    pose proof (f_equal (@length code_unit) (take_drop cls_not_slash_dot s)) as L.
    rewrite length_app in L. simpl in E. lia.
Qed.

Lemma search_extension (ext : jsstring) :
  ext <> [] -> forallb cls_not_slash_dot ext = true ->
  forall stem i,
    search EXTENSION_RE i (stem ++ DOT :: ext)
    = Some (i + length stem,
            MState (S (i + length stem) + length ext) [] []).
Proof.
  intros Hne Hext. induction stem as [|c stem IH]; intros i.
  - cbn [app length]. rewrite Nat.add_0_r. apply search_here.
    rewrite match_at_extension. destruct ext as [|d ext]; [congruence|].
    now rewrite Hext.
  - cbn [app search]. rewrite match_at_extension.
    assert (F : forallb cls_not_slash_dot (stem ++ DOT :: ext) = false).
    { rewrite forallb_app. cbn [forallb]. apply andb_false_r. }
    destruct (stem ++ DOT :: ext) as [|d s'] eqn:E; [now destruct stem|].
    rewrite F, andb_false_r. rewrite IH. cbn [length]. f_equal. f_equal; [lia|].
    f_equal. lia.
Qed.

Lemma search_no_extension (s : jsstring) :
  forallb (fun c => negb (is_unit DOT c)) s = true ->
  forall i, search EXTENSION_RE i s = None.
Proof.
  induction s as [|c s IH]; intros H i.
  - reflexivity.
  - cbn [forallb] in H. apply andb_true_iff in H as [Hc Hs].
    cbn [search]. rewrite match_at_extension.
    apply negb_true_iff in Hc. rewrite Hc. cbn [andb].
    destruct s; now apply IH.
Qed.

Lemma split_at_some (sep : code_unit) (s : jsstring) :
  forall cur, split_at sep cur s <> [].
Proof.
  induction s as [|c s IH]; intros cur; cbn [split_at]; [discriminate|].
  destruct (is_unit sep c); [discriminate|apply IH].
Qed.

Lemma pop_split_at (sep : code_unit) (base : jsstring) :
  forallb (fun c => negb (is_unit sep c)) base = true ->
  (forall cur, pop (split_at sep cur base) = Some (cur ++ base)) /\
  (forall d cur, pop (split_at sep cur (d ++ sep :: base)) = Some base).
Proof.
  intros Hb.
  assert (H1 : forall cur, split_at sep cur base = [cur ++ base]).
  { induction base as [|c base IH]; intros cur; cbn [split_at].
    - now rewrite app_nil_r.
    - cbn [forallb] in Hb. apply andb_true_iff in Hb as [Hc Hb].
      apply negb_true_iff in Hc. rewrite Hc, (IH Hb), <- app_assoc. reflexivity. }
  split.
  - intros cur. now rewrite H1.
  - assert (P : forall (a : jsstring) l, l <> [] -> pop (a :: l) = pop l).
    { intros a l Hl. unfold pop. cbn [rev].
      destruct (rev l) eqn:E; [|reflexivity].
      apply (f_equal (@rev jsstring)) in E. rewrite rev_involutive in E.
      now subst l. }
    pose proof (split_at_some sep) as N.
    induction d as [|c d IH]; intros cur; cbn [app split_at].
    + unfold is_unit at 1. rewrite N.eqb_refl. rewrite P by apply N.
      now rewrite H1.
    + destruct (is_unit sep c); [rewrite P by apply N|]; apply IH.
Qed.

Lemma replace_first_keeps (p : code_unit -> bool) (r : regex) (s : jsstring) :
  forallb p s = true -> forallb p (replace_first r [] s) = true.
Proof.
  intros H. unfold replace_first.
  destruct (search r 0 s) as [[start y]|] eqn:E; [|exact H].
  apply search_found in E as [a [b [Hs [Hstart Hm]]]].
  apply match_at_reaches in Hm as [a' [Hb _]]. subst s b.
  rewrite !forallb_app in H. apply andb_true_iff in H as [Ha H].
  apply andb_true_iff in H as [_ Hr].
  cbn [app]. simpl in Hstart. subst start.
  rewrite firstn_app, firstn_all, Nat.sub_diag. cbn [firstn].
  now rewrite app_nil_r, forallb_app, Ha, Hr.
Qed.

Lemma split_at_pieces (sep : code_unit) (s : jsstring) :
  forall cur,
    forallb (fun c => negb (is_unit sep c)) cur = true ->
    Forall (fun piece => forallb (fun c => negb (is_unit sep c)) piece = true)
      (split_at sep cur s).
Proof.
  induction s as [|c s IH]; intros cur Hc; cbn [split_at].
  - auto.
  - destruct (is_unit sep c) eqn:E.
    + constructor; [exact Hc|]. now apply IH.
    + apply IH. rewrite forallb_app, Hc. cbn [forallb]. now rewrite E.
Qed.

(** X20: the title used when the document has none is the last piece of the
    file's path without its extension.  For a path that ends in a stem, a
    dot and an extension (one or more code units, none a dot or a slash) it
    is the stem, even an empty one; a last piece without a dot is kept
    whole, so a path that ends in a slash gives the empty title; a file name
    that is missing or empty gives Untitled; and no title holds a slash. *)
Theorem fallbackTitle_is_stem :
  (forall dir stem ext,
     is_directory dir -> forallb not_slash stem = true ->
     ext <> [] -> forallb cls_not_slash_dot ext = true ->
     fallbackTitle (Some (dir ++ stem ++ DOT :: ext)) = stem) /\
  (forall dir base,
     is_directory dir -> dir ++ base <> [] ->
     forallb cls_not_slash_dot base = true ->
     fallbackTitle (Some (dir ++ base)) = base) /\
  fallbackTitle None = js "Untitled" /\
  fallbackTitle (Some []) = js "Untitled" /\
  (forall fileName, forallb not_slash (fallbackTitle fileName) = true).
Proof.
  assert (Hpop : forall dir base,
             is_directory dir -> forallb not_slash base = true ->
             pop (split_at SLASH [] (dir ++ base)) = Some base).
  { intros dir base [->|[d ->]] Hb.
    - apply (proj1 (@pop_split_at SLASH base Hb) []).
    - rewrite <- app_assoc. apply (proj2 (@pop_split_at SLASH base Hb)). }
  split; [|split; [|split; [|split]]].
  - intros dir stem ext Hd Hs Hne He.
    assert (Hb : forallb not_slash (stem ++ DOT :: ext) = true).
    { rewrite forallb_app, Hs. cbn [forallb andb].
      apply andb_true_iff. split; [reflexivity|].
      eapply forallb_weaken; [|exact He]. intros c Hc.
      unfold cls_not_slash_dot in Hc. unfold not_slash.
      now destruct (is_unit SLASH c). }
    unfold fallbackTitle.
    destruct (dir ++ stem ++ DOT :: ext) as [|c name] eqn:E.
    { destruct dir as [|? ?]; destruct stem; discriminate. }
    rewrite <- E, (Hpop dir _ Hd Hb). unfold replace_first.
    rewrite (@search_extension ext Hne He stem 0). cbn [Nat.add rest app].
    rewrite firstn_app, firstn_all, Nat.sub_diag. cbn [firstn].
    now rewrite !app_nil_r.
  - intros dir base Hd Hne Hb.
    assert (Hs : forallb not_slash base = true).
    { eapply forallb_weaken; [|exact Hb]. intros c Hc.
      unfold cls_not_slash_dot in Hc. unfold not_slash.
      now destruct (is_unit SLASH c). }
    unfold fallbackTitle. destruct (dir ++ base) as [|c name] eqn:E;
      [congruence|].
    rewrite <- E, (Hpop dir _ Hd Hs). unfold replace_first.
    rewrite search_no_extension; [reflexivity|].
    eapply forallb_weaken; [|exact Hb]. intros c' Hc.
    unfold cls_not_slash_dot in Hc. destruct (is_unit DOT c');
      [now rewrite orb_true_r in Hc|reflexivity].
  - reflexivity.
  - reflexivity.
  - intros [[|c name]|]; try reflexivity.
    unfold fallbackTitle.
    pose proof (@split_at_pieces SLASH (c :: name) [] eq_refl) as F.
    unfold pop. destruct (rev (split_at SLASH [] (c :: name))) as [|piece l] eqn:E.
    + apply (f_equal (@rev jsstring)) in E. rewrite rev_involutive in E.
      now apply split_at_some in E.
    + apply replace_first_keeps. rewrite Forall_forall in F. apply F.
      apply <- in_rev.
      assert (H : In piece (piece :: l)) by now left.
      rewrite <- E in H. exact H.
Qed.
